(** * Love-OS team dynamics: evaluator, sensitivities, optimizer, stress test

    A shallow embedding of [team_optimizer.py] and [stress_test.py].

    Modelling conventions.
    - A numpy [float64] is an exact rational ([Q], compared with [==]):
      the development is about the algebra of the formulas, not about
      rounding.  Division by zero never raises for numpy arrays, and
      neither does [Qdiv].
    - A one-dimensional array is a [list Q], a two-dimensional one a list
      of rows; a matrix without rows does not record its number of
      columns.
    - Python exceptions are values of [exn]; code that may raise lives in
      the [result] monad.  numpy raises [ValueError] when two shapes do
      not broadcast and [IndexError] when an index is out of bounds. *)

From Stdlib Require Import String.
From Stdlib Require DecimalString.
From Stdlib Require Import ZArith QArith Qabs Qminmax Qround Lqa List Arith Lia Bool.
From Stdlib Require Import Permutation Sorted FinFun.
Import ListNotations.
Open Scope Q_scope.

(** ** Exceptions *)

Inductive exn : Set := ValueError | IndexError | NameError.

Inductive result (A : Type) : Type :=
| Ok (a : A)
| Raise (e : exn).
Arguments Ok {A} a.
Arguments Raise {A} e.

Definition bind {A B : Type} (m : result A) (k : A -> result B) : result B :=
  match m with
  | Ok a => k a
  | Raise e => Raise e
  end.

Notation "x <- m ;; k" := (bind m (fun x => k))
  (at level 61, m at next level, right associativity).

(** ** Comparisons as booleans *)

Definition Qltb (x y : Q) : bool := negb (Qle_bool y x).
Definition Qgtb (x y : Q) : bool := Qltb y x.

(** ** numpy arrays *)

Definition range (a b : nat) : list nat := seq a (b - a).

(** [for i in xs: s = body(i, s)], stopping at the first exception. *)
Fixpoint for_range {St : Type} (xs : list nat)
    (body : nat -> St -> result St) (s : St) : result St :=
  match xs with
  | [] => Ok s
  | x :: xs' => s' <- body x s ;; for_range xs' body s'
  end.

(** [a[i]] *)
Definition getitem (a : list Q) (i : nat) : result Q :=
  match nth_error a i with
  | Some x => Ok x
  | None => Raise IndexError
  end.

(** [M[i, j]] *)
Definition getitem2 (M : list (list Q)) (i j : nat) : result Q :=
  match nth_error M i with
  | Some row => getitem row j
  | None => Raise IndexError
  end.

(** Elementwise binary operation on two one-dimensional arrays, with
    numpy's broadcasting: equal lengths, or one side of length one. *)
Definition broadcast (op : Q -> Q -> Q) (a b : list Q) : result (list Q) :=
  if (length a =? length b)%nat
  then Ok (map (fun p => op (fst p) (snd p)) (combine a b))
  else match a, b with
       | [x], _ => Ok (map (op x) b)
       | _, [y] => Ok (map (fun x => op x y) a)
       | _, _ => Raise ValueError
       end.

(** [a.sum()] *)
Definition ndsum (a : list Q) : Q := fold_left Qplus a 0.

(** [M.sum()] of a two-dimensional array: every entry. *)
Definition ndsum2 (M : list (list Q)) : Q := ndsum (concat M).

Fixpoint mapi_from {A B : Type} (f : nat -> A -> B) (k : nat) (l : list A)
    : list B :=
  match l with
  | [] => []
  | x :: t => f k x :: mapi_from f (S k) t
  end.

(** [np.triu(M, k)]: entries below the [k]-th diagonal become zero. *)
Definition triu (M : list (list Q)) (k : nat) : list (list Q) :=
  mapi_from
    (fun i row => mapi_from (fun j x => if (i + k <=? j)%nat then x else 0) 0 row)
    0 M.

(** [c - M] for a scalar [c]. *)
Definition rsub2 (c : Q) (M : list (list Q)) : list (list Q) :=
  map (map (fun x => c - x)) M.

(** ** team_optimizer.py: the physics engine *)

(** The scalar formula [G = L^2 * V / (R + eps)]. *)
Definition gravity (l v r eps : Q) : Q := l ^ 2 * v / (r + eps).

Definition compute_individual_gravity (L V R : list Q) (eps : Q)
    : result (list Q) :=
  num <- broadcast Qmult (map (fun l => l ^ 2) L) V ;;
  broadcast Qdiv num (map (fun r => r + eps) R).

Record metrics : Type := mkMetrics {
  G : list Q;
  K_team : Q;
  D_team : Q;
  Margin : Q;
  Is_Stable : bool
}.

Definition analyze_team_state (L V R : list Q) (Sm : list (list Q))
    (kappa eps : Q) : result metrics :=
  let n := length L in
  Gv <- compute_individual_gravity L V R eps ;;
  K <- for_range (range 0 n) (fun i K =>
         for_range (range (i + 1) n) (fun j K =>
           Gi <- getitem Gv i ;;
           Gj <- getitem Gv j ;;
           Sij <- getitem2 Sm i j ;;
           Ok (K + kappa * Gi * Gj * Sij)) K) 0 ;;
  let misalignment := ndsum2 (triu (rsub2 1 Sm) 1) in
  let D := ndsum R + misalignment in
  Ok {| G := Gv; K_team := K; D_team := D;
        Margin := K - D; Is_Stable := Qgtb K D |}.

(** [M[i, j] = v] *)
Definition setitem2 (M : list (list Q)) (i j : nat) (v : Q)
    : result (list (list Q)) :=
  match nth_error M i with
  | Some row =>
      if (j <? length row)%nat
      then Ok (firstn i M ++ (firstn j row ++ v :: skipn (j + 1) row)
                 :: skipn (i + 1) M)
      else Raise IndexError
  | None => Raise IndexError
  end.

(** [np.zeros_like(M)] *)
Definition zeros_like (M : list (list Q)) : list (list Q) :=
  map (map (fun _ => 0)) M.

(** [[f(i) for i in xs]], stopping at the first exception. *)
Fixpoint list_comp {A : Type} (xs : list nat) (f : nat -> result A)
    : result (list A) :=
  match xs with
  | [] => Ok []
  | x :: xs' => y <- f x ;; ys <- list_comp xs' f ;; Ok (y :: ys)
  end.

Definition calculate_marginal_gains (L V R : list Q) (Sm : list (list Q))
    (kappa eps : Q) : result (list Q * list (list Q)) :=
  let n := length L in
  Gv <- compute_individual_gravity L V R eps ;;
  interaction_sum <-
    list_comp (range 0 n) (fun i =>
      for_range (filter (fun j => negb (i =? j)%nat) (range 0 n))
        (fun j acc =>
           Sij <- getitem2 Sm i j ;;
           Gj <- getitem Gv j ;;
           Ok (acc + kappa * Sij * Gj)) 0) ;;
  num <- broadcast Qmult (map (fun l => l ^ 2) L) V ;;
  dG_dR <- broadcast Qdiv (map Qopp num) (map (fun r => (r + eps) ^ 2) R) ;;
  prod <- broadcast Qmult interaction_sum dG_dR ;;
  let dM_dR := map (fun x => x - 1) prod in
  dM_dS <- for_range (range 0 n) (fun i dM_dS =>
             for_range (range (i + 1) n) (fun j dM_dS =>
               Gi <- getitem Gv i ;;
               Gj <- getitem Gv j ;;
               let val := kappa * Gi * Gj + 1 in
               dM_dS <- setitem2 dM_dS i j val ;;
               setitem2 dM_dS j i val) dM_dS) (zeros_like Sm) ;;
  Ok (dM_dR, dM_dS).

(** ** team_optimizer.py: the greedy optimizer *)

Inductive move_type : Set :=
| Reduce_Resistance   (* "Reduce Resistance (R)" *)
| Boost_Resonance.    (* "Boost Resonance (S)" *)

Record suggestion : Type := mkSuggestion {
  Type_ : move_type;
  Target : nat;
  Target_2 : option nat;
  ROI : Q;
  Cost : Q;
  Impact : Q
}.

(** The [costs] dictionary, with its two keys ['cR'] and ['cS']. *)
Record cost_model : Type := mkCosts {
  cR : list Q;
  cS : list (list Q)
}.

(** [suggestions.sort(key=lambda x: x['ROI'], reverse=True)]: Python's sort
    is stable, also with [reverse=True], so the result is the one of a
    stable insertion sort into descending order. *)
Fixpoint insert_by_roi (x : suggestion) (l : list suggestion)
    : list suggestion :=
  match l with
  | [] => [x]
  | y :: t => if Qle_bool (ROI y) (ROI x) then x :: y :: t
              else y :: insert_by_roi x t
  end.

Definition sort_by_roi (l : list suggestion) : list suggestion :=
  fold_right insert_by_roi [] l.

(** The budget loop: a move is kept when it fits into what is left, and
    the walk goes on with the next move either way. *)
Fixpoint filter_by_budget (budget current_spend : Q)
    (suggestions : list suggestion) : list suggestion :=
  match suggestions with
  | [] => []
  | move :: rest =>
      if Qle_bool (current_spend + Cost move) budget
      then move :: filter_by_budget budget (current_spend + Cost move) rest
      else filter_by_budget budget current_spend rest
  end.

(** Loop A: one candidate per node, when its cost is positive. *)
Definition r_candidates (n : nat) (dM_dR : list Q) (costs : cost_model)
    (step : Q) (suggestions : list suggestion) : result (list suggestion) :=
  for_range (range 0 n) (fun i suggestions =>
    d <- getitem dM_dR i ;;
    let gain := - d * step in
    c <- getitem (cR costs) i ;;
    let cost := c * step in
    if Qgtb cost 0
    then Ok (suggestions ++
               [ {| Type_ := Reduce_Resistance; Target := i; Target_2 := None;
                    ROI := gain / cost; Cost := cost; Impact := gain |} ])
    else Ok suggestions) suggestions.

(** Loop B: one candidate per pair [i < j], when its cost is positive. *)
Definition s_candidates (n : nat) (dM_dS : list (list Q)) (costs : cost_model)
    (step : Q) (suggestions : list suggestion) : result (list suggestion) :=
  for_range (range 0 n) (fun i suggestions =>
    for_range (range (i + 1) n) (fun j suggestions =>
      d <- getitem2 dM_dS i j ;;
      let gain := d * step in
      c <- getitem2 (cS costs) i j ;;
      let cost := c * step in
      if Qgtb cost 0
      then Ok (suggestions ++
                 [ {| Type_ := Boost_Resonance; Target := i; Target_2 := Some j;
                      ROI := gain / cost; Cost := cost; Impact := gain |} ])
      else Ok suggestions) suggestions) suggestions.

(** The candidate list as it stands after the sort, before the budget
    loop. *)
Definition sorted_candidates (L V R : list Q) (Sm : list (list Q))
    (costs : cost_model) (step kappa eps : Q) : result (list suggestion) :=
  g <- calculate_marginal_gains L V R Sm kappa eps ;;
  let (dM_dR, dM_dS) := (g : list Q * list (list Q)) in
  let n := length L in
  suggestions <- r_candidates n dM_dR costs step [] ;;
  suggestions <- s_candidates n dM_dS costs step suggestions ;;
  Ok (sort_by_roi suggestions).

Definition suggest_interventions (L V R : list Q) (Sm : list (list Q))
    (costs : cost_model) (budget step kappa eps : Q)
    : result (list suggestion) :=
  suggestions <- sorted_candidates L V R Sm costs step kappa eps ;;
  Ok (filter_by_budget budget 0 suggestions).

(** Default parameters [kappa=0.02], [eps=0.1]. *)
Definition default_kappa : Q := 2 # 100.
Definition default_eps : Q := 1 # 10.

(** ** stress_test.py: the worst-case scenarios *)

(** [np.argmax(a)]: the first index of the largest entry; [ValueError] on
    an empty array. *)
Fixpoint argmax_from (a : list Q) (k : nat) (best : Q) (best_idx : nat)
    : nat :=
  match a with
  | [] => best_idx
  | x :: t => if Qgtb x best then argmax_from t (S k) x k
              else argmax_from t (S k) best best_idx
  end.

Definition argmax (a : list Q) : result nat :=
  match a with
  | [] => Raise ValueError
  | x :: t => Ok (argmax_from t 1 x 0)
  end.

(** [a[i] = v] *)
Definition setitem {A : Type} (a : list A) (i : nat) (v : A)
    : result (list A) :=
  if (i <? length a)%nat then Ok (firstn i a ++ v :: skipn (i + 1) a)
  else Raise IndexError.

(** [a[mask]] for a boolean mask: the lengths must agree. *)
Definition mask_getitem {A : Type} (a : list A) (mask : list bool)
    : result (list A) :=
  if (length a =? length mask)%nat
  then Ok (map fst (filter snd (combine a mask)))
  else Raise IndexError.

(** [[f(x) for x in xs]] over any list, stopping at the first exception. *)
Fixpoint list_mapM {A B : Type} (f : A -> result B) (xs : list A)
    : result (list B) :=
  match xs with
  | [] => Ok []
  | x :: xs' => y <- f x ;; ys <- list_mapM f xs' ;; Ok (y :: ys)
  end.

(** [M[:, mask]] *)
Definition mask_columns (M : list (list Q)) (mask : list bool)
    : result (list (list Q)) :=
  list_mapM (fun row => mask_getitem row mask) M.

Definition string_of_nat (n : nat) : string :=
  DecimalString.NilEmpty.string_of_uint (Nat.to_uint n).

Record scenario : Type := mkScenario {
  Description : string;
  Margin_Drop : Q;
  New_Margin : Q
}.

(** The strongest-edge loop: the first pair with the largest binding
    term, starting from [max_k = -1] and the edge [(0, 1)]. *)
Definition find_strongest_edge (n : nat) (Gv : list Q) (Sm : list (list Q))
    (kappa : Q) : result (Q * (nat * nat)) :=
  for_range (range 0 n) (fun i st =>
    for_range (range (i + 1) n) (fun j st =>
      Gi <- getitem Gv i ;;
      Gj <- getitem Gv j ;;
      Sij <- getitem2 Sm i j ;;
      let k := kappa * Gi * Gj * Sij in
      if Qgtb k (fst st) then Ok (k, (i, j)) else Ok st) st)
    (- (1), (0%nat, 1%nat)).

(** The result dictionary, in insertion order, and the base margin. *)
Definition run_worst_case_scenarios (L V R : list Q) (Sm : list (list Q))
    (kappa eps : Q) : result (list (string * scenario) * Q) :=
  base_metrics <- analyze_team_state L V R Sm kappa eps ;;
  let n := length L in
  let Gv := G base_metrics in
  top_node_idx <- argmax Gv ;;
  edge <- find_strongest_edge n Gv Sm kappa ;;
  let strongest_edge := snd (edge : Q * (nat * nat)) in
  (* Scenario A: strongest edge break *)
  let u := fst strongest_edge in
  let v := snd strongest_edge in
  Suv <- getitem2 Sm u v ;;
  S_broken <- setitem2 Sm u v (Suv * (6 # 10)) ;;
  Svu <- getitem2 S_broken v u ;;
  S_broken <- setitem2 S_broken v u (Svu * (6 # 10)) ;;
  res_a <- analyze_team_state L V R S_broken kappa eps ;;
  let Edge_Break :=
    {| Description := "Strongest Edge (" ++ string_of_nat u ++ "-"
                      ++ string_of_nat v ++ ") S -40%";
       Margin_Drop := Margin base_metrics - Margin res_a;
       New_Margin := Margin res_a |} in
  (* Scenario B: resistance spike *)
  Rtop <- getitem R top_node_idx ;;
  R_spiked <- setitem R top_node_idx (Rtop + (6 # 10)) ;;
  res_b <- analyze_team_state L V R_spiked Sm kappa eps ;;
  let R_Spike :=
    {| Description := "Top Node (" ++ string_of_nat top_node_idx
                      ++ ") R +0.6";
       Margin_Drop := Margin base_metrics - Margin res_b;
       New_Margin := Margin res_b |} in
  (* Scenario C: key person exit *)
  mask <- setitem (repeat true n) top_node_idx false ;;
  L_rem <- mask_getitem L mask ;;
  V_rem <- mask_getitem V mask ;;
  R_rem <- mask_getitem R mask ;;
  S_rows <- mask_getitem Sm mask ;;
  S_rem <- mask_columns S_rows mask ;;
  res_c <- analyze_team_state L_rem V_rem R_rem S_rem kappa eps ;;
  let Node_Exit :=
    {| Description := "Top Node (" ++ string_of_nat top_node_idx
                      ++ ") Removed";
       Margin_Drop := Margin base_metrics - Margin res_c;
       New_Margin := Margin res_c |} in
  Ok ([ ("Edge_Break", Edge_Break); ("R_Spike", R_Spike);
        ("Node_Exit", Node_Exit) ]%string,
      Margin base_metrics).

(** [results[key]] *)
Fixpoint dict_get {A : Type} (d : list (string * A)) (key : string)
    : option A :=
  match d with
  | [] => None
  | (k, v) :: d' => if String.eqb k key then Some v else dict_get d' key
  end.

(** ** stress_test.py: Monte Carlo and the report *)

(** Elementwise binary operation on two two-dimensional arrays, with
    broadcasting along both axes. *)
Definition broadcast2 (op : Q -> Q -> Q) (A B : list (list Q))
    : result (list (list Q)) :=
  if (length A =? length B)%nat
  then list_mapM (fun ab => broadcast op (fst ab) (snd ab)) (combine A B)
  else match A, B with
       | [ra], _ => list_mapM (fun rb => broadcast op ra rb) B
       | _, [rb] => list_mapM (fun ra => broadcast op ra rb) A
       | _, _ => Raise ValueError
       end.

(** [M.T] *)
Definition transpose (M : list (list Q)) : list (list Q) :=
  match M with
  | [] => []
  | row0 :: _ =>
      map (fun j => map (fun row => nth j row 0) M) (seq 0 (length row0))
  end.

(** [np.clip(x, lo, hi)] *)
Definition clip (lo hi x : Q) : Q := Qmin (Qmax x lo) hi.

(** Ascending insertion sort, for [np.percentile]. *)
Fixpoint insert_asc (x : Q) (l : list Q) : list Q :=
  match l with
  | [] => [x]
  | y :: t => if Qle_bool x y then x :: y :: t else y :: insert_asc x t
  end.

Definition sort_asc (l : list Q) : list Q := fold_right insert_asc [] l.

(** [np.percentile(a, q)] with the default linear interpolation, for a
    non-empty [a]. *)
Definition percentile (a : list Q) (q : Q) : Q :=
  let srt := sort_asc a in
  let pos := inject_Z (Z.of_nat (length a - 1)) * q / 100 in
  let lo := Z.to_nat (Qfloor pos) in
  let hi := Nat.min (lo + 1) (length a - 1) in
  let frac := pos - inject_Z (Qfloor pos) in
  nth lo srt 0 + frac * (nth hi srt 0 - nth lo srt 0).

(** [np.min(a)] of a non-empty array. *)
Definition ndmin (x : Q) (t : list Q) : Q := fold_left Qmin t x.

Record monte_carlo_result : Type := mkMonteCarlo {
  Mean_Margin : Q;
  Min_Margin : Q;
  Unstable_Probability : Q;
  Percentile_5th : Q      (* the key ['5th_Percentile'] *)
}.

(** A stable descending sort by a key: [sorted(..., key=..., reverse=True)]. *)
Fixpoint insert_desc {A : Type} (key : A -> Q) (x : A) (l : list A) : list A :=
  match l with
  | [] => [x]
  | y :: t => if Qle_bool (key y) (key x) then x :: y :: t
              else y :: insert_desc key x t
  end.

Definition sorted_desc {A : Type} (key : A -> Q) (l : list A) : list A :=
  fold_right (insert_desc key) [] l.

(** The newline character. *)
Definition nl : string := String (Ascii.ascii_of_nat 10) EmptyString.

Definition rule : string := "==========================================".

Section StressReport.

Local Open Scope string_scope.

(** The random source: [normal k] is the [k]-th draw from the standard
    normal distribution; [np.random.normal(0, scale, size)] takes the
    next draws and scales them. *)
Variable normal : nat -> Q.

(** How a float is printed under a format specification such as [.2f]. *)
Variable format : string -> Q -> string.

(** The [n] draws from the draw [cursor] on, scaled, and the [n]-by-[n]
    draws, row by row. *)
Definition normal_draws (cursor : nat) (scale : Q) (n : nat) : list Q :=
  map (fun k => scale * normal (cursor + k)) (seq 0 n).

Definition normal_draws2 (cursor : nat) (scale : Q) (n : nat)
    : list (list Q) :=
  map (fun i => normal_draws (cursor + i * n) scale n) (seq 0 n).

(** [np.random.normal(0, scale, n)]: numpy checks the scale before it
    draws and raises [ValueError] ("scale < 0") for a negative one,
    whatever the size. *)
Definition random_normal (cursor : nat) (scale : Q) (n : nat)
    : result (list Q) :=
  if Qltb scale 0 then Raise ValueError
  else Ok (normal_draws cursor scale n).

(** [np.random.normal(0, scale, (n, n))]. *)
Definition random_normal2 (cursor : nat) (scale : Q) (n : nat)
    : result (list (list Q)) :=
  if Qltb scale 0 then Raise ValueError
  else Ok (normal_draws2 cursor scale n).

(** One trial: the state is the draw cursor, the margins so far (latest
    last) and the count of unstable trials. *)
Definition monte_carlo_trial (L V R : list Q) (Sm : list (list Q))
    (noise_scale : Q) (st : nat * list Q * nat)
    : result (nat * list Q * nat) :=
  let '(cursor, margins, unstable_count) := st in
  let n := length L in
  noise <- random_normal cursor (noise_scale * 2) n ;;
  Ln <- broadcast Qplus L noise ;;
  let L_noise := map (Qmax 0) Ln in
  let cursor := (cursor + n)%nat in
  noise <- random_normal cursor (noise_scale * 2) n ;;
  Vn <- broadcast Qplus V noise ;;
  let V_noise := map (Qmax 0) Vn in
  let cursor := (cursor + n)%nat in
  noise <- random_normal cursor (noise_scale * (5 # 10)) n ;;
  Rn <- broadcast Qplus R noise ;;
  let R_noise := map (Qmax 0) Rn in
  let cursor := (cursor + n)%nat in
  noise <- random_normal2 cursor (noise_scale * (5 # 10)) n ;;
  S_noise <- broadcast2 Qplus Sm noise ;;
  let cursor := (cursor + n * n)%nat in
  let S_noise := map (map (clip 0 1)) S_noise in
  S_sum <- broadcast2 Qplus S_noise (transpose S_noise) ;;
  let S_noise := map (map (fun x => x / 2)) S_sum in
  metrics <- analyze_team_state L_noise V_noise R_noise S_noise
               default_kappa default_eps ;;
  let margins := (margins ++ [Margin metrics])%list in
  let unstable_count :=
    if negb (Is_Stable metrics) then (unstable_count + 1)%nat
    else unstable_count in
  Ok (cursor, margins, unstable_count).

Definition run_monte_carlo_simulation (L V R : list Q)
    (Sm : list (list Q)) (iterations : nat) (noise_scale : Q)
    : result monte_carlo_result :=
  st <- for_range (range 0 iterations)
          (fun _ st => monte_carlo_trial L V R Sm noise_scale st)
          (0%nat, [], 0%nat) ;;
  let '(_, margins, unstable_count) := (st : nat * list Q * nat) in
  match margins with
  | [] => Raise ValueError          (* np.min of an empty list *)
  | x :: t =>
      Ok {| Mean_Margin :=
              ndsum margins / inject_Z (Z.of_nat (length margins));
            Min_Margin := ndmin x t;
            Unstable_Probability :=
              inject_Z (Z.of_nat unstable_count)
              / inject_Z (Z.of_nat iterations);
            Percentile_5th := percentile margins 5 |}
  end.

(** The advice line for the most dangerous scenario, if it is one of the
    three. *)
Definition advice (most_dangerous : string) : list string :=
  if String.eqb most_dangerous "R_Spike"
  then ["ADVICE: Monitor ego/burnout of key leaders. Implement 'R-Guard'."]
  else if String.eqb most_dangerous "Node_Exit"
  then ["ADVICE: Key Person dependency is high. Implement 'Dual-Core'."]
  else if String.eqb most_dangerous "Edge_Break"
  then ["ADVICE: Key relationship is fragile. Implement 'Bridge Weaving'."]
  else [].

(** [print_stress_report]: the lines printed (without the emoji markers
    of the source strings) and how the call ends.  [base_metrics] is not
    a local name of the function: it is looked up in the module globals,
    here [global_base_metrics], and the lookup raises [NameError] when
    the module has no such binding. *)
Definition print_stress_report (global_base_metrics : option metrics)
    (L V R : list Q) (Sm : list (list Q)) (names : list string)
    : list string * result unit :=
  let out := [ rule; "LOVE-OS TEAM STRESS TEST REPORT"; rule ++ nl ] in
  match run_monte_carlo_simulation L V R Sm 5000 (1 # 10) with
  | Raise e => (out, Raise e)
  | Ok mc_res =>
      let out := app out
        [ "[1] Monte Carlo Simulation (N=5000)";
          "    - Probability of Instability: "
            ++ format ".2%" (Unstable_Probability mc_res);
          "    - Mean Stability Margin:      "
            ++ format ".2f" (Mean_Margin mc_res);
          "    - Worst 5% Case Margin:       "
            ++ format ".2f" (Percentile_5th mc_res);
          if Qgtb (Unstable_Probability mc_res) (5 # 100)
          then "    WARNING: Team is fragile to minor shocks."
          else "    PASSED: Team is robust against noise.";
          "" ] in
      match run_worst_case_scenarios L V R Sm default_kappa default_eps with
      | Raise e => (out, Raise e)
      | Ok (wc_res, base_margin) =>
          match global_base_metrics with
          | None => (out, Raise NameError)
          | Some base_metrics =>
              let out := app out
                [ "[2] Worst-Case Scenarios (Base Margin: "
                    ++ format ".2f" (Margin base_metrics) ++ ")" ] in
              let sorted_scenarios :=
                sorted_desc (fun kv => Margin_Drop (snd kv)) wc_res in
              let out := app out (
                flat_map (fun kv =>
                  let name := fst kv in
                  let data := snd kv in
                  let drop_pct := Margin_Drop data / base_margin * 100 in
                  [ "    " ++ name ++ ": " ++ Description data;
                    "       Drop: -" ++ format ".2f" (Margin_Drop data)
                      ++ " (-" ++ format ".1f" drop_pct ++ "%) | Result: "
                      ++ format ".2f" (New_Margin data) ])
                  sorted_scenarios) in
              let out :=
                app out [ nl ++ "------------------------------------------" ] in
              match sorted_scenarios with
              | [] => (out, Raise IndexError)
              | first :: _ =>
                  let most_dangerous := fst first in
                  let out :=
                    app out
                      (app [ "CRITICAL THREAT: " ++ most_dangerous ]
                           (app (advice most_dangerous) [ rule ])) in
                  (out, Ok tt)
              end
          end
      end
  end.

End StressReport.

(** ** Specification-level definitions *)

Definition Qsum (l : list Q) : Q := fold_right Qplus 0 l.

(** The unordered pairs [i < j < n], in the order of the nested loops. *)
Definition pairs (n : nat) : list (nat * nat) :=
  flat_map (fun i => map (pair i) (range (i + 1) n)) (range 0 n).

Definition pair_sum (n : nat) (f : nat -> nat -> Q) : Q :=
  Qsum (map (fun ij => f (fst ij) (snd ij)) (pairs n)).

(** [M[i][j]], with 0 outside the array. *)
Definition entry (M : list (list Q)) (i j : nat) : Q := nth j (nth i M []) 0.

(** [M] has [r] rows of [c] entries each. *)
Definition shape2 (r c : nat) (M : list (list Q)) : Prop :=
  length M = r /\ Forall (fun row => length row = c) M.

(** A snapshot of [n] nodes. *)
Definition snapshot (n : nat) (L V R : list Q) (Sm : list (list Q)) : Prop :=
  length L = n /\ length V = n /\ length R = n /\ shape2 n n Sm.

(** The gravity vector of a well-shaped snapshot, node by node. *)
Definition gravities (L V R : list Q) (eps : Q) : list Q :=
  map (fun i => gravity (nth i L 0) (nth i V 0) (nth i R 0) eps)
      (seq 0 (length L)).

(** Binding energy and friction as the specification words them. *)
Definition K_spec (n : nat) (g : list Q) (Sm : list (list Q)) (kappa : Q) : Q :=
  pair_sum n (fun i j => kappa * nth i g 0 * nth j g 0 * entry Sm i j).

Definition D_spec (n : nat) (R : list Q) (Sm : list (list Q)) : Q :=
  Qsum R + pair_sum n (fun i j => 1 - entry Sm i j).

(** [M] with the entry at [(i, j)] replaced by [v]: what [setitem2] stores
    when the index is in range. *)
Definition set2 (M : list (list Q)) (i j : nat) (v : Q) : list (list Q) :=
  firstn i M ++ (firstn j (nth i M []) ++ v :: skipn (j + 1) (nth i M []))
    :: skipn (i + 1) M.

(** The interaction term of node [i] as the specification words it:
    [kappa] times the sum over [j <> i] of [S[i][j] * G[j]]. *)
Definition interaction_spec (n : nat) (g : list Q) (Sm : list (list Q))
    (kappa : Q) (i : nat) : Q :=
  kappa * Qsum (map (fun j => entry Sm i j * nth j g 0)
                    (filter (fun j => negb (i =? j)%nat) (seq 0 n))).

(** One round of the resonance loop of [calculate_marginal_gains]:
    [val] is written at [(i, j)] and then at [(j, i)]. *)
Definition dM_dS_step (g : list Q) (kappa : Q) (M : list (list Q))
    (ij : nat * nat) : list (list Q) :=
  let val := kappa * nth (fst ij) g 0 * nth (snd ij) g 0 + 1 in
  set2 (set2 M (fst ij) (snd ij) val) (snd ij) (fst ij) val.

(** The cost arrays have the shape of the snapshot. *)
Definition cost_shape (n : nat) (costs : cost_model) : Prop :=
  length (cR costs) = n /\ shape2 n n (cS costs).

(** What one round of loop A appends. *)
Definition r_candidate (dM_dR : list Q) (costs : cost_model) (step : Q)
    (i : nat) : list suggestion :=
  let gain := - nth i dM_dR 0 * step in
  let cost := nth i (cR costs) 0 * step in
  if Qgtb cost 0
  then [ {| Type_ := Reduce_Resistance; Target := i; Target_2 := None;
            ROI := gain / cost; Cost := cost; Impact := gain |} ]
  else [].

(** What one round of loop B appends. *)
Definition s_candidate (dM_dS : list (list Q)) (costs : cost_model) (step : Q)
    (ij : nat * nat) : list suggestion :=
  let gain := entry dM_dS (fst ij) (snd ij) * step in
  let cost := entry (cS costs) (fst ij) (snd ij) * step in
  if Qgtb cost 0
  then [ {| Type_ := Boost_Resonance; Target := fst ij;
            Target_2 := Some (snd ij);
            ROI := gain / cost; Cost := cost; Impact := gain |} ]
  else [].

(** The candidates in the order of their enumeration, before the sort. *)
Definition raw_candidates (n : nat) (dM_dR : list Q) (dM_dS : list (list Q))
    (costs : cost_model) (step : Q) : list suggestion :=
  flat_map (r_candidate dM_dR costs step) (range 0 n)
  ++ flat_map (s_candidate dM_dS costs step) (pairs n).

(** Non-increasing ROI. *)
Definition roi_descending : list suggestion -> Prop :=
  StronglySorted (fun a b => ROI b <= ROI a).

(** Relabelling the nodes: position [a] of the permuted snapshot holds
    node [p[a]]; rows and columns of [S] move together. *)
Definition permute_vec (p : list nat) (a : list Q) : list Q :=
  map (fun k => nth k a 0) p.

Definition permute_mat (p : list nat) (M : list (list Q)) : list (list Q) :=
  map (fun i => map (fun j => entry M i j) p) p.

(** The sum of [f x y] over the pairs of a list, [x] standing before [y]. *)
Fixpoint list_pair_sum (f : nat -> nat -> Q) (l : list nat) : Q :=
  match l with
  | [] => 0
  | x :: t => Qsum (map (f x) t) + list_pair_sum f t
  end.



(** ** Examples *)

Definition example_L : list Q := [12; 10; 5; 8].
Definition example_V : list Q := [8; 6; 4; 9].
Definition example_R : list Q := [2 # 10; 8 # 10; 15 # 10; 3 # 10].

(** [S = np.ones((n, n)) * 0.5; S[0, 1] = 0.8; S[0, 2] = 0.3; S[1, 2] = 0.2]:
    only the upper triangle is overwritten. *)
Definition example_S : list (list Q) :=
  [ [5 # 10; 8 # 10; 3 # 10; 5 # 10];
    [5 # 10; 5 # 10; 2 # 10; 5 # 10];
    [5 # 10; 5 # 10; 5 # 10; 5 # 10];
    [5 # 10; 5 # 10; 5 # 10; 5 # 10] ].

(** The symmetric completion of the example matrix. *)
Definition example_S_sym : list (list Q) :=
  [ [5 # 10; 8 # 10; 3 # 10; 5 # 10];
    [8 # 10; 5 # 10; 2 # 10; 5 # 10];
    [3 # 10; 2 # 10; 5 # 10; 5 # 10];
    [5 # 10; 5 # 10; 5 # 10; 5 # 10] ].

(** Two calls whose shapes do not agree on one node count: a 3-by-3 matrix
    for two nodes, and a [V] of length one for two nodes. *)
Definition oversized_S : list (list Q) :=
  [ [1 # 2; 1 # 2; 1 # 2]; [1 # 2; 1 # 2; 1 # 2]; [1 # 2; 1 # 2; 1 # 2] ].

Definition two_by_two_S : list (list Q) := [ [0; 1]; [1; 0] ].

(** A two-node team whose best-ROI candidate costs more than the budget
    of 5 while the next one costs 1. *)
Definition skip_L : list Q := [30; 1].
Definition skip_V : list Q := [1; 1].
Definition skip_R : list Q := [0; 999 # 10].
Definition skip_S : list (list Q) := [ [0; 1]; [1; 0] ].
Definition skip_costs : cost_model :=
  {| cR := [10; 1]; cS := [ [0; 0]; [0; 0] ] |}.

(** The example resistances with the one of node 1 raised from 0.8 to 1. *)
Definition example_R_raised : list Q := [2 # 10; 1; 15 # 10; 3 # 10].

(** A relabelling of the example team. *)
Definition example_perm : list nat := [2; 0; 3; 1]%nat.

(** ** The perturbed snapshots of the worst-case scenarios *)

(** [a] with the entry at [i] replaced by [x], and with it removed. *)
Definition update_at {A : Type} (i : nat) (x : A) (a : list A) : list A :=
  firstn i a ++ x :: skipn (i + 1) a.

Definition remove_at {A : Type} (i : nat) (a : list A) : list A :=
  firstn i a ++ skipn (i + 1) a.

(** [S] after [S[u, v] *= 0.6; S[v, u] *= 0.6]. *)
Definition edge_break (Sm : list (list Q)) (u v : nat) : list (list Q) :=
  let S1 := set2 Sm u v (entry Sm u v * (6 # 10)) in
  set2 S1 v u (entry S1 v u * (6 # 10)).

(** [S] without row and column [i]. *)
Definition remove_node (i : nat) (Sm : list (list Q)) : list (list Q) :=
  map (remove_at i) (remove_at i Sm).

(** The binding term of a pair. *)
Definition binding_term (g : list Q) (Sm : list (list Q)) (kappa : Q)
    (i j : nat) : Q :=
  kappa * nth i g 0 * nth j g 0 * entry Sm i j.

(** One round of the strongest-edge loop. *)
Definition strongest_step (g : list Q) (Sm : list (list Q)) (kappa : Q)
    (st : Q * (nat * nat)) (ij : nat * nat) : Q * (nat * nat) :=
  let k := kappa * nth (fst ij) g 0 * nth (snd ij) g 0
           * entry Sm (fst ij) (snd ij) in
  if Qgtb k (fst st) then (k, ij) else st.

(** ** The matrix a Monte Carlo trial evaluates *)

(** [(S + S.T) / 2], entry by entry, for an [n]-by-[n] matrix. *)
Definition symmetrized (n : nat) (Sm : list (list Q)) : list (list Q) :=
  map (fun i => map (fun j => (entry Sm i j + entry Sm j i) / 2) (seq 0 n))
      (seq 0 n).

(** ** The margin as a function of one input *)

(** The evaluator's margin of a snapshot (0 where the evaluator raises). *)
Definition margin_at (L V R : list Q) (Sm : list (list Q)) (kappa eps : Q)
    : Q :=
  match analyze_team_state L V R Sm kappa eps with
  | Ok m => Margin m
  | Raise _ => 0
  end.

(** [D] is the derivative of [f] at [x]: the difference quotient
    [(f (x + h) - f x) / h] tends to [D] as [h] tends to 0. *)
Definition is_derivative (f : Q -> Q) (x D : Q) : Prop :=
  forall e, 0 < e ->
    exists d, 0 < d /\
      forall h, ~ h == 0 -> Qabs h < d ->
        Qabs ((f (x + h) - f x) / h - D) < e.

(** * Proofs *)

(** ** Booleans and comparisons *)

Lemma Qltb_lt (x y : Q) : Qltb x y = true <-> x < y.
Proof.
  unfold Qltb. rewrite negb_true_iff, <- not_true_iff_false, Qle_bool_iff.
  split; intro H.
  - apply Qnot_le_lt; exact H.
  - apply Qlt_not_le; exact H.
Qed.

Lemma Qgtb_gt (x y : Q) : Qgtb x y = true <-> y < x.
Proof. unfold Qgtb. apply Qltb_lt. Qed.

Lemma Qle_bool_false (x y : Q) : Qle_bool x y = false <-> y < x.
Proof.
  rewrite <- Qltb_lt. unfold Qltb. rewrite negb_true_iff. reflexivity.
Qed.

(** ** Sums *)

Lemma Qsum_app (l1 l2 : list Q) : Qsum (l1 ++ l2) == Qsum l1 + Qsum l2.
Proof.
  induction l1 as [|x l1 IH]; simpl.
  - ring.
  - rewrite IH. ring.
Qed.

Lemma fold_left_Qplus (l : list Q) (a : Q) : fold_left Qplus l a == a + Qsum l.
Proof.
  revert a. induction l as [|x l IH]; intro a; simpl.
  - ring.
  - rewrite IH. ring.
Qed.

Lemma ndsum_Qsum (l : list Q) : ndsum l == Qsum l.
Proof. unfold ndsum. rewrite fold_left_Qplus. ring. Qed.

Lemma Qsum_ext {A : Type} (f g : A -> Q) (l : list A) :
  (forall x, In x l -> f x == g x) -> Qsum (map f l) == Qsum (map g l).
Proof.
  induction l as [|x l IH]; intro H; simpl.
  - reflexivity.
  - rewrite (H x (or_introl eq_refl)), IH.
    + reflexivity.
    + intros y Hy. apply H. right. exact Hy.
Qed.

Lemma Qsum_zero {A : Type} (f : A -> Q) (l : list A) :
  (forall x, In x l -> f x == 0) -> Qsum (map f l) == 0.
Proof.
  induction l as [|x l IH]; intro H; simpl.
  - reflexivity.
  - rewrite (H x (or_introl eq_refl)), IH.
    + ring.
    + intros y Hy. apply H. right. exact Hy.
Qed.

Lemma Qsum_concat (M : list (list Q)) : Qsum (concat M) == Qsum (map Qsum M).
Proof.
  induction M as [|row M IH]; simpl.
  - reflexivity.
  - rewrite Qsum_app, IH. reflexivity.
Qed.

Lemma Qsum_flat_map {A B : Type} (f : B -> Q) (g : A -> list B) (l : list A) :
  Qsum (map f (flat_map g l)) == Qsum (map (fun a => Qsum (map f (g a))) l).
Proof.
  induction l as [|a l IH]; simpl.
  - reflexivity.
  - rewrite map_app, Qsum_app, IH. reflexivity.
Qed.

Lemma Qsum_le {A : Type} (f g : A -> Q) (l : list A) :
  (forall x, In x l -> f x <= g x) -> Qsum (map f l) <= Qsum (map g l).
Proof.
  induction l as [|x l IH]; intro H; simpl.
  - apply Qle_refl.
  - apply Qplus_le_compat.
    + apply H. left. reflexivity.
    + apply IH. intros y Hy. apply H. right. exact Hy.
Qed.

Lemma pair_sum_unfold (n : nat) (f : nat -> nat -> Q) :
  pair_sum n f ==
  Qsum (map (fun i => Qsum (map (f i) (range (i + 1) n))) (range 0 n)).
Proof.
  unfold pair_sum, pairs. rewrite Qsum_flat_map.
  apply Qsum_ext. intros i _. rewrite map_map. reflexivity.
Qed.

Lemma in_range (a b x : nat) : In x (range a b) <-> (a <= x < b)%nat.
Proof. unfold range. rewrite in_seq. lia. Qed.

Lemma in_pairs (n i j : nat) : In (i, j) (pairs n) <-> (i < j < n)%nat.
Proof.
  unfold pairs. rewrite in_flat_map. split.
  - intros [k [Hk Hin]]. apply in_map_iff in Hin.
    destruct Hin as [j' [Heq Hj']]. inversion Heq; subst.
    apply in_range in Hk. apply in_range in Hj'. lia.
  - intros H. exists i. split.
    + apply in_range. lia.
    + apply in_map. apply in_range. lia.
Qed.

Lemma NoDup_flat_pairs (g : nat -> list nat) :
  (forall i, NoDup (g i)) ->
  forall len s, NoDup (flat_map (fun i => map (pair i) (g i)) (seq s len)).
Proof.
  intros Hg len. induction len as [|len IH]; intro s; simpl.
  - constructor.
  - apply NoDup_app.
    + apply Finite.Injective_map_NoDup.
      * intros x y Heq. inversion Heq. reflexivity.
      * apply Hg.
    + apply IH.
    + intros [a b] Hin1 Hin2.
      apply in_map_iff in Hin1. destruct Hin1 as [b' [Heq _]].
      inversion Heq; subst.
      apply in_flat_map in Hin2. destruct Hin2 as [k [Hk Hin2]].
      apply in_map_iff in Hin2. destruct Hin2 as [b'' [Heq2 _]].
      inversion Heq2; subst. apply in_seq in Hk. lia.
Qed.

Lemma NoDup_pairs (n : nat) : NoDup (pairs n).
Proof.
  unfold pairs. unfold range at 2. apply NoDup_flat_pairs.
  intro i. apply seq_NoDup.
Qed.

Lemma pair_sum_ext (n : nat) (f g : nat -> nat -> Q) :
  (forall i j, (i < j < n)%nat -> f i j == g i j) ->
  pair_sum n f == pair_sum n g.
Proof.
  intro H. unfold pair_sum. apply Qsum_ext.
  intros [i j] Hin. simpl. apply H. apply in_pairs. exact Hin.
Qed.

Lemma pair_sum_le (n : nat) (f g : nat -> nat -> Q) :
  (forall i j, (i < j < n)%nat -> f i j <= g i j) ->
  pair_sum n f <= pair_sum n g.
Proof.
  intro H. unfold pair_sum. apply Qsum_le.
  intros [i j] Hin. simpl. apply H. apply in_pairs. exact Hin.
Qed.

(** ** Loops *)

Lemma for_range_sum (xs : list nat) (body : nat -> Q -> result Q)
    (f : nat -> Q) :
  (forall x acc, In x xs -> exists v, body x acc = Ok v /\ v == acc + f x) ->
  forall acc, exists v,
    for_range xs body acc = Ok v /\ v == acc + Qsum (map f xs).
Proof.
  induction xs as [|x xs IH]; intros Hbody acc; simpl.
  - exists acc. split; [reflexivity | ring].
  - destruct (Hbody x acc (or_introl eq_refl)) as [v [Hv Hveq]].
    rewrite Hv. simpl.
    destruct (IH (fun y a Hy => Hbody y a (or_intror Hy)) v) as [w [Hw Hweq]].
    exists w. split; [exact Hw |]. rewrite Hweq, Hveq. ring.
Qed.

(** ** Array lookups and shapes *)

Lemma getitem_nth (a : list Q) (i : nat) :
  (i < length a)%nat -> getitem a i = Ok (nth i a 0).
Proof.
  intro H. unfold getitem.
  rewrite (nth_error_nth' a 0 H). reflexivity.
Qed.

Lemma getitem_out (a : list Q) (i : nat) :
  (length a <= i)%nat -> getitem a i = Raise IndexError.
Proof.
  intro H. unfold getitem.
  apply nth_error_None in H. rewrite H. reflexivity.
Qed.

Lemma shape2_row (r c : nat) (M : list (list Q)) (i : nat) :
  shape2 r c M -> (i < r)%nat -> length (nth i M []) = c.
Proof.
  intros [Hr Hc] Hi. rewrite Forall_forall in Hc.
  apply Hc. apply nth_In. lia.
Qed.

Lemma getitem2_entry (r c : nat) (M : list (list Q)) (i j : nat) :
  shape2 r c M -> (i < r)%nat -> (j < c)%nat ->
  getitem2 M i j = Ok (entry M i j).
Proof.
  intros HM Hi Hj. unfold getitem2, entry.
  assert (Hlen : (i < length M)%nat) by (destruct HM; lia).
  rewrite (nth_error_nth' M [] Hlen).
  apply getitem_nth. rewrite (shape2_row r c M i HM Hi). exact Hj.
Qed.

Lemma broadcast_same (op : Q -> Q -> Q) (a b : list Q) :
  length a = length b ->
  broadcast op a b = Ok (map (fun p => op (fst p) (snd p)) (combine a b)).
Proof.
  intro H. unfold broadcast.
  rewrite (proj2 (Nat.eqb_eq _ _) H). reflexivity.
Qed.

Lemma gravities_zip (eps : Q) (L V R : list Q) :
  length V = length L -> length R = length L ->
  map (fun p => fst p / snd p)
      (combine (map (fun p => fst p * snd p)
                    (combine (map (fun l => l ^ 2) L) V))
               (map (fun r => r + eps) R))
  = gravities L V R eps.
Proof.
  unfold gravities. revert V R.
  induction L as [|l L IH]; intros [|v V] [|r R] HV HR;
    simpl in *; try discriminate; try reflexivity.
  f_equal. rewrite <- seq_shift, map_map. apply IH; congruence.
Qed.

Lemma compute_individual_gravity_ok (L V R : list Q) (eps : Q) :
  length V = length L -> length R = length L ->
  compute_individual_gravity L V R eps = Ok (gravities L V R eps).
Proof.
  intros HV HR. unfold compute_individual_gravity.
  rewrite broadcast_same by (rewrite length_map; congruence).
  simpl. rewrite broadcast_same.
  - rewrite gravities_zip by assumption. reflexivity.
  - rewrite !length_map, length_combine, length_map. lia.
Qed.

Lemma gravities_length (L V R : list Q) (eps : Q) :
  length (gravities L V R eps) = length L.
Proof. unfold gravities. rewrite length_map, length_seq. reflexivity. Qed.

Lemma gravities_nth (L V R : list Q) (eps : Q) (i : nat) :
  (i < length L)%nat ->
  nth i (gravities L V R eps) 0
  = gravity (nth i L 0) (nth i V 0) (nth i R 0) eps.
Proof.
  intro Hi. unfold gravities.
  rewrite (nth_indep _ 0 (gravity (nth 0 L 0) (nth 0 V 0) (nth 0 R 0) eps))
    by (rewrite length_map, length_seq; exact Hi).
  rewrite (map_nth (fun i => gravity (nth i L 0) (nth i V 0) (nth i R 0) eps)
             (seq 0 (length L)) 0%nat i).
  rewrite seq_nth by exact Hi. reflexivity.
Qed.

(** ** The binding-energy loop *)

Lemma K_loop_lookups (n : nat) (g : list Q) (Sm : list (list Q)) (kappa : Q) :
  length g = n ->
  (forall i j, (i < j < n)%nat -> getitem2 Sm i j = Ok (entry Sm i j)) ->
  exists K,
    for_range (range 0 n) (fun i K =>
      for_range (range (i + 1) n) (fun j K =>
        Gi <- getitem g i ;;
        Gj <- getitem g j ;;
        Sij <- getitem2 Sm i j ;;
        Ok (K + kappa * Gi * Gj * Sij)) K) 0 = Ok K
    /\ K == K_spec n g Sm kappa.
Proof.
  intros Hg HS.
  destruct (for_range_sum (range 0 n)
    (fun i K =>
      for_range (range (i + 1) n) (fun j K =>
        Gi <- getitem g i ;;
        Gj <- getitem g j ;;
        Sij <- getitem2 Sm i j ;;
        Ok (K + kappa * Gi * Gj * Sij)) K)
    (fun i => Qsum (map (fun j => kappa * nth i g 0 * nth j g 0 * entry Sm i j)
                        (range (i + 1) n)))) with (acc := 0) as [K [HK HKeq]].
  - intros i acc Hi. apply in_range in Hi.
    apply for_range_sum. intros j a Hj. apply in_range in Hj.
    rewrite (getitem_nth g i) by lia. simpl.
    rewrite (getitem_nth g j) by lia. simpl.
    rewrite (HS i j) by lia. simpl.
    eexists. split; [reflexivity | reflexivity].
  - exists K. split; [exact HK |].
    rewrite HKeq. unfold K_spec. rewrite pair_sum_unfold. ring.
Qed.

Lemma K_loop_ok (n : nat) (g : list Q) (Sm : list (list Q)) (kappa : Q) :
  length g = n -> shape2 n n Sm ->
  exists K,
    for_range (range 0 n) (fun i K =>
      for_range (range (i + 1) n) (fun j K =>
        Gi <- getitem g i ;;
        Gj <- getitem g j ;;
        Sij <- getitem2 Sm i j ;;
        Ok (K + kappa * Gi * Gj * Sij)) K) 0 = Ok K
    /\ K == K_spec n g Sm kappa.
Proof.
  intros Hg HS. apply K_loop_lookups; [exact Hg |].
  intros i j Hij. apply (getitem2_entry n n); [exact HS | lia | lia].
Qed.

(** ** The upper triangle *)

Lemma mapi_from_seq {A B : Type} (f : nat -> A -> B) (d : A) (l : list A)
    (k : nat) :
  mapi_from f k l = map (fun i => f (k + i)%nat (nth i l d)) (seq 0 (length l)).
Proof.
  revert k. induction l as [|x l IH]; intro k; simpl.
  - reflexivity.
  - rewrite Nat.add_0_r. f_equal.
    rewrite IH, <- seq_shift, map_map.
    apply map_ext. intro i. rewrite Nat.add_succ_r. reflexivity.
Qed.

Lemma ndsum2_rows (M : list (list Q)) : ndsum2 M == Qsum (map Qsum M).
Proof. unfold ndsum2. rewrite ndsum_Qsum. apply Qsum_concat. Qed.

Lemma Qsum_masked (h : nat -> Q) (k n : nat) :
  Qsum (map (fun j => if (k <=? j)%nat then h j else 0) (seq 0 n))
  == Qsum (map h (range k n)).
Proof.
  unfold range.
  replace n with (Nat.min k n + (n - Nat.min k n))%nat at 1 by lia.
  rewrite seq_app, map_app, Qsum_app. simpl.
  rewrite Qsum_zero.
  - destruct (Nat.le_gt_cases k n) as [Hle | Hgt].
    + rewrite (Nat.min_l k n Hle). rewrite Qplus_0_l.
      apply Qsum_ext. intros j Hj. apply in_seq in Hj.
      destruct (Nat.leb_spec k j); [reflexivity | lia].
    + replace (n - Nat.min k n)%nat with 0%nat by lia.
      replace (n - k)%nat with 0%nat by lia. simpl. ring.
  - intros j Hj. apply in_seq in Hj.
    destruct (Nat.leb_spec k j); [lia | reflexivity].
Qed.

Lemma entry_rsub2 (c : Q) (M : list (list Q)) (n i j : nat) :
  shape2 n n M -> (i < n)%nat -> (j < n)%nat ->
  entry (rsub2 c M) i j = c - entry M i j.
Proof.
  intros HM Hi Hj. unfold entry, rsub2.
  assert (Hlen : length M = n) by (destruct HM; assumption).
  rewrite (nth_indep _ [] (map (fun x => c - x) []))
    by (rewrite length_map; lia).
  rewrite (map_nth (map (fun x => c - x)) M [] i).
  rewrite (nth_indep _ 0 (c - 0))
    by (rewrite length_map, (shape2_row n n M i HM Hi); exact Hj).
  apply (map_nth (fun x => c - x)).
Qed.

Lemma shape2_rsub2 (c : Q) (M : list (list Q)) (r k : nat) :
  shape2 r k M -> shape2 r k (rsub2 c M).
Proof.
  intros [Hr Hc]. unfold rsub2. split.
  - rewrite length_map. exact Hr.
  - rewrite Forall_map. rewrite Forall_forall in *.
    intros row Hrow. rewrite length_map. apply Hc. exact Hrow.
Qed.

Lemma triu_sum (n : nat) (M : list (list Q)) :
  shape2 n n M ->
  ndsum2 (triu M 1) == pair_sum n (entry M).
Proof.
  intro HM. assert (Hlen : length M = n) by (destruct HM; assumption).
  rewrite ndsum2_rows, pair_sum_unfold. unfold triu.
  rewrite (mapi_from_seq _ [] M 0), map_map, Hlen.
  unfold range at 2. rewrite Nat.sub_0_r.
  apply Qsum_ext. intros i Hi. apply in_seq in Hi. simpl.
  rewrite (mapi_from_seq _ 0 (nth i M []) 0).
  rewrite (shape2_row n n M i HM) by lia. simpl.
  apply (Qsum_masked (fun j => nth j (nth i M []) 0) (i + 1) n).
Qed.

Lemma misalignment_spec (n : nat) (Sm : list (list Q)) :
  shape2 n n Sm ->
  ndsum2 (triu (rsub2 1 Sm) 1) == pair_sum n (fun i j => 1 - entry Sm i j).
Proof.
  intro HS. rewrite (triu_sum n) by (apply shape2_rsub2; exact HS).
  apply pair_sum_ext. intros i j Hij.
  rewrite (entry_rsub2 1 Sm n i j HS) by lia. reflexivity.
Qed.

(** ** The evaluator on a well-shaped snapshot *)

Lemma analyze_team_state_ok (n : nat) (L V R : list Q) (Sm : list (list Q))
    (kappa eps : Q) :
  snapshot n L V R Sm ->
  exists m,
    analyze_team_state L V R Sm kappa eps = Ok m
    /\ G m = gravities L V R eps
    /\ K_team m == K_spec n (gravities L V R eps) Sm kappa
    /\ D_team m == D_spec n R Sm
    /\ Margin m = K_team m - D_team m
    /\ Is_Stable m = Qgtb (K_team m) (D_team m).
Proof.
  intros (HL & HV & HR & HS). unfold analyze_team_state.
  rewrite compute_individual_gravity_ok by congruence. simpl.
  destruct (K_loop_ok n (gravities L V R eps) Sm kappa) as [K [HK HKeq]].
  - rewrite gravities_length. exact HL.
  - exact HS.
  - rewrite HL, HK. simpl. eexists. split; [reflexivity |]. simpl.
    repeat split; try reflexivity.
    + exact HKeq.
    + unfold D_spec. rewrite ndsum_Qsum, (misalignment_spec n Sm HS).
      reflexivity.
Qed.

Lemma example_snapshot : snapshot 4 example_L example_V example_R example_S.
Proof.
  unfold snapshot, shape2. repeat split; repeat constructor.
Qed.

(** ** C1: what the evaluator returns *)

(** C1. On every snapshot of [n] nodes the evaluator returns: the gravity
    [L[i]^2 * V[i] / (R[i] + eps)] of every node; [K], the sum of
    [kappa * G[i] * G[j] * S[i][j]] over the pairs [i < j]; [D], the sum of
    [R] plus the sum of [1 - S[i][j]] over the same pairs; [Margin = K - D];
    and a flag that is true exactly when [Margin > 0], so that a margin of
    zero is unstable.  The pairs are listed without repetition and are
    exactly the [i < j < n]. *)
Theorem analyze_team_state_spec (n : nat) (L V R : list Q)
    (Sm : list (list Q)) (kappa eps : Q) :
  snapshot n L V R Sm ->
  exists m,
    analyze_team_state L V R Sm kappa eps = Ok m
    /\ length (G m) = n
    /\ (forall i, (i < n)%nat ->
          nth i (G m) 0 == (nth i L 0) ^ 2 * nth i V 0 / (nth i R 0 + eps))
    /\ K_team m ==
         Qsum (map (fun ij => kappa * nth (fst ij) (G m) 0
                              * nth (snd ij) (G m) 0
                              * entry Sm (fst ij) (snd ij))
                   (pairs n))
    /\ D_team m ==
         Qsum R + Qsum (map (fun ij => 1 - entry Sm (fst ij) (snd ij))
                            (pairs n))
    /\ Margin m == K_team m - D_team m
    /\ (Is_Stable m = true <-> 0 < Margin m)
    /\ (Margin m == 0 -> Is_Stable m = false)
    /\ NoDup (pairs n)
    /\ (forall i j, In (i, j) (pairs n) <-> (i < j < n)%nat).
Proof.
  intro Hsnap.
  destruct (analyze_team_state_ok n L V R Sm kappa eps Hsnap)
    as (m & Hm & HG & HK & HD & HM & HS).
  destruct Hsnap as (HL & _).
  assert (Hflag : Is_Stable m = true <-> 0 < Margin m).
  { rewrite HS, HM, Qgtb_gt. split; intro H; lra. }
  exists m. split; [exact Hm |].
  split; [rewrite HG, gravities_length; exact HL |].
  split.
  { intros i Hi. rewrite HG, gravities_nth by lia. reflexivity. }
  split; [rewrite HK, HG; reflexivity |].
  split; [rewrite HD; reflexivity |].
  split; [rewrite HM; reflexivity |].
  split; [exact Hflag |].
  split.
  { intro H0. apply not_true_is_false. intro Ht.
    apply Hflag in Ht. lra. }
  split; [apply NoDup_pairs | intros i j; apply in_pairs].
Qed.

Lemma analyze_team_state_spec_witness :
  snapshot 4 example_L example_V example_R example_S
  /\ exists m,
       analyze_team_state example_L example_V example_R example_S
         default_kappa default_eps = Ok m
       /\ length (G m) = 4%nat
       /\ Margin m == K_team m - D_team m
       /\ (Is_Stable m = true <-> 0 < Margin m).
Proof.
  split.
  - unfold snapshot, shape2. repeat split; repeat constructor.
  - destruct (analyze_team_state_spec 4 example_L example_V example_R
                example_S default_kappa default_eps)
      as (m & Hm & Hlen & _ & _ & _ & HM & Hflag & _).
    + unfold snapshot, shape2. repeat split; repeat constructor.
    + exists m. repeat split; try assumption; apply Hflag.
Defined.

(** ** C10: only the strict upper triangle of S is read *)

Lemma Qgtb_compat (x x' y y' : Q) :
  x == x' -> y == y' -> Qgtb x y = Qgtb x' y'.
Proof.
  intros Hx Hy. unfold Qgtb, Qltb. rewrite Hx, Hy. reflexivity.
Qed.

(** C10. Two [n]-by-[n] matrices that agree on every entry [i < j] give,
    with the same [L], [V], [R], [kappa] and [eps], the same [G], [K], [D],
    [Margin] and stability flag: the diagonal and the lower triangle are
    never read. *)
Theorem analyze_team_state_upper_triangle (n : nat) (L V R : list Q)
    (S1 S2 : list (list Q)) (kappa eps : Q) :
  snapshot n L V R S1 ->
  shape2 n n S2 ->
  (forall i j, (i < j < n)%nat -> entry S1 i j == entry S2 i j) ->
  exists m1 m2,
    analyze_team_state L V R S1 kappa eps = Ok m1
    /\ analyze_team_state L V R S2 kappa eps = Ok m2
    /\ G m1 = G m2
    /\ K_team m1 == K_team m2
    /\ D_team m1 == D_team m2
    /\ Margin m1 == Margin m2
    /\ Is_Stable m1 = Is_Stable m2.
Proof.
  intros Hsnap1 HS2 Hup.
  assert (Hsnap2 : snapshot n L V R S2).
  { destruct Hsnap1 as (HL & HV & HR & _).
    split; [| split; [| split]]; assumption. }
  destruct (analyze_team_state_ok n L V R S1 kappa eps Hsnap1)
    as (m1 & Hm1 & HG1 & HK1 & HD1 & HM1 & HF1).
  destruct (analyze_team_state_ok n L V R S2 kappa eps Hsnap2)
    as (m2 & Hm2 & HG2 & HK2 & HD2 & HM2 & HF2).
  assert (HK : K_team m1 == K_team m2).
  { rewrite HK1, HK2. unfold K_spec. apply pair_sum_ext.
    intros i j Hij. rewrite (Hup i j Hij). reflexivity. }
  assert (HD : D_team m1 == D_team m2).
  { rewrite HD1, HD2. unfold D_spec.
    apply Qplus_comp; [reflexivity |]. apply pair_sum_ext.
    intros i j Hij. rewrite (Hup i j Hij). reflexivity. }
  exists m1, m2. repeat split; try assumption.
  - congruence.
  - rewrite HM1, HM2, HK, HD. reflexivity.
  - rewrite HF1, HF2. apply Qgtb_compat; assumption.
Qed.

Lemma example_S_upper (i j : nat) :
  (i < j < 4)%nat -> entry example_S i j == entry example_S_sym i j.
Proof.
  intro Hij.
  do 4 (destruct i as [|i];
        [ do 4 (destruct j as [|j]; [try lia; reflexivity |]); lia |]).
  lia.
Qed.

Lemma analyze_team_state_upper_triangle_witness :
  snapshot 4 example_L example_V example_R example_S
  /\ shape2 4 4 example_S_sym
  /\ exists m1 m2,
       analyze_team_state example_L example_V example_R example_S
         default_kappa default_eps = Ok m1
       /\ analyze_team_state example_L example_V example_R example_S_sym
            default_kappa default_eps = Ok m2
       /\ Margin m1 == Margin m2
       /\ Is_Stable m1 = Is_Stable m2.
Proof.
  assert (H1 : snapshot 4 example_L example_V example_R example_S)
    by (unfold snapshot, shape2; repeat split; repeat constructor).
  assert (H2 : shape2 4 4 example_S_sym)
    by (unfold shape2; repeat split; repeat constructor).
  split; [exact H1 |]. split; [exact H2 |].
  destruct (analyze_team_state_upper_triangle 4 example_L example_V example_R
              example_S example_S_sym default_kappa default_eps H1 H2
              example_S_upper)
    as (m1 & m2 & E1 & E2 & _ & _ & _ & HM & HF).
  exists m1, m2. repeat split; assumption.
Defined.

(** ** C3: what happens on mismatched shapes *)

Lemma for_range_Ok_inv {St : Type} (xs : list nat)
    (body : nat -> St -> result St) :
  forall s v, for_range xs body s = Ok v ->
  forall x, In x xs -> exists s' v', body x s' = Ok v'.
Proof.
  induction xs as [|y xs IH]; intros s v H x Hin; simpl in *.
  - contradiction.
  - destruct (body y s) as [s1 | e] eqn:Hy; simpl in H; [| discriminate].
    destruct Hin as [-> | Hin].
    + exists s, s1. exact Hy.
    + apply (IH s1 v H x Hin).
Qed.

Lemma for_range_raises {St : Type} (xs : list nat)
    (body : nat -> St -> result St) (P : exn -> Prop) :
  (forall x s e, In x xs -> body x s = Raise e -> P e) ->
  forall s e, for_range xs body s = Raise e -> P e.
Proof.
  induction xs as [|y xs IH]; intros Hbody s e H; simpl in *.
  - discriminate.
  - destruct (body y s) as [s1 | e1] eqn:Hy; simpl in H.
    + apply (IH (fun x s' e' Hx => Hbody x s' e' (or_intror Hx)) s1 e H).
    + inversion H; subst. apply (Hbody y s e (or_introl eq_refl) Hy).
Qed.

Lemma getitem_raises (a : list Q) (i : nat) (e : exn) :
  getitem a i = Raise e -> e = IndexError.
Proof.
  unfold getitem. destruct (nth_error a i); intro H; inversion H; reflexivity.
Qed.

Lemma getitem2_raises (M : list (list Q)) (i j : nat) (e : exn) :
  getitem2 M i j = Raise e -> e = IndexError.
Proof.
  unfold getitem2. destruct (nth_error M i) as [row |]; intro H.
  - apply (getitem_raises row j e H).
  - inversion H; reflexivity.
Qed.

Lemma getitem2_out (r c : nat) (M : list (list Q)) (i j : nat) :
  shape2 r c M -> (r <= i \/ c <= j)%nat ->
  getitem2 M i j = Raise IndexError.
Proof.
  intros [Hr Hc] Hout. unfold getitem2.
  destruct (nth_error M i) as [row |] eqn:Hrow; [| reflexivity].
  assert (Hi : (i < r)%nat).
  { rewrite <- Hr. apply nth_error_Some. congruence. }
  apply getitem_out. rewrite Forall_forall in Hc.
  rewrite (Hc row (nth_error_In M i Hrow)). lia.
Qed.

Lemma broadcast_mismatch (op : Q -> Q -> Q) (a b : list Q) :
  length a <> length b -> length a <> 1%nat -> length b <> 1%nat ->
  broadcast op a b = Raise ValueError.
Proof.
  intros Hab Ha Hb. unfold broadcast.
  rewrite (proj2 (Nat.eqb_neq _ _) Hab).
  destruct a as [|x [|x' a]]; destruct b as [|y [|y' b]];
    simpl in *; try reflexivity; congruence.
Qed.

Lemma K_loop_out (n r c : nat) (g : list Q) (Sm : list (list Q)) (kappa : Q) :
  length g = n -> shape2 r c Sm ->
  (2 <= n)%nat -> (r < n - 1 \/ c < n)%nat ->
  for_range (range 0 n) (fun i K =>
    for_range (range (i + 1) n) (fun j K =>
      Gi <- getitem g i ;;
      Gj <- getitem g j ;;
      Sij <- getitem2 Sm i j ;;
      Ok (K + kappa * Gi * Gj * Sij)) K) 0 = Raise IndexError.
Proof.
  intros Hg HS Hn Hout.
  assert (Hbad : exists i0 j0, (i0 < j0 < n)%nat
                               /\ getitem2 Sm i0 j0 = Raise IndexError).
  { destruct Hout as [Hr | Hc].
    - exists r, (r + 1)%nat. split; [lia |].
      apply (getitem2_out r c); [exact HS | lia].
    - exists 0%nat, (n - 1)%nat. split; [lia |].
      apply (getitem2_out r c); [exact HS | lia]. }
  destruct Hbad as (i0 & j0 & Hij & Hlook).
  match goal with |- ?lhs = _ => destruct lhs as [K | e] eqn:Hloop end.
  - exfalso.
    destruct (for_range_Ok_inv _ _ _ _ Hloop i0) as (s1 & v1 & Hinner).
    { apply in_range. lia. }
    destruct (for_range_Ok_inv _ _ _ _ Hinner j0) as (s2 & v2 & Hbody).
    { apply in_range. lia. }
    rewrite (getitem_nth g i0) in Hbody by lia. simpl in Hbody.
    rewrite (getitem_nth g j0) in Hbody by lia. simpl in Hbody.
    rewrite Hlook in Hbody. simpl in Hbody. discriminate.
  - f_equal.
    apply (for_range_raises _ _ (fun e => e = IndexError)) in Hloop;
      [exact Hloop |].
    intros i s e' _ Hinner.
    apply (for_range_raises _ _ (fun e => e = IndexError)) in Hinner;
      [exact Hinner |].
    intros j s' e'' _ Hbody.
    destruct (getitem g i) as [Gi | e1] eqn:E1; simpl in Hbody;
      [| inversion Hbody; subst; apply (getitem_raises _ _ _ E1)].
    destruct (getitem g j) as [Gj | e2] eqn:E2; simpl in Hbody;
      [| inversion Hbody; subst; apply (getitem_raises _ _ _ E2)].
    destruct (getitem2 Sm i j) as [Sij | e3] eqn:E3; simpl in Hbody;
      [discriminate | inversion Hbody; subst; apply (getitem2_raises _ _ _ _ E3)].
Qed.

(** C3, as stated, fails: no shape is checked.  Two nodes with a 3-by-3
    matrix are evaluated ([K] from the leading pair, [D] from the whole
    upper triangle), and a [V] of length one is broadcast over two nodes. *)
Lemma analyze_team_state_accepts_mismatch :
  (~ exists n, snapshot n [1; 1] [1; 1] [1; 1] oversized_S)
  /\ (exists m,
        analyze_team_state [1; 1] [1; 1] [1; 1] oversized_S
          default_kappa default_eps = Ok m
        /\ D_team m == 2 + 3 * (1 # 2))
  /\ (~ exists n, snapshot n [1; 2] [3] [1; 1] two_by_two_S)
  /\ (exists m,
        analyze_team_state [1; 2] [3] [1; 1] two_by_two_S
          default_kappa default_eps = Ok m
        /\ length (G m) = 2%nat).
Proof.
  split; [| split; [| split]].
  - intros [n (HL & _ & _ & HS & _)]. simpl in HL, HS. congruence.
  - eexists. split; [vm_compute; reflexivity | vm_compute; reflexivity].
  - intros [n (HL & HV & _)]. simpl in HL, HV. congruence.
  - eexists. split; [vm_compute; reflexivity | vm_compute; reflexivity].
Qed.

(** C3, amended.  The evaluator has no shape check of its own; what fails
    is what numpy refuses.  With [L] of length [n] and [S] of [r] rows and
    [c] columns:
    - a [V] whose length is neither [n] nor one (with [n] not one), and
      likewise an [R], fails with [ValueError];
    - with [V] and [R] of length [n >= 2], an [S] with fewer than [n - 1]
      rows or fewer than [n] columns fails with [IndexError];
    - with [V] and [R] of length [n], any other [S] -- larger than
      [n]-by-[n] included -- is accepted and [K] is summed over the pairs
      [i < j < n]. *)
Theorem analyze_team_state_shapes (n r c : nat) (L V R : list Q)
    (Sm : list (list Q)) (kappa eps : Q) :
  length L = n -> shape2 r c Sm ->
  (length V <> n -> n <> 1%nat -> length V <> 1%nat ->
   analyze_team_state L V R Sm kappa eps = Raise ValueError)
  /\ (length V = n -> length R <> n -> n <> 1%nat -> length R <> 1%nat ->
      analyze_team_state L V R Sm kappa eps = Raise ValueError)
  /\ (length V = n -> length R = n ->
      (2 <= n)%nat -> (r < n - 1 \/ c < n)%nat ->
      analyze_team_state L V R Sm kappa eps = Raise IndexError)
  /\ (length V = n -> length R = n ->
      (n <= 1 \/ (n - 1 <= r /\ n <= c))%nat ->
      exists m,
        analyze_team_state L V R Sm kappa eps = Ok m
        /\ K_team m == K_spec n (gravities L V R eps) Sm kappa).
Proof.
  intros HL HS. split; [| split; [| split]].
  - intros HV Hn HV1. unfold analyze_team_state, compute_individual_gravity.
    rewrite broadcast_mismatch; [reflexivity | | |];
      rewrite ?length_map; congruence.
  - intros HV HR Hn HR1. unfold analyze_team_state, compute_individual_gravity.
    rewrite broadcast_same by (rewrite length_map; congruence). simpl.
    rewrite broadcast_mismatch; [reflexivity | | |];
      rewrite ?length_map, ?length_combine, ?length_map; try lia.
  - intros HV HR Hn Hout. unfold analyze_team_state.
    rewrite compute_individual_gravity_ok by congruence. simpl.
    rewrite HL, (K_loop_out n r c); try assumption.
    + reflexivity.
    + rewrite gravities_length. exact HL.
  - intros HV HR Hfit. unfold analyze_team_state.
    rewrite compute_individual_gravity_ok by congruence. simpl.
    destruct (K_loop_lookups n (gravities L V R eps) Sm kappa)
      as [K [HK HKeq]].
    + rewrite gravities_length. exact HL.
    + intros i j Hij. apply (getitem2_entry r c); [exact HS | lia | lia].
    + rewrite HL, HK. simpl. eexists. split; [reflexivity | exact HKeq].
Qed.

Lemma analyze_team_state_shapes_witness :
  length example_L = 4%nat /\ shape2 2 4 [ [0; 0; 0; 0]; [0; 0; 0; 0] ]
  /\ analyze_team_state example_L example_V example_R
       [ [0; 0; 0; 0]; [0; 0; 0; 0] ] default_kappa default_eps
     = Raise IndexError.
Proof.
  assert (HS : shape2 2 4 [ [0; 0; 0; 0]; [0; 0; 0; 0] ])
    by (unfold shape2; split; [reflexivity | repeat constructor]).
  split; [reflexivity |]. split; [exact HS |].
  apply (analyze_team_state_shapes 4 2 4 example_L example_V example_R
           [ [0; 0; 0; 0]; [0; 0; 0; 0] ] default_kappa default_eps
           eq_refl HS).
  - reflexivity.
  - reflexivity.
  - simpl. lia.
  - left. simpl. lia.
Defined.

(** ** Elementwise operations, comprehensions, pure loops *)

Lemma nth_zip (op : Q -> Q -> Q) (a b : list Q) (i : nat) :
  length a = length b -> (i < length a)%nat ->
  nth i (map (fun p => op (fst p) (snd p)) (combine a b)) 0
  = op (nth i a 0) (nth i b 0).
Proof.
  revert b i. induction a as [|x a IH]; intros [|y b] i Hlen Hi;
    simpl in *; try lia.
  destruct i as [|i]; [reflexivity |]. apply IH; lia.
Qed.

Lemma length_zip (op : Q -> Q -> Q) (a b : list Q) :
  length a = length b ->
  length (map (fun p => op (fst p) (snd p)) (combine a b)) = length a.
Proof. intro H. rewrite length_map, length_combine. lia. Qed.

Lemma nth_map_Q (f : Q -> Q) (a : list Q) (i : nat) :
  (i < length a)%nat -> nth i (map f a) 0 = f (nth i a 0).
Proof.
  intro Hi. rewrite (nth_indep _ 0 (f 0)) by (rewrite length_map; exact Hi).
  apply map_nth.
Qed.

Lemma list_comp_ok (xs : list nat) (f : nat -> result Q) (g : nat -> Q) :
  (forall x, In x xs -> exists v, f x = Ok v /\ v == g x) ->
  exists vs,
    list_comp xs f = Ok vs
    /\ length vs = length xs
    /\ forall k, (k < length xs)%nat -> nth k vs 0 == g (nth k xs 0%nat).
Proof.
  induction xs as [|x xs IH]; intro H; simpl.
  - exists []. repeat split. intros k Hk. simpl in Hk. lia.
  - destruct (H x (or_introl eq_refl)) as [v [Hv Hveq]]. rewrite Hv. simpl.
    destruct (IH (fun y Hy => H y (or_intror Hy))) as (vs & Hvs & Hlen & Hnth).
    rewrite Hvs. simpl. exists (v :: vs). repeat split.
    + simpl. congruence.
    + intros [|k] Hk; simpl; [exact Hveq | apply Hnth; simpl in Hk; lia].
Qed.

Lemma for_range_pure {St : Type} (P : St -> Prop) (xs : list nat)
    (body : nat -> St -> result St) (f : nat -> St -> St) :
  (forall x s, In x xs -> P s -> body x s = Ok (f x s) /\ P (f x s)) ->
  forall s, P s ->
    for_range xs body s = Ok (fold_left (fun s x => f x s) xs s)
    /\ P (fold_left (fun s x => f x s) xs s).
Proof.
  induction xs as [|x xs IH]; intros H s Hs; simpl.
  - split; [reflexivity | exact Hs].
  - destruct (H x s (or_introl eq_refl) Hs) as [Hb HP]. rewrite Hb. simpl.
    apply IH; [| exact HP].
    intros y s' Hy. apply H. right. exact Hy.
Qed.

Lemma fold_left_flat_map {A B St : Type} (f : St -> B -> St)
    (g : A -> list B) (l : list A) (s : St) :
  fold_left f (flat_map g l) s
  = fold_left (fun s a => fold_left f (g a) s) l s.
Proof.
  revert s. induction l as [|a l IH]; intro s; simpl.
  - reflexivity.
  - rewrite fold_left_app. apply IH.
Qed.

(** ** Updating one entry of a matrix *)

Lemma nth_update {A : Type} (l : list A) (i a : nat) (x d : A) :
  (i < length l)%nat ->
  nth a (firstn i l ++ x :: skipn (i + 1) l) d
  = if (a =? i)%nat then x else nth a l d.
Proof.
  revert i a. induction l as [|y l IH]; intros i a Hi; simpl in Hi; [lia |].
  destruct i as [|i]; simpl.
  - destruct a; reflexivity.
  - destruct a as [|a]; [reflexivity |]. simpl. apply IH. lia.
Qed.

Lemma length_update {A : Type} (l : list A) (i : nat) (x : A) :
  (i < length l)%nat ->
  length (firstn i l ++ x :: skipn (i + 1) l) = length l.
Proof.
  intro Hi. rewrite length_app. simpl.
  rewrite length_firstn, length_skipn. lia.
Qed.

Lemma In_firstn {A : Type} (k : nat) (l : list A) (x : A) :
  In x (firstn k l) -> In x l.
Proof.
  intro H. rewrite <- (firstn_skipn k l). apply in_or_app. left. exact H.
Qed.

Lemma In_skipn {A : Type} (k : nat) (l : list A) (x : A) :
  In x (skipn k l) -> In x l.
Proof.
  intro H. rewrite <- (firstn_skipn k l). apply in_or_app. right. exact H.
Qed.

Lemma setitem2_set2 (n : nat) (M : list (list Q)) (i j : nat) (v : Q) :
  shape2 n n M -> (i < n)%nat -> (j < n)%nat ->
  setitem2 M i j v = Ok (set2 M i j v).
Proof.
  intros HM Hi Hj. unfold setitem2, set2.
  assert (Hlen : (i < length M)%nat) by (destruct HM; lia).
  rewrite (nth_error_nth' M [] Hlen).
  rewrite (shape2_row n n M i HM Hi).
  rewrite (proj2 (Nat.ltb_lt j n) Hj). reflexivity.
Qed.

Lemma shape2_set2 (n : nat) (M : list (list Q)) (i j : nat) (v : Q) :
  shape2 n n M -> (i < n)%nat -> (j < n)%nat -> shape2 n n (set2 M i j v).
Proof.
  intros HM Hi Hj. pose proof (shape2_row n n M i HM Hi) as Hrow.
  destruct HM as [Hr Hc]. unfold set2. split.
  - rewrite length_update; lia.
  - apply Forall_app. split; [| constructor].
    + apply Forall_forall. intros row Hin. rewrite Forall_forall in Hc.
      apply Hc. apply (In_firstn _ _ _ Hin).
    + rewrite length_update; lia.
    + apply Forall_forall. intros row Hin. rewrite Forall_forall in Hc.
      apply Hc. apply (In_skipn _ _ _ Hin).
Qed.

Lemma entry_set2 (n : nat) (M : list (list Q)) (i j a b : nat) (v : Q) :
  shape2 n n M -> (i < n)%nat -> (j < n)%nat ->
  entry (set2 M i j v) a b
  = if ((a =? i) && (b =? j))%nat%bool then v else entry M a b.
Proof.
  intros HM Hi Hj. pose proof (shape2_row n n M i HM Hi) as Hrow.
  unfold entry, set2.
  rewrite nth_update by (destruct HM; lia).
  destruct (Nat.eqb_spec a i) as [-> | Hne]; simpl; [| reflexivity].
  rewrite nth_update by lia.
  destruct (b =? j)%nat; reflexivity.
Qed.

(** ** The sensitivity analyzer on a well-shaped snapshot *)

Lemma fold_left_map {A B St : Type} (f : St -> B -> St) (h : A -> B)
    (l : list A) (s : St) :
  fold_left f (map h l) s = fold_left (fun s x => f s (h x)) l s.
Proof.
  revert s. induction l as [|x l IH]; intro s; simpl; [reflexivity | apply IH].
Qed.

Lemma fold_left_ext_in {A St : Type} (f f' : St -> A -> St) (l : list A) :
  (forall s x, In x l -> f s x = f' s x) ->
  forall s, fold_left f l s = fold_left f' l s.
Proof.
  induction l as [|x l IH]; intros H s; simpl; [reflexivity |].
  rewrite (H s x (or_introl eq_refl)).
  apply IH. intros s' y Hy. apply H. right. exact Hy.
Qed.

Lemma shape2_zeros_like (r c : nat) (M : list (list Q)) :
  shape2 r c M -> shape2 r c (zeros_like M).
Proof.
  intros [Hr Hc]. unfold zeros_like. split.
  - rewrite length_map. exact Hr.
  - rewrite Forall_map. rewrite Forall_forall in *.
    intros row Hrow. rewrite length_map. apply Hc. exact Hrow.
Qed.

Lemma entry_zeros_like (M : list (list Q)) (i j : nat) :
  entry (zeros_like M) i j = 0.
Proof.
  unfold entry, zeros_like.
  destruct (Nat.lt_ge_cases i (length M)) as [Hi | Hi].
  - rewrite (nth_indep _ [] (map (fun _ : Q => 0) []))
      by (rewrite length_map; exact Hi).
    rewrite (map_nth (map (fun _ : Q => 0)) M [] i).
    destruct (Nat.lt_ge_cases j (length (nth i M []))) as [Hj | Hj].
    + rewrite nth_map_Q by exact Hj. reflexivity.
    + apply nth_overflow. rewrite length_map. exact Hj.
  - rewrite (nth_overflow _ []) by (rewrite length_map; exact Hi).
    destruct j; reflexivity.
Qed.

Lemma shape2_dM_dS_step (n : nat) (g : list Q) (kappa : Q)
    (M : list (list Q)) (i j : nat) :
  shape2 n n M -> (i < n)%nat -> (j < n)%nat ->
  shape2 n n (dM_dS_step g kappa M (i, j)).
Proof.
  intros HM Hi Hj. unfold dM_dS_step. simpl.
  apply shape2_set2; [apply shape2_set2 | |]; assumption.
Qed.

Lemma dM_dS_loop_ok (n : nat) (g : list Q) (kappa : Q) (M0 : list (list Q)) :
  length g = n -> shape2 n n M0 ->
  for_range (range 0 n) (fun i dM_dS =>
    for_range (range (i + 1) n) (fun j dM_dS =>
      Gi <- getitem g i ;;
      Gj <- getitem g j ;;
      let val := kappa * Gi * Gj + 1 in
      dM_dS <- setitem2 dM_dS i j val ;;
      setitem2 dM_dS j i val) dM_dS) M0
  = Ok (fold_left (dM_dS_step g kappa) (pairs n) M0)
  /\ shape2 n n (fold_left (dM_dS_step g kappa) (pairs n) M0).
Proof.
  intros Hg HM0.
  assert (Hfold :
    fold_left (dM_dS_step g kappa) (pairs n) M0
    = fold_left (fun s i =>
        fold_left (fun s j => dM_dS_step g kappa s (i, j)) (range (i + 1) n) s)
        (range 0 n) M0).
  { unfold pairs. rewrite fold_left_flat_map.
    apply fold_left_ext_in. intros s i _. apply fold_left_map. }
  rewrite Hfold.
  apply (for_range_pure (shape2 n n) (range 0 n) _
           (fun i s => fold_left (fun s j => dM_dS_step g kappa s (i, j))
                                 (range (i + 1) n) s));
    [| exact HM0].
  intros i s Hi Hs. apply in_range in Hi.
  apply (for_range_pure (shape2 n n) (range (i + 1) n) _
           (fun j s => dM_dS_step g kappa s (i, j))); [| exact Hs].
  intros j s' Hj Hs'. apply in_range in Hj.
  rewrite (getitem_nth g i) by lia. simpl.
  rewrite (getitem_nth g j) by lia. simpl.
  rewrite (setitem2_set2 n) by (try assumption; lia). simpl.
  rewrite (setitem2_set2 n) by (try apply shape2_set2; try assumption; lia).
  split; [reflexivity |]. apply shape2_dM_dS_step; [exact Hs' | lia | lia].
Qed.

Lemma dM_dS_fold_shape (n : nat) (g : list Q) (kappa : Q)
    (ps : list (nat * nat)) :
  (forall p, In p ps -> (fst p < n /\ snd p < n)%nat) ->
  forall M, shape2 n n M -> shape2 n n (fold_left (dM_dS_step g kappa) ps M).
Proof.
  induction ps as [|[i j] ps IH]; intros Hps M HM; simpl; [exact HM |].
  apply IH.
  - intros p Hp. apply Hps. right. exact Hp.
  - destruct (Hps (i, j) (or_introl eq_refl)) as [Hi Hj].
    apply shape2_dM_dS_step; assumption.
Qed.

Lemma dM_dS_fold_untouched (n : nat) (g : list Q) (kappa : Q)
    (ps : list (nat * nat)) (a b : nat) :
  (forall p, In p ps -> (fst p < n /\ snd p < n)%nat) ->
  ~ In (a, b) ps -> ~ In (b, a) ps ->
  forall M, shape2 n n M ->
    entry (fold_left (dM_dS_step g kappa) ps M) a b = entry M a b.
Proof.
  induction ps as [|[i j] ps IH]; intros Hps Hab Hba M HM; simpl;
    [reflexivity |].
  destruct (Hps (i, j) (or_introl eq_refl)) as [Hi Hj]. simpl in Hi, Hj.
  rewrite IH.
  - unfold dM_dS_step. simpl.
    rewrite (entry_set2 n) by (try apply shape2_set2; assumption).
    rewrite (entry_set2 n) by assumption.
    destruct (Nat.eqb_spec a j) as [-> | Haj];
      destruct (Nat.eqb_spec b i) as [-> | Hbi]; simpl.
    + exfalso. apply Hba. left. reflexivity.
    + destruct (Nat.eqb_spec j i) as [-> | Hji]; simpl; [| reflexivity].
      destruct (Nat.eqb_spec b i); [contradiction | reflexivity].
    + destruct (Nat.eqb_spec a i) as [-> | Hai]; simpl; [| reflexivity].
      destruct (Nat.eqb_spec i j) as [-> | Hij]; [contradiction | reflexivity].
    + destruct (Nat.eqb_spec a i) as [-> | Hai]; simpl; [| reflexivity].
      destruct (Nat.eqb_spec b j) as [-> | Hbj]; [| reflexivity].
      exfalso. apply Hab. left. reflexivity.
  - intros p Hp. apply Hps. right. exact Hp.
  - intro H. apply Hab. right. exact H.
  - intro H. apply Hba. right. exact H.
  - apply shape2_dM_dS_step; assumption.
Qed.

Lemma pair_eq_dec (p q : nat * nat) : {p = q} + {p <> q}.
Proof. decide equality; apply Nat.eq_dec. Qed.

Lemma dM_dS_fold_written (n : nat) (g : list Q) (kappa : Q)
    (ps : list (nat * nat)) (a b : nat) :
  (forall p, In p ps -> (fst p < snd p < n)%nat) ->
  In (a, b) ps ->
  forall M, shape2 n n M ->
    entry (fold_left (dM_dS_step g kappa) ps M) a b
    = kappa * nth a g 0 * nth b g 0 + 1
    /\ entry (fold_left (dM_dS_step g kappa) ps M) b a
       = kappa * nth a g 0 * nth b g 0 + 1.
Proof.
  induction ps as [|[i j] ps IH]; intros Hps Hin M HM; simpl;
    [contradiction |].
  destruct (Hps (i, j) (or_introl eq_refl)) as [Hij Hj]. simpl in Hij, Hj.
  assert (Hps' : forall p, In p ps -> (fst p < snd p < n)%nat)
    by (intros p Hp; apply Hps; right; exact Hp).
  assert (Hrange : forall p, In p ps -> (fst p < n /\ snd p < n)%nat)
    by (intros p Hp; specialize (Hps' p Hp); lia).
  assert (Hstep : shape2 n n (dM_dS_step g kappa M (i, j)))
    by (apply shape2_dM_dS_step; [exact HM | lia | lia]).
  destruct (in_dec pair_eq_dec (a, b) ps) as [Hin' | Hnot].
  - apply IH; assumption.
  - destruct Hin as [Heq | Hin]; [| contradiction].
    inversion Heq; subst i j.
    assert (Hnot' : ~ In (b, a) ps).
    { intro H. specialize (Hps' (b, a) H). simpl in Hps'. lia. }
    rewrite (dM_dS_fold_untouched n g kappa ps a b) by assumption.
    rewrite (dM_dS_fold_untouched n g kappa ps b a) by assumption.
    unfold dM_dS_step. simpl.
    rewrite !(entry_set2 n)
      by (try apply shape2_set2; try assumption; lia).
    rewrite !Nat.eqb_refl. simpl.
    destruct (Nat.eqb_spec a b) as [Hab | Hab]; [lia |]. simpl.
    split; reflexivity.
Qed.

Lemma interaction_sum_ok (n : nat) (g : list Q) (Sm : list (list Q))
    (kappa : Q) :
  length g = n -> shape2 n n Sm ->
  exists isum,
    list_comp (range 0 n) (fun i =>
      for_range (filter (fun j => negb (i =? j)%nat) (range 0 n))
        (fun j acc =>
           Sij <- getitem2 Sm i j ;;
           Gj <- getitem g j ;;
           Ok (acc + kappa * Sij * Gj)) 0) = Ok isum
    /\ length isum = n
    /\ forall i, (i < n)%nat ->
         nth i isum 0 == interaction_spec n g Sm kappa i.
Proof.
  intros Hg HS.
  destruct (list_comp_ok (range 0 n)
    (fun i =>
      for_range (filter (fun j => negb (i =? j)%nat) (range 0 n))
        (fun j acc =>
           Sij <- getitem2 Sm i j ;;
           Gj <- getitem g j ;;
           Ok (acc + kappa * Sij * Gj)) 0)
    (interaction_spec n g Sm kappa)) as (isum & Hisum & Hlen & Hnth).
  - intros i Hi. apply in_range in Hi.
    destruct (for_range_sum
      (filter (fun j => negb (i =? j)%nat) (range 0 n))
      (fun j acc =>
         Sij <- getitem2 Sm i j ;;
         Gj <- getitem g j ;;
         Ok (acc + kappa * Sij * Gj))
      (fun j => kappa * entry Sm i j * nth j g 0)) with (acc := 0)
      as [v [Hv Hveq]].
    + intros j acc Hj. apply filter_In in Hj. destruct Hj as [Hj _].
      apply in_range in Hj.
      rewrite (getitem2_entry n n Sm i j HS) by lia. simpl.
      rewrite (getitem_nth g j) by lia. simpl.
      eexists. split; reflexivity.
    + exists v. split; [exact Hv |]. rewrite Hveq.
      unfold interaction_spec, range. rewrite Nat.sub_0_r, Qplus_0_l.
      generalize (filter (fun j => negb (i =? j)%nat) (seq 0 n)) as js.
      induction js as [|j js IH]; simpl; [ring |]. rewrite IH. ring.
  - exists isum. unfold range in Hlen, Hnth.
    rewrite length_seq, Nat.sub_0_r in Hlen.
    split; [exact Hisum |]. split; [exact Hlen |].
    intros i Hi. rewrite (Hnth i).
    + rewrite Nat.sub_0_r, seq_nth by exact Hi. reflexivity.
    + rewrite length_seq. lia.
Qed.

Lemma calculate_marginal_gains_ok (n : nat) (L V R : list Q)
    (Sm : list (list Q)) (kappa eps : Q) :
  snapshot n L V R Sm ->
  exists dM_dR dM_dS,
    calculate_marginal_gains L V R Sm kappa eps = Ok (dM_dR, dM_dS)
    /\ length dM_dR = n
    /\ (forall i, (i < n)%nat ->
          nth i dM_dR 0 ==
          interaction_spec n (gravities L V R eps) Sm kappa i
          * ((- ((nth i L 0) ^ 2 * nth i V 0)) / (nth i R 0 + eps) ^ 2) - 1)
    /\ shape2 n n dM_dS
    /\ (forall i j, (i < j < n)%nat ->
          entry dM_dS i j
          = kappa * nth i (gravities L V R eps) 0
                  * nth j (gravities L V R eps) 0 + 1
          /\ entry dM_dS j i
             = kappa * nth i (gravities L V R eps) 0
                     * nth j (gravities L V R eps) 0 + 1)
    /\ (forall i, entry dM_dS i i = 0).
Proof.
  intros (HL & HV & HR & HS). unfold calculate_marginal_gains. cbv zeta.
  rewrite compute_individual_gravity_ok by congruence. cbn [bind].
  set (g := gravities L V R eps).
  assert (Hg : length g = n) by (unfold g; rewrite gravities_length; exact HL).
  rewrite HL.
  destruct (interaction_sum_ok n g Sm kappa Hg HS)
    as (isum & Hisum & Hilen & Hinth).
  rewrite Hisum. cbn [bind].
  rewrite broadcast_same by (rewrite length_map; congruence). cbn [bind].
  set (num := map (fun p => fst p * snd p)
                  (combine (map (fun l => l ^ 2) L) V)).
  assert (Hnum : length num = n).
  { unfold num. rewrite length_zip; rewrite length_map; congruence. }
  assert (Hsq : length (map (fun r => (r + eps) ^ 2) R) = n)
    by (rewrite length_map; exact HR).
  assert (Hopp : length (map Qopp num) = n)
    by (rewrite (length_map Qopp num); exact Hnum).
  rewrite broadcast_same by congruence. cbn [bind].
  set (dG := map (fun p => fst p / snd p)
                 (combine (map Qopp num) (map (fun r => (r + eps) ^ 2) R))).
  assert (HdG : length dG = n).
  { unfold dG. rewrite length_zip; congruence. }
  rewrite broadcast_same by congruence. cbn [bind].
  destruct (dM_dS_loop_ok n g kappa (zeros_like Sm) Hg
              (shape2_zeros_like n n Sm HS)) as [Hloop Hshape].
  cbv zeta in Hloop. rewrite Hloop. cbn [bind].
  eexists. eexists. split; [reflexivity |].
  assert (Hpairs : forall p, In p (pairs n) -> (fst p < snd p < n)%nat).
  { intros [i j] Hp. apply in_pairs in Hp. exact Hp. }
  split; [| split; [| split; [| split]]].
  - rewrite length_map, length_zip; congruence.
  - intros i Hi.
    rewrite nth_map_Q by (rewrite length_zip; congruence).
    rewrite nth_zip by congruence.
    unfold dG. rewrite nth_zip by congruence.
    rewrite (nth_map_Q Qopp num) by congruence.
    rewrite (nth_map_Q _ R) by congruence.
    unfold num. rewrite nth_zip by (rewrite ?length_map; congruence).
    rewrite (nth_map_Q _ L) by congruence.
    rewrite (Hinth i Hi). reflexivity.
  - exact Hshape.
  - intros i j Hij.
    apply (dM_dS_fold_written n g kappa (pairs n) i j Hpairs).
    + apply in_pairs. exact Hij.
    + apply shape2_zeros_like. exact HS.
  - intro i.
    rewrite (dM_dS_fold_untouched n g kappa (pairs n) i i).
    + apply entry_zeros_like.
    + intros p Hp. specialize (Hpairs p Hp). lia.
    + intro H. apply in_pairs in H. lia.
    + intro H. apply in_pairs in H. lia.
    + apply shape2_zeros_like. exact HS.
Qed.

(** ** C2: what the sensitivity analyzer returns *)

(** ** The optimizer: candidates, sort, budget walk *)

Lemma for_range_append {A : Type} (xs : list nat)
    (body : nat -> list A -> result (list A)) (f : nat -> list A) :
  (forall x s, In x xs -> body x s = Ok (s ++ f x)) ->
  forall s, for_range xs body s = Ok (s ++ flat_map f xs).
Proof.
  induction xs as [|x xs IH]; intros H s; simpl.
  - rewrite app_nil_r. reflexivity.
  - rewrite (H x s (or_introl eq_refl)). simpl.
    rewrite IH by (intros y s' Hy; apply H; right; exact Hy).
    rewrite app_assoc. reflexivity.
Qed.

Lemma r_candidates_ok (n : nat) (dM_dR : list Q) (costs : cost_model)
    (step : Q) (s : list suggestion) :
  length dM_dR = n -> length (cR costs) = n ->
  r_candidates n dM_dR costs step s
  = Ok (s ++ flat_map (r_candidate dM_dR costs step) (range 0 n)).
Proof.
  intros HdR HcR. unfold r_candidates.
  apply for_range_append. intros i s' Hi. apply in_range in Hi.
  rewrite (getitem_nth dM_dR i) by lia. cbn [bind].
  rewrite (getitem_nth (cR costs) i) by lia. cbn [bind].
  unfold r_candidate. cbv zeta.
  destruct (Qgtb (nth i (cR costs) 0 * step) 0).
  - reflexivity.
  - rewrite app_nil_r. reflexivity.
Qed.

Lemma flat_map_nested {A B C : Type} (f : B -> list C) (g : A -> list B)
    (l : list A) :
  flat_map f (flat_map g l) = flat_map (fun a => flat_map f (g a)) l.
Proof.
  induction l as [|a l IH]; simpl; [reflexivity |].
  rewrite flat_map_app, IH. reflexivity.
Qed.

Lemma flat_map_map {A B C : Type} (f : B -> list C) (h : A -> B)
    (l : list A) :
  flat_map f (map h l) = flat_map (fun x => f (h x)) l.
Proof.
  induction l as [|a l IH]; simpl; [reflexivity |].
  rewrite IH. reflexivity.
Qed.

Lemma s_candidates_ok (n : nat) (dM_dS : list (list Q)) (costs : cost_model)
    (step : Q) (s : list suggestion) :
  shape2 n n dM_dS -> shape2 n n (cS costs) ->
  s_candidates n dM_dS costs step s
  = Ok (s ++ flat_map (s_candidate dM_dS costs step) (pairs n)).
Proof.
  intros HdS HcS. unfold s_candidates, pairs.
  rewrite flat_map_nested.
  apply (for_range_append (range 0 n) _
           (fun i => flat_map (s_candidate dM_dS costs step)
                              (map (pair i) (range (i + 1) n)))).
  intros i s' Hi. apply in_range in Hi.
  rewrite flat_map_map.
  apply (for_range_append (range (i + 1) n) _
           (fun j => s_candidate dM_dS costs step (i, j))).
  intros j s'' Hj. apply in_range in Hj.
  rewrite (getitem2_entry n n dM_dS i j HdS) by lia. cbn [bind].
  rewrite (getitem2_entry n n (cS costs) i j HcS) by lia. cbn [bind].
  unfold s_candidate. cbv zeta. simpl fst. simpl snd.
  destruct (Qgtb (entry (cS costs) i j * step) 0).
  - reflexivity.
  - rewrite app_nil_r. reflexivity.
Qed.

Lemma sorted_candidates_ok (n : nat) (L V R : list Q) (Sm : list (list Q))
    (costs : cost_model) (step kappa eps : Q) :
  snapshot n L V R Sm -> cost_shape n costs ->
  exists dM_dR dM_dS,
    calculate_marginal_gains L V R Sm kappa eps = Ok (dM_dR, dM_dS)
    /\ sorted_candidates L V R Sm costs step kappa eps
       = Ok (sort_by_roi (raw_candidates n dM_dR dM_dS costs step)).
Proof.
  intros Hsnap [HcR HcS].
  destruct (calculate_marginal_gains_ok n L V R Sm kappa eps Hsnap)
    as (dR & dS & Hcalc & Hlen & _ & Hshape & _).
  destruct Hsnap as (HL & _).
  exists dR, dS. split; [exact Hcalc |].
  unfold sorted_candidates. rewrite Hcalc. cbn [bind]. rewrite HL.
  rewrite (r_candidates_ok n dR costs step []) by assumption. cbn [bind].
  rewrite (s_candidates_ok n dS costs step) by assumption. cbn [bind].
  reflexivity.
Qed.

Lemma insert_by_roi_perm (x : suggestion) (l : list suggestion) :
  Permutation (x :: l) (insert_by_roi x l).
Proof.
  induction l as [|y t IH]; simpl.
  - apply Permutation_refl.
  - destruct (Qle_bool (ROI y) (ROI x)).
    + apply Permutation_refl.
    + apply perm_trans with (y :: x :: t).
      * apply perm_swap.
      * apply perm_skip. exact IH.
Qed.

Lemma sort_by_roi_perm (l : list suggestion) : Permutation l (sort_by_roi l).
Proof.
  induction l as [|x l IH]; simpl.
  - apply perm_nil.
  - apply perm_trans with (x :: sort_by_roi l).
    + apply perm_skip. exact IH.
    + apply insert_by_roi_perm.
Qed.

Lemma insert_by_roi_sorted (x : suggestion) (l : list suggestion) :
  roi_descending l -> roi_descending (insert_by_roi x l).
Proof.
  unfold roi_descending.
  induction l as [|y t IH]; intro Hs; simpl.
  - constructor; constructor.
  - apply StronglySorted_inv in Hs. destruct Hs as [Ht Hy].
    destruct (Qle_bool (ROI y) (ROI x)) eqn:Hle.
    + apply Qle_bool_iff in Hle.
      constructor; [constructor; assumption |].
      constructor; [exact Hle |].
      apply Forall_forall. intros b Hb. rewrite Forall_forall in Hy.
      apply Qle_trans with (ROI y); [apply Hy; exact Hb | exact Hle].
    + apply Qle_bool_false in Hle.
      constructor; [apply IH; exact Ht |].
      apply (Permutation_Forall (insert_by_roi_perm x t)).
      constructor; [apply Qlt_le_weak; exact Hle | exact Hy].
Qed.

Lemma sort_by_roi_sorted (l : list suggestion) :
  roi_descending (sort_by_roi l).
Proof.
  induction l as [|x l IH]; simpl.
  - constructor.
  - apply insert_by_roi_sorted. exact IH.
Qed.

Lemma filter_by_budget_Forall (P : suggestion -> Prop) (budget : Q)
    (l : list suggestion) :
  Forall P l -> forall spend, Forall P (filter_by_budget budget spend l).
Proof.
  induction l as [|m l IH]; intros H spend; simpl.
  - constructor.
  - apply Forall_cons_iff in H. destruct H as [Hm Hl].
    destruct (Qle_bool (spend + Cost m) budget).
    + constructor; [exact Hm | apply IH; exact Hl].
    + apply IH; exact Hl.
Qed.

Lemma filter_by_budget_sorted (budget : Q) (l : list suggestion) :
  roi_descending l ->
  forall spend, roi_descending (filter_by_budget budget spend l).
Proof.
  unfold roi_descending.
  induction l as [|m l IH]; intros H spend; simpl.
  - constructor.
  - apply StronglySorted_inv in H. destruct H as [Hl Hm].
    destruct (Qle_bool (spend + Cost m) budget).
    + constructor; [apply IH; exact Hl |].
      apply filter_by_budget_Forall. exact Hm.
    + apply IH; exact Hl.
Qed.

Lemma filter_by_budget_In (budget : Q) (l : list suggestion) (x : suggestion) :
  forall spend, In x (filter_by_budget budget spend l) -> In x l.
Proof.
  induction l as [|m l IH]; intros spend H; simpl in *.
  - exact H.
  - destruct (Qle_bool (spend + Cost m) budget).
    + destruct H as [H | H]; [left; exact H | right; apply (IH _ H)].
    + right. apply (IH _ H).
Qed.

Lemma filter_by_budget_spend (budget : Q) (l : list suggestion) :
  forall spend, spend <= budget ->
    spend + Qsum (map Cost (filter_by_budget budget spend l)) <= budget.
Proof.
  induction l as [|m l IH]; intros spend H; simpl.
  - lra.
  - destruct (Qle_bool (spend + Cost m) budget) eqn:Hfit.
    + apply Qle_bool_iff in Hfit. simpl.
      specialize (IH (spend + Cost m) Hfit). lra.
    + apply IH. exact H.
Qed.

Lemma filter_by_budget_compat (budget : Q) (l : list suggestion) :
  forall s s', s == s' ->
    filter_by_budget budget s l = filter_by_budget budget s' l.
Proof.
  induction l as [|m l IH]; intros s s' Hs; simpl.
  - reflexivity.
  - assert (Hb : Qle_bool (s + Cost m) budget = Qle_bool (s' + Cost m) budget)
      by (rewrite Hs; reflexivity).
    rewrite Hb. destruct (Qle_bool (s' + Cost m) budget).
    + f_equal. apply IH. rewrite Hs. reflexivity.
    + apply IH. exact Hs.
Qed.

Lemma filter_by_budget_app (budget : Q) (pre post : list suggestion) :
  forall s,
    filter_by_budget budget s (pre ++ post)
    = filter_by_budget budget s pre
      ++ filter_by_budget budget
           (s + Qsum (map Cost (filter_by_budget budget s pre))) post.
Proof.
  induction pre as [|m pre IH]; intro s; simpl.
  - apply filter_by_budget_compat. ring.
  - destruct (Qle_bool (s + Cost m) budget); simpl.
    + rewrite IH. f_equal. f_equal.
      apply filter_by_budget_compat. ring.
    + apply IH.
Qed.

(** ** C4: the budget *)

(** C4. For every snapshot, cost model of the same shape and non-negative
    budget, the costs of the returned suggestions sum to at most the
    budget.  The walk skips and does not stop: wherever a candidate [c]
    stands in the sorted list, the result is what the walk kept before
    [c], then [c] when it fits into what is left, then what the walk
    keeps of the candidates after [c] -- whether [c] was kept or not. *)
Theorem suggest_interventions_budget (n : nat) (L V R : list Q)
    (Sm : list (list Q)) (costs : cost_model) (budget step kappa eps : Q) :
  snapshot n L V R Sm -> cost_shape n costs -> 0 <= budget ->
  exists cands moves,
    sorted_candidates L V R Sm costs step kappa eps = Ok cands
    /\ suggest_interventions L V R Sm costs budget step kappa eps = Ok moves
    /\ Qsum (map Cost moves) <= budget
    /\ (forall pre c post, cands = pre ++ c :: post ->
          let kept := filter_by_budget budget 0 pre in
          let spent := 0 + Qsum (map Cost kept) in
          moves =
          kept ++ (if Qle_bool (spent + Cost c) budget
                   then c :: filter_by_budget budget (spent + Cost c) post
                   else filter_by_budget budget spent post)).
Proof.
  intros Hsnap Hcosts Hbudget.
  destruct (sorted_candidates_ok n L V R Sm costs step kappa eps Hsnap Hcosts)
    as (dR & dS & _ & Hsorted).
  exists (sort_by_roi (raw_candidates n dR dS costs step)).
  exists (filter_by_budget budget 0
            (sort_by_roi (raw_candidates n dR dS costs step))).
  split; [exact Hsorted |].
  split; [unfold suggest_interventions; rewrite Hsorted; reflexivity |].
  split.
  - pose proof (filter_by_budget_spend budget
                  (sort_by_roi (raw_candidates n dR dS costs step)) 0 Hbudget).
    lra.
  - intros pre c post Heq. cbv zeta. rewrite Heq.
    rewrite filter_by_budget_app. reflexivity.
Qed.

Lemma suggest_interventions_budget_witness :
  snapshot 2 skip_L skip_V skip_R skip_S
  /\ cost_shape 2 skip_costs
  /\ 0 <= 5
  /\ exists moves,
       suggest_interventions skip_L skip_V skip_R skip_S skip_costs 5 1
         default_kappa default_eps = Ok moves
       /\ Qsum (map Cost moves) <= 5.
Proof.
  assert (H1 : snapshot 2 skip_L skip_V skip_R skip_S)
    by (unfold snapshot, shape2; repeat split; repeat constructor).
  assert (H2 : cost_shape 2 skip_costs)
    by (unfold cost_shape, shape2; repeat split; repeat constructor).
  assert (H3 : 0 <= 5) by (vm_compute; discriminate).
  split; [exact H1 |]. split; [exact H2 |]. split; [exact H3 |].
  destruct (suggest_interventions_budget 2 skip_L skip_V skip_R skip_S
              skip_costs 5 1 default_kappa default_eps H1 H2 H3)
    as (cands & moves & _ & Hmoves & Hsum & _).
  exists moves. split; [exact Hmoves | exact Hsum].
Defined.

(** The walk at work: the first candidate (node 0, cost 10) does not fit
    into the budget of 5, and the second (node 1, cost 1) is accepted. *)
Example suggest_interventions_skips :
  (exists cands,
     sorted_candidates skip_L skip_V skip_R skip_S skip_costs 1
       default_kappa default_eps = Ok cands
     /\ map Target cands = [0%nat; 1%nat]
     /\ map (fun s => Qred (Cost s)) cands = [10; 1])
  /\ (exists moves,
        suggest_interventions skip_L skip_V skip_R skip_S skip_costs 5 1
          default_kappa default_eps = Ok moves
        /\ map Target moves = [1%nat]).
Proof.
  split; eexists; (split; [vm_compute; reflexivity |]);
    repeat split; vm_compute; reflexivity.
Qed.

(** ** C5: ordering and the cost guard *)

Lemma in_r_candidate (dM_dR : list Q) (costs : cost_model) (step : Q)
    (i : nat) (s : suggestion) :
  In s (r_candidate dM_dR costs step i) <->
  0 < nth i (cR costs) 0 * step
  /\ s = {| Type_ := Reduce_Resistance; Target := i; Target_2 := None;
            ROI := (- nth i dM_dR 0 * step) / (nth i (cR costs) 0 * step);
            Cost := nth i (cR costs) 0 * step;
            Impact := - nth i dM_dR 0 * step |}.
Proof.
  unfold r_candidate. cbv zeta.
  destruct (Qgtb (nth i (cR costs) 0 * step) 0) eqn:Hc; simpl.
  - apply Qgtb_gt in Hc. split.
    + intros [H | []]. split; [exact Hc | symmetry; exact H].
    + intros [_ H]. left. symmetry. exact H.
  - split; [contradiction |]. intros [H _].
    apply Qgtb_gt in H. congruence.
Qed.

Lemma in_s_candidate (dM_dS : list (list Q)) (costs : cost_model) (step : Q)
    (i j : nat) (s : suggestion) :
  In s (s_candidate dM_dS costs step (i, j)) <->
  0 < entry (cS costs) i j * step
  /\ s = {| Type_ := Boost_Resonance; Target := i; Target_2 := Some j;
            ROI := (entry dM_dS i j * step) / (entry (cS costs) i j * step);
            Cost := entry (cS costs) i j * step;
            Impact := entry dM_dS i j * step |}.
Proof.
  unfold s_candidate. cbv zeta. simpl fst. simpl snd.
  destruct (Qgtb (entry (cS costs) i j * step) 0) eqn:Hc; simpl.
  - apply Qgtb_gt in Hc. split.
    + intros [H | []]. split; [exact Hc | symmetry; exact H].
    + intros [_ H]. left. symmetry. exact H.
  - split; [contradiction |]. intros [H _].
    apply Qgtb_gt in H. congruence.
Qed.

Lemma in_raw_candidates (n : nat) (dM_dR : list Q) (dM_dS : list (list Q))
    (costs : cost_model) (step : Q) (s : suggestion) :
  In s (raw_candidates n dM_dR dM_dS costs step) <->
  (exists i, (i < n)%nat /\ In s (r_candidate dM_dR costs step i))
  \/ (exists i j, (i < j < n)%nat
                  /\ In s (s_candidate dM_dS costs step (i, j))).
Proof.
  unfold raw_candidates. rewrite in_app_iff, !in_flat_map. split.
  - intros [[i [Hi Hs]] | [[i j] [Hij Hs]]].
    + left. exists i. apply in_range in Hi. split; [lia | exact Hs].
    + right. exists i, j. apply in_pairs in Hij. split; assumption.
  - intros [[i [Hi Hs]] | [i [j [Hij Hs]]]].
    + left. exists i. split; [apply in_range; lia | exact Hs].
    + right. exists (i, j). split; [apply in_pairs; exact Hij | exact Hs].
Qed.

Lemma raw_candidates_cost (n : nat) (dM_dR : list Q) (dM_dS : list (list Q))
    (costs : cost_model) (step : Q) :
  Forall (fun s => 0 < Cost s) (raw_candidates n dM_dR dM_dS costs step).
Proof.
  apply Forall_forall. intros s Hs. apply in_raw_candidates in Hs.
  destruct Hs as [[i [_ Hs]] | [i [j [_ Hs]]]].
  - apply in_r_candidate in Hs. destruct Hs as [Hc ->]. exact Hc.
  - apply in_s_candidate in Hs. destruct Hs as [Hc ->]. exact Hc.
Qed.

(** C5. For every snapshot, cost model of the same shape and budget, the
    optimizer returns a list -- it raises no error, whatever the sign of
    the costs -- that is in non-increasing order of ROI and whose
    suggestions all have strictly positive cost.  The candidates it
    chooses from are exactly: one per node [i] with [cR[i] * step > 0] and
    one per pair [i < j] with [cS[i][j] * step > 0], each with
    [ROI = gain / cost]; a node or pair of zero or negative cost has no
    candidate. *)
Theorem suggest_interventions_ordering (n : nat) (L V R : list Q)
    (Sm : list (list Q)) (costs : cost_model) (budget step kappa eps : Q) :
  snapshot n L V R Sm -> cost_shape n costs ->
  exists cands moves,
    sorted_candidates L V R Sm costs step kappa eps = Ok cands
    /\ suggest_interventions L V R Sm costs budget step kappa eps = Ok moves
    /\ roi_descending moves
    /\ Forall (fun s => 0 < Cost s) moves
    /\ (forall s, In s moves -> In s cands)
    /\ Forall (fun s => 0 < Cost s /\ ROI s == Impact s / Cost s) cands
    /\ (forall i,
          (exists s, In s cands /\ Type_ s = Reduce_Resistance
                     /\ Target s = i)
          <-> (i < n)%nat /\ 0 < nth i (cR costs) 0 * step)
    /\ (forall i j,
          (exists s, In s cands /\ Type_ s = Boost_Resonance
                     /\ Target s = i /\ Target_2 s = Some j)
          <-> (i < j < n)%nat /\ 0 < entry (cS costs) i j * step).
Proof.
  intros Hsnap Hcosts.
  destruct (sorted_candidates_ok n L V R Sm costs step kappa eps Hsnap Hcosts)
    as (dR & dS & _ & Hsorted).
  set (raw := raw_candidates n dR dS costs step) in *.
  assert (Hperm : Permutation raw (sort_by_roi raw))
    by apply sort_by_roi_perm.
  assert (Hin : forall s, In s (sort_by_roi raw) <-> In s raw).
  { intro s. split; intro H.
    - apply (Permutation_in s (Permutation_sym Hperm) H).
    - apply (Permutation_in s Hperm H). }
  exists (sort_by_roi raw), (filter_by_budget budget 0 (sort_by_roi raw)).
  split; [exact Hsorted |].
  split; [unfold suggest_interventions; rewrite Hsorted; reflexivity |].
  split; [apply filter_by_budget_sorted, sort_by_roi_sorted |].
  split.
  { apply filter_by_budget_Forall.
    apply (Permutation_Forall Hperm). apply raw_candidates_cost. }
  split; [intros s Hs; apply (filter_by_budget_In _ _ _ _ Hs) |].
  split.
  { apply Forall_forall. intros s Hs. apply Hin in Hs.
    apply in_raw_candidates in Hs.
    destruct Hs as [[i [_ Hs]] | [i [j [_ Hs]]]].
    - apply in_r_candidate in Hs. destruct Hs as [Hc ->]. simpl.
      split; [exact Hc | reflexivity].
    - apply in_s_candidate in Hs. destruct Hs as [Hc ->]. simpl.
      split; [exact Hc | reflexivity]. }
  split.
  - intro i. split.
    + intros (s & Hs & Hty & Htg). apply Hin in Hs.
      apply in_raw_candidates in Hs.
      destruct Hs as [[k [Hk Hs]] | [k [j [_ Hs]]]].
      * apply in_r_candidate in Hs. destruct Hs as [Hc ->].
        simpl in Htg. subst k. split; assumption.
      * apply in_s_candidate in Hs. destruct Hs as [_ ->].
        simpl in Hty. discriminate.
    + intros [Hi Hc]. eexists. split.
      * apply Hin. apply in_raw_candidates. left. exists i.
        split; [exact Hi |]. apply in_r_candidate.
        split; [exact Hc | reflexivity].
      * split; reflexivity.
  - intros i j. split.
    + intros (s & Hs & Hty & Htg & Htg2). apply Hin in Hs.
      apply in_raw_candidates in Hs.
      destruct Hs as [[k [_ Hs]] | [k [l [Hkl Hs]]]].
      * apply in_r_candidate in Hs. destruct Hs as [_ ->].
        simpl in Hty. discriminate.
      * apply in_s_candidate in Hs. destruct Hs as [Hc ->].
        simpl in Htg, Htg2. inversion Htg2. subst k l.
        split; assumption.
    + intros [Hij Hc]. eexists. split.
      * apply Hin. apply in_raw_candidates. right. exists i, j.
        split; [exact Hij |]. apply in_s_candidate.
        split; [exact Hc | reflexivity].
      * split; [reflexivity | split; reflexivity].
Qed.

Lemma suggest_interventions_ordering_witness :
  snapshot 2 skip_L skip_V skip_R skip_S
  /\ cost_shape 2 skip_costs
  /\ exists moves,
       suggest_interventions skip_L skip_V skip_R skip_S skip_costs 5 1
         default_kappa default_eps = Ok moves
       /\ roi_descending moves
       /\ Forall (fun s => 0 < Cost s) moves.
Proof.
  assert (H1 : snapshot 2 skip_L skip_V skip_R skip_S)
    by (unfold snapshot, shape2; repeat split; repeat constructor).
  assert (H2 : cost_shape 2 skip_costs)
    by (unfold cost_shape, shape2; repeat split; repeat constructor).
  split; [exact H1 |]. split; [exact H2 |].
  destruct (suggest_interventions_ordering 2 skip_L skip_V skip_R skip_S
              skip_costs 5 1 default_kappa default_eps H1 H2)
    as (cands & moves & _ & Hmoves & Hord & Hcost & _).
  exists moves. split; [exact Hmoves |]. split; [exact Hord | exact Hcost].
Defined.

(** ** C7: raising one resistance lowers the margin *)

Lemma Qsum_le_nth (l l' : list Q) :
  length l = length l' ->
  (forall k, (k < length l)%nat -> nth k l 0 <= nth k l' 0) ->
  Qsum l <= Qsum l'.
Proof.
  revert l'. induction l as [|x l IH]; intros [|y l'] Hlen H;
    simpl in Hlen; try (exfalso; discriminate Hlen).
  - apply Qle_refl.
  - simpl. apply Qplus_le_compat.
    + apply (H 0%nat). simpl. lia.
    + apply IH; [lia |]. intros k Hk. apply (H (S k)). simpl. lia.
Qed.


Lemma gravity_nonneg (l v r eps : Q) :
  0 <= l -> 0 <= v -> 0 <= r -> 0 < eps -> 0 <= gravity l v r eps.
Proof.
  intros Hl Hv Hr He. unfold gravity.
  apply Qle_shift_div_l; [lra |].
  rewrite Qmult_0_l. apply Qmult_le_0_compat; [| exact Hv].
  simpl. apply Qmult_le_0_compat; exact Hl.
Qed.

Lemma gravity_antitone (l v r r' eps : Q) :
  0 <= l -> 0 <= v -> 0 <= r -> r <= r' -> 0 < eps ->
  gravity l v r' eps <= gravity l v r eps.
Proof.
  intros Hl Hv Hr Hrr He. unfold gravity.
  assert (Ha : 0 <= l ^ 2 * v).
  { apply Qmult_le_0_compat; [| exact Hv].
    simpl. apply Qmult_le_0_compat; exact Hl. }
  apply Qle_shift_div_r; [lra |].
  setoid_replace (l ^ 2 * v / (r + eps) * (r' + eps))
    with (l ^ 2 * v + l ^ 2 * v / (r + eps) * (r' - r))
    by (field; lra).
  assert (H0 : 0 <= l ^ 2 * v / (r + eps)).
  { apply Qle_shift_div_l; [lra |]. rewrite Qmult_0_l. exact Ha. }
  assert (H1 : 0 <= l ^ 2 * v / (r + eps) * (r' - r)).
  { apply Qmult_le_0_compat; [exact H0 | lra]. }
  lra.
Qed.





(** ** C6: relabelling the nodes *)

Lemma Qsum_perm (l l' : list Q) : Permutation l l' -> Qsum l == Qsum l'.
Proof.
  induction 1 as [| x l l' _ IH | x y l | l l' l'' _ IH1 _ IH2]; simpl.
  - reflexivity.
  - rewrite IH. reflexivity.
  - ring.
  - rewrite IH1. exact IH2.
Qed.

Lemma list_pair_sum_perm (f : nat -> nat -> Q) (l l' : list nat) :
  (forall x y, f x y == f y x) ->
  Permutation l l' -> list_pair_sum f l == list_pair_sum f l'.
Proof.
  intro Hsym.
  induction 1 as [| x l l' Hp IH | x y l | l l' l'' _ IH1 _ IH2]; simpl.
  - reflexivity.
  - rewrite IH, (Qsum_perm _ _ (Permutation_map (f x) Hp)). reflexivity.
  - rewrite (Hsym y x). ring.
  - rewrite IH1. exact IH2.
Qed.

Lemma list_pair_sum_map (f : nat -> nat -> Q) (h : nat -> nat) (l : list nat) :
  list_pair_sum f (map h l) = list_pair_sum (fun a b => f (h a) (h b)) l.
Proof.
  induction l as [|x l IH]; simpl; [reflexivity |].
  rewrite IH, map_map. reflexivity.
Qed.

Lemma list_pair_sum_seq (f : nat -> nat -> Q) (len s : nat) :
  list_pair_sum f (seq s len)
  == Qsum (map (fun i => Qsum (map (f i) (range (i + 1) (s + len))))
               (seq s len)).
Proof.
  revert s. induction len as [|len IH]; intro s; simpl.
  - reflexivity.
  - rewrite IH. unfold range.
    replace (s + S len - (s + 1))%nat with len by lia.
    replace (s + 1)%nat with (S s) by lia.
    apply Qplus_comp; [reflexivity |].
    apply Qsum_ext. intros i _.
    replace (S s + len)%nat with (s + S len)%nat by lia. reflexivity.
Qed.

Lemma pair_sum_list (n : nat) (f : nat -> nat -> Q) :
  pair_sum n f == list_pair_sum f (seq 0 n).
Proof.
  rewrite pair_sum_unfold, list_pair_sum_seq.
  unfold range at 2. rewrite Nat.sub_0_r. reflexivity.
Qed.

Lemma map_nth_seq {A : Type} (d : A) (l : list A) :
  map (fun i => nth i l d) (seq 0 (length l)) = l.
Proof.
  apply (nth_ext _ _ d d).
  - rewrite length_map, length_seq. reflexivity.
  - intros k Hk. rewrite length_map, length_seq in Hk.
    rewrite (nth_indep _ d (nth 0 l d))
      by (rewrite length_map, length_seq; exact Hk).
    rewrite (map_nth (fun i => nth i l d) (seq 0 (length l)) 0%nat k).
    rewrite seq_nth by exact Hk. reflexivity.
Qed.

Lemma pair_sum_relabel (n : nat) (p : list nat) (f : nat -> nat -> Q) :
  (forall x y, f x y == f y x) ->
  Permutation p (seq 0 n) ->
  pair_sum n (fun a b => f (nth a p 0%nat) (nth b p 0%nat)) == pair_sum n f.
Proof.
  intros Hsym Hp.
  assert (Hlen : length p = n)
    by (rewrite (Permutation_length Hp), length_seq; reflexivity).
  rewrite !pair_sum_list.
  rewrite <- (list_pair_sum_map f (fun a => nth a p 0%nat)).
  rewrite <- Hlen at 1. rewrite map_nth_seq.
  apply list_pair_sum_perm; assumption.
Qed.

Lemma permute_vec_length (p : list nat) (a : list Q) :
  length (permute_vec p a) = length p.
Proof. apply length_map. Qed.

Lemma permute_vec_nth (p : list nat) (a : list Q) (k : nat) :
  (k < length p)%nat ->
  nth k (permute_vec p a) 0 = nth (nth k p 0%nat) a 0.
Proof.
  intro Hk. unfold permute_vec.
  rewrite (nth_indep _ 0 (nth 0%nat a 0)) by (rewrite length_map; exact Hk).
  apply (map_nth (fun k => nth k a 0)).
Qed.

Lemma permute_mat_shape (p : list nat) (M : list (list Q)) :
  shape2 (length p) (length p) (permute_mat p M).
Proof.
  unfold permute_mat. split.
  - apply length_map.
  - rewrite Forall_map. apply Forall_forall. intros i _. apply length_map.
Qed.

Lemma permute_mat_entry (p : list nat) (M : list (list Q)) (a b : nat) :
  (a < length p)%nat -> (b < length p)%nat ->
  entry (permute_mat p M) a b = entry M (nth a p 0%nat) (nth b p 0%nat).
Proof.
  intros Ha Hb. unfold permute_mat. unfold entry at 1.
  rewrite (nth_indep _ [] (map (fun j => entry M 0%nat j) p))
    by (rewrite length_map; exact Ha).
  rewrite (map_nth (fun i => map (fun j => entry M i j) p) p 0%nat a).
  rewrite (nth_indep _ 0 (entry M (nth a p 0%nat) 0%nat))
    by (rewrite length_map; exact Hb).
  apply (map_nth (fun j => entry M (nth a p 0%nat) j)).
Qed.

Lemma entry_out (n : nat) (M : list (list Q)) (i j : nat) :
  shape2 n n M -> (n <= i \/ n <= j)%nat -> entry M i j = 0.
Proof.
  intros HM Hout. unfold entry.
  destruct (Nat.lt_ge_cases i n) as [Hi | Hi].
  - apply nth_overflow. rewrite (shape2_row n n M i HM Hi). lia.
  - rewrite (nth_overflow M []) by (destruct HM; lia).
    destruct j; reflexivity.
Qed.

Lemma symmetric_everywhere (n : nat) (M : list (list Q)) :
  shape2 n n M ->
  (forall i j, (i < n)%nat -> (j < n)%nat -> entry M i j == entry M j i) ->
  forall i j, entry M i j == entry M j i.
Proof.
  intros HM Hsym i j.
  destruct (Nat.lt_ge_cases i n) as [Hi | Hi];
    destruct (Nat.lt_ge_cases j n) as [Hj | Hj].
  - apply Hsym; assumption.
  - rewrite (entry_out n M i j HM), (entry_out n M j i HM) by lia.
    reflexivity.
  - rewrite (entry_out n M i j HM), (entry_out n M j i HM) by lia.
    reflexivity.
  - rewrite (entry_out n M i j HM), (entry_out n M j i HM) by lia.
    reflexivity.
Qed.

(** C6. For every snapshot with [S] symmetric and every permutation [p]
    of the node indices, evaluating the relabelled snapshot ([L], [V], [R]
    read through [p], rows and columns of [S] permuted by [p]) gives the
    same [K], [D] and [Margin] as evaluating the original one. *)
Theorem analyze_team_state_relabel (n : nat) (L V R : list Q)
    (Sm : list (list Q)) (kappa eps : Q) (p : list nat) :
  snapshot n L V R Sm ->
  (forall i j, (i < n)%nat -> (j < n)%nat -> entry Sm i j == entry Sm j i) ->
  Permutation p (seq 0 n) ->
  exists m m',
    analyze_team_state L V R Sm kappa eps = Ok m
    /\ analyze_team_state (permute_vec p L) (permute_vec p V)
         (permute_vec p R) (permute_mat p Sm) kappa eps = Ok m'
    /\ K_team m' == K_team m
    /\ D_team m' == D_team m
    /\ Margin m' == Margin m.
Proof.
  intros Hsnap Hsym Hp.
  assert (Hlen : length p = n)
    by (rewrite (Permutation_length Hp), length_seq; reflexivity).
  assert (Hin : forall a, (a < n)%nat -> (nth a p 0%nat < n)%nat).
  { intros a Ha.
    assert (H : In (nth a p 0%nat) (seq 0 n))
      by (apply (Permutation_in _ Hp), nth_In; lia).
    apply in_seq in H. lia. }
  assert (Hsnap' : snapshot n (permute_vec p L) (permute_vec p V)
                     (permute_vec p R) (permute_mat p Sm)).
  { unfold snapshot. rewrite !permute_vec_length, <- Hlen.
    repeat split; try reflexivity; apply permute_mat_shape. }
  destruct (analyze_team_state_ok n L V R Sm kappa eps Hsnap)
    as (m & Hm & _ & HK & HD & HM & _).
  destruct (analyze_team_state_ok n _ _ _ _ kappa eps Hsnap')
    as (m' & Hm' & _ & HK' & HD' & HM' & _).
  destruct Hsnap as (HL & HV & HR & HS).
  pose proof (symmetric_everywhere n Sm HS Hsym) as Hsym'.
  exists m, m'. split; [exact Hm |]. split; [exact Hm' |].
  assert (HKeq : K_team m' == K_team m).
  { rewrite HK, HK'. unfold K_spec.
    rewrite <- (pair_sum_relabel n p
                  (fun i j => kappa * nth i (gravities L V R eps) 0
                              * nth j (gravities L V R eps) 0
                              * entry Sm i j)).
    2: { intros x y. cbv beta. rewrite (Hsym' x y). ring. }
    2: exact Hp.
    apply pair_sum_ext. intros a b Hab.
    rewrite !gravities_nth
      by (rewrite ?permute_vec_length, ?HL; first [lia | apply Hin; lia]).
    rewrite !permute_vec_nth by lia.
    rewrite permute_mat_entry by lia. reflexivity. }
  assert (HDeq : D_team m' == D_team m).
  { rewrite HD, HD'. unfold D_spec.
    apply Qplus_comp.
    - apply Qsum_perm. unfold permute_vec.
      apply perm_trans with (map (fun k => nth k R 0) (seq 0 n)).
      + apply Permutation_map. exact Hp.
      + rewrite <- HR, map_nth_seq. apply Permutation_refl.
    - rewrite <- (pair_sum_relabel n p (fun i j => 1 - entry Sm i j)).
      2: { intros x y. cbv beta. rewrite (Hsym' x y). reflexivity. }
      2: exact Hp.
      apply pair_sum_ext. intros a b Hab.
      rewrite permute_mat_entry by lia. reflexivity. }
  split; [exact HKeq |]. split; [exact HDeq |].
  rewrite HM, HM', HKeq, HDeq. reflexivity.
Qed.

Lemma example_S_sym_symmetric (i j : nat) :
  (i < 4)%nat -> (j < 4)%nat ->
  entry example_S_sym i j == entry example_S_sym j i.
Proof.
  intros Hi Hj.
  do 4 (destruct i as [|i];
        [ do 4 (destruct j as [|j]; [reflexivity |]); exfalso; lia |]).
  exfalso; lia.
Qed.

Lemma example_perm_permutation : Permutation example_perm (seq 0 4).
Proof.
  unfold example_perm. simpl.
  apply perm_trans with [0; 2; 3; 1]%nat; [apply perm_swap |].
  apply perm_skip.
  apply perm_trans with [2; 1; 3]%nat;
    [apply perm_skip, perm_swap |].
  apply perm_trans with [1; 2; 3]%nat; [apply perm_swap |].
  apply Permutation_refl.
Qed.

Lemma analyze_team_state_relabel_witness :
  snapshot 4 example_L example_V example_R example_S_sym
  /\ Permutation example_perm (seq 0 4)
  /\ exists m m',
       analyze_team_state example_L example_V example_R example_S_sym
         default_kappa default_eps = Ok m
       /\ analyze_team_state (permute_vec example_perm example_L)
            (permute_vec example_perm example_V)
            (permute_vec example_perm example_R)
            (permute_mat example_perm example_S_sym)
            default_kappa default_eps = Ok m'
       /\ Margin m' == Margin m.
Proof.
  assert (H1 : snapshot 4 example_L example_V example_R example_S_sym)
    by (unfold snapshot, shape2; repeat split; repeat constructor).
  split; [exact H1 |]. split; [exact example_perm_permutation |].
  destruct (analyze_team_state_relabel 4 example_L example_V example_R
              example_S_sym default_kappa default_eps example_perm H1
              example_S_sym_symmetric example_perm_permutation)
    as (m & m' & Hm & Hm' & _ & _ & HM).
  exists m, m'. split; [exact Hm |]. split; [exact Hm' | exact HM].
Defined.

(** ** The sensitivities are the slopes of the evaluator's margin *)

Lemma Qsum_plus {A : Type} (f g : A -> Q) (l : list A) :
  Qsum (map (fun x => f x + g x) l) == Qsum (map f l) + Qsum (map g l).
Proof.
  induction l as [|x l IH]; simpl; [ring |]. rewrite IH. ring.
Qed.

Lemma Qsum_scale {A : Type} (c : Q) (f : A -> Q) (l : list A) :
  Qsum (map (fun x => c * f x) l) == c * Qsum (map f l).
Proof.
  induction l as [|x l IH]; simpl; [ring |]. rewrite IH. ring.
Qed.

Lemma pair_sum_plus (n : nat) (f g : nat -> nat -> Q) :
  pair_sum n (fun a b => f a b + g a b) == pair_sum n f + pair_sum n g.
Proof.
  unfold pair_sum.
  apply (Qsum_plus (fun ij => f (fst ij) (snd ij))
                   (fun ij => g (fst ij) (snd ij))).
Qed.

Lemma Qsum_nth_change (l l' : list Q) (i : nat) (h : Q) :
  length l' = length l -> (i < length l)%nat ->
  nth i l' 0 == nth i l 0 + h ->
  (forall k, (k < length l)%nat -> k <> i -> nth k l' 0 == nth k l 0) ->
  Qsum l' == Qsum l + h.
Proof.
  revert l' i. induction l as [|x l IH]; intros [|y l'] i Hlen Hi Hy Hothers;
    simpl in Hlen, Hi; try lia.
  destruct i as [|i]; simpl in Hy |- *.
  - rewrite Hy.
    assert (Hrest : Qsum l' == Qsum l).
    { apply Qle_antisym; apply Qsum_le_nth; try lia; intros k Hk.
      - rewrite (Hothers (S k)); simpl; [apply Qle_refl | lia | lia].
      - rewrite (Hothers (S k)); simpl; [apply Qle_refl | lia | lia]. }
    rewrite Hrest. ring.
  - rewrite (IH l' i); [| lia | lia | exact Hy |].
    + rewrite (Hothers 0%nat); simpl; [ring | lia | lia].
    + intros k Hk Hne. apply (Hothers (S k)); simpl; lia.
Qed.

Lemma Qsum_single_change (l : list (nat * nat)) (p : nat * nat)
    (f f' : nat * nat -> Q) (d : Q) :
  NoDup l -> In p l ->
  f' p == f p + d ->
  (forall q, In q l -> q <> p -> f' q == f q) ->
  Qsum (map f' l) == Qsum (map f l) + d.
Proof.
  induction l as [|x l IH]; intros Hnd Hin Hp Hothers; [contradiction |].
  apply NoDup_cons_iff in Hnd. destruct Hnd as [Hx Hnd]. simpl.
  destruct (pair_eq_dec x p) as [-> | Hne].
  - rewrite Hp. rewrite (Qsum_ext f' f l); [ring |].
    intros q Hq. apply Hothers; [right; exact Hq |].
    intro Heq. subst q. contradiction.
  - destruct Hin as [Heq | Hin]; [contradiction |].
    rewrite (IH Hnd Hin Hp).
    + rewrite (Hothers x); [ring | left; reflexivity | exact Hne].
    + intros q Hq. apply Hothers. right. exact Hq.
Qed.

Lemma pair_sum_single_change (n i j : nat) (f f' : nat -> nat -> Q) (d : Q) :
  (i < j < n)%nat ->
  f' i j == f i j + d ->
  (forall a b, (a < b < n)%nat -> (a, b) <> (i, j) -> f' a b == f a b) ->
  pair_sum n f' == pair_sum n f + d.
Proof.
  intros Hij Hd Hothers. unfold pair_sum.
  apply (Qsum_single_change (pairs n) (i, j)
           (fun ij => f (fst ij) (snd ij)) (fun ij => f' (fst ij) (snd ij))).
  - apply NoDup_pairs.
  - apply in_pairs. exact Hij.
  - exact Hd.
  - intros [a b] Hin Hne. simpl. apply Hothers; [| exact Hne].
    apply in_pairs. exact Hin.
Qed.

(** X3. The margin is affine in each [S[i][j]], [i < j]: replacing
    [S[i][j]] by [S[i][j] + h] on a snapshot changes the margin by exactly
    [h * (kappa * G[i] * G[j] + 1)], the slope being the value the
    analyzer returns for the pair. *)
Lemma margin_slope_in_S (n : nat) (L V R : list Q) (Sm : list (list Q))
    (kappa eps : Q) (i j : nat) (h : Q) :
  snapshot n L V R Sm -> (i < j < n)%nat ->
  exists m m',
    analyze_team_state L V R Sm kappa eps = Ok m
    /\ analyze_team_state L V R (set2 Sm i j (entry Sm i j + h)) kappa eps
       = Ok m'
    /\ Margin m' - Margin m
       == h * (kappa * nth i (G m) 0 * nth j (G m) 0 + 1).
Proof.
  intros Hsnap Hij. pose proof Hsnap as (HL & HV & HR & HS).
  assert (HS' : shape2 n n (set2 Sm i j (entry Sm i j + h)))
    by (apply shape2_set2; [exact HS | lia | lia]).
  destruct (analyze_team_state_ok n L V R Sm kappa eps Hsnap)
    as (m & Hm & HG & HK & HD & HM & _).
  destruct (analyze_team_state_ok n L V R _ kappa eps
              (conj HL (conj HV (conj HR HS'))))
    as (m' & Hm' & _ & HK' & HD' & HM' & _).
  exists m, m'. split; [exact Hm |]. split; [exact Hm' |].
  assert (Hentry : forall a b,
            entry (set2 Sm i j (entry Sm i j + h)) a b
            = if ((a =? i) && (b =? j))%nat%bool
              then entry Sm i j + h else entry Sm a b)
    by (intros a b; apply (entry_set2 n); [exact HS | lia | lia]).
  assert (Hother : forall a b, (a, b) <> (i, j) ->
            entry (set2 Sm i j (entry Sm i j + h)) a b = entry Sm a b).
  { intros a b Hne. rewrite Hentry.
    destruct (Nat.eqb_spec a i) as [-> | Ha]; [| reflexivity].
    destruct (Nat.eqb_spec b j) as [-> | Hb]; [| reflexivity].
    contradiction. }
  assert (Hhere : entry (set2 Sm i j (entry Sm i j + h)) i j
                  = entry Sm i j + h)
    by (rewrite Hentry, !Nat.eqb_refl; reflexivity).
  set (g := gravities L V R eps) in *.
  assert (HKd : K_team m' == K_team m + kappa * nth i g 0 * nth j g 0 * h).
  { rewrite HK, HK'. unfold K_spec.
    apply (pair_sum_single_change n i j); [exact Hij | |].
    - rewrite Hhere. ring.
    - intros a b _ Hne. rewrite (Hother a b Hne). reflexivity. }
  assert (HDd : D_team m' == D_team m - h).
  { rewrite HD, HD'. unfold D_spec.
    rewrite (pair_sum_single_change n i j
               (fun a b => 1 - entry Sm a b)
               (fun a b => 1 - entry (set2 Sm i j (entry Sm i j + h)) a b)
               (- h) Hij).
    - ring.
    - rewrite Hhere. ring.
    - intros a b _ Hne. rewrite (Hother a b Hne). reflexivity. }
  rewrite HM, HM', HKd, HDd, HG. ring.
Qed.

Lemma margin_slope_in_S_witness :
  snapshot 4 example_L example_V example_R example_S
  /\ exists m m',
       analyze_team_state example_L example_V example_R example_S
         default_kappa default_eps = Ok m
       /\ analyze_team_state example_L example_V example_R
            (set2 example_S 0 1 (entry example_S 0 1 + (1 # 10)))
            default_kappa default_eps = Ok m'
       /\ Margin m' - Margin m
          == (1 # 10) * (default_kappa * nth 0 (G m) 0 * nth 1 (G m) 0 + 1).
Proof.
  split; [exact example_snapshot |].
  apply (margin_slope_in_S 4 example_L example_V example_R example_S
           default_kappa default_eps 0 1 (1 # 10) example_snapshot).
  lia.
Defined.

Lemma filter_all {A : Type} (f : A -> bool) (l : list A) :
  (forall x, In x l -> f x = true) -> filter f l = l.
Proof.
  induction l as [|x l IH]; intro H; simpl; [reflexivity |].
  rewrite (H x (or_introl eq_refl)), IH; [reflexivity |].
  intros y Hy. apply H. right. exact Hy.
Qed.

Lemma perm_move_front (l : list nat) (x : nat) :
  NoDup l -> In x l ->
  Permutation l (x :: filter (fun j => negb (x =? j)%nat) l).
Proof.
  induction l as [|y t IH]; intros Hnd Hin; [contradiction |].
  apply NoDup_cons_iff in Hnd. destruct Hnd as [Hy Hnd]. simpl.
  destruct (Nat.eqb_spec x y) as [-> | Hne]; simpl.
  - rewrite filter_all; [apply Permutation_refl |].
    intros z Hz. destruct (Nat.eqb_spec y z) as [-> | _];
      [contradiction | reflexivity].
  - destruct Hin as [Heq | Hin]; [congruence |].
    apply perm_trans with (y :: x :: filter (fun j => negb (x =? j)%nat) t).
    + apply perm_skip. apply IH; assumption.
    + apply perm_swap.
Qed.

Lemma list_pair_sum_zero (f : nat -> nat -> Q) (l : list nat) :
  (forall a b, In a l -> In b l -> f a b == 0) -> list_pair_sum f l == 0.
Proof.
  induction l as [|x l IH]; intro H; simpl; [reflexivity |].
  rewrite IH by (intros a b Ha Hb; apply H; right; assumption).
  rewrite Qsum_zero; [ring |].
  intros y Hy. apply H; [left; reflexivity | right; exact Hy].
Qed.

(** The pairs that contain node [i], summed from [i]'s side. *)
Lemma pair_sum_star (n i : nat) (u : nat -> Q) :
  (i < n)%nat ->
  pair_sum n (fun a b => (if (a =? i)%nat then u b else 0)
                         + (if (b =? i)%nat then u a else 0))
  == Qsum (map u (filter (fun j => negb (i =? j)%nat) (seq 0 n))).
Proof.
  intro Hi. rewrite pair_sum_list.
  rewrite (list_pair_sum_perm _ (seq 0 n)
             (i :: filter (fun j => negb (i =? j)%nat) (seq 0 n))).
  - simpl. rewrite list_pair_sum_zero.
    + rewrite Qplus_0_r. apply Qsum_ext. intros y Hy.
      apply filter_In in Hy. destruct Hy as [_ Hy].
      rewrite Nat.eqb_refl.
      destruct (Nat.eqb_spec y i) as [-> | _].
      * rewrite Nat.eqb_refl in Hy. discriminate.
      * ring.
    + intros a b Ha Hb.
      apply filter_In in Ha. destruct Ha as [_ Ha].
      apply filter_In in Hb. destruct Hb as [_ Hb].
      destruct (Nat.eqb_spec a i) as [-> | _];
        [rewrite Nat.eqb_refl in Ha; discriminate |].
      destruct (Nat.eqb_spec b i) as [-> | _];
        [rewrite Nat.eqb_refl in Hb; discriminate |].
      ring.
  - intros x y. ring.
  - apply perm_move_front; [apply seq_NoDup | apply in_seq; lia].
Qed.

Lemma gravity_compat (l v r r' eps : Q) :
  r' == r -> gravity l v r' eps == gravity l v r eps.
Proof. intro H. unfold gravity. rewrite H. reflexivity. Qed.

(** X4. For a symmetric [S], moving [R[i]] by [h] (the denominators
    [R[i] + eps] and [R[i] + h + eps] not being zero) changes the margin by
    [h * (interaction_sum[i] * (-(L[i]^2 * V[i]))
          / ((R[i] + eps) * (R[i] + h + eps)) - 1)]:
    a secant slope that at [h = 0] is the value the analyzer returns for
    the node. *)
Lemma margin_slope_in_R (n : nat) (L V R R' : list Q) (Sm : list (list Q))
    (kappa eps : Q) (i : nat) (h : Q) :
  snapshot n L V R Sm ->
  (forall a b, (a < n)%nat -> (b < n)%nat -> entry Sm a b == entry Sm b a) ->
  (i < n)%nat ->
  length R' = n ->
  nth i R' 0 == nth i R 0 + h ->
  (forall k, (k < n)%nat -> k <> i -> nth k R' 0 == nth k R 0) ->
  ~ nth i R 0 + eps == 0 ->
  ~ nth i R 0 + h + eps == 0 ->
  exists m m',
    analyze_team_state L V R Sm kappa eps = Ok m
    /\ analyze_team_state L V R' Sm kappa eps = Ok m'
    /\ Margin m' - Margin m
       == h * (interaction_spec n (G m) Sm kappa i
               * ((- ((nth i L 0) ^ 2 * nth i V 0))
                  / ((nth i R 0 + eps) * (nth i R 0 + h + eps)))
               - 1).
Proof.
  intros Hsnap Hsym Hi HR' Hih Hsame Hne0 Hne1.
  pose proof Hsnap as (HL & HV & HR & HS).
  destruct (analyze_team_state_ok n L V R Sm kappa eps Hsnap)
    as (m & Hm & HG & HK & HD & HM & _).
  destruct (analyze_team_state_ok n L V R' Sm kappa eps
              (conj HL (conj HV (conj HR' HS))))
    as (m' & Hm' & _ & HK' & HD' & HM' & _).
  exists m, m'. split; [exact Hm |]. split; [exact Hm' |].
  set (g := gravities L V R eps) in *.
  set (g' := gravities L V R' eps) in *.
  set (delta := nth i g' 0 - nth i g 0).
  assert (Hgk : forall k, (k < n)%nat -> k <> i -> nth k g' 0 == nth k g 0).
  { intros k Hk Hne. unfold g, g'. rewrite !gravities_nth by lia.
    apply gravity_compat. apply Hsame; assumption. }
  assert (Hdelta : delta ==
            h * ((- ((nth i L 0) ^ 2 * nth i V 0))
                 / ((nth i R 0 + eps) * (nth i R 0 + h + eps)))).
  { unfold delta, g, g'. rewrite !gravities_nth by lia.
    rewrite (gravity_compat (nth i L 0) (nth i V 0) (nth i R 0 + h)
               (nth i R' 0) eps Hih).
    unfold gravity. field. split; assumption. }
  assert (HDd : D_team m' == D_team m + h).
  { rewrite HD, HD'. unfold D_spec.
    rewrite (Qsum_nth_change R R' i h); [ring | congruence | lia | exact Hih |].
    intros k Hk Hne. apply Hsame; [lia | exact Hne]. }
  assert (HKd : K_team m'
                == K_team m + delta * interaction_spec n g Sm kappa i).
  { rewrite HK, HK'. unfold K_spec, interaction_spec.
    rewrite <- Qsum_scale, <- Qsum_scale.
    rewrite <- (pair_sum_star n i
                  (fun j => delta * (kappa * (entry Sm i j * nth j g 0))) Hi).
    rewrite <- pair_sum_plus. apply pair_sum_ext. intros a b Hab.
    pose proof (symmetric_everywhere n Sm HS Hsym) as Hsym'.
    destruct (Nat.eqb_spec a i) as [Ha | Ha];
      destruct (Nat.eqb_spec b i) as [Hb | Hb].
    - lia.
    - subst a. rewrite (Hgk b) by lia.
      unfold delta. ring.
    - subst b. rewrite (Hgk a) by lia. rewrite (Hsym' i a).
      unfold delta. ring.
    - rewrite (Hgk a), (Hgk b) by lia. ring. }
  rewrite HM, HM', HKd, HDd, Hdelta, HG. ring.
Qed.

Lemma margin_slope_in_R_witness :
  snapshot 4 example_L example_V example_R example_S_sym
  /\ nth 1 example_R_raised 0 == nth 1 example_R 0 + (2 # 10)
  /\ exists m m',
       analyze_team_state example_L example_V example_R example_S_sym
         default_kappa default_eps = Ok m
       /\ analyze_team_state example_L example_V example_R_raised
            example_S_sym default_kappa default_eps = Ok m'
       /\ Margin m' - Margin m
          == (2 # 10)
             * (interaction_spec 4 (G m) example_S_sym default_kappa 1
                * ((- ((nth 1 example_L 0) ^ 2 * nth 1 example_V 0))
                   / ((nth 1 example_R 0 + default_eps)
                      * (nth 1 example_R 0 + (2 # 10) + default_eps)))
                - 1).
Proof.
  assert (H1 : snapshot 4 example_L example_V example_R example_S_sym)
    by (unfold snapshot, shape2; repeat split; repeat constructor).
  assert (H2 : nth 1 example_R_raised 0 == nth 1 example_R 0 + (2 # 10))
    by (vm_compute; reflexivity).
  split; [exact H1 |]. split; [exact H2 |].
  apply (margin_slope_in_R 4 example_L example_V example_R example_R_raised
           example_S_sym default_kappa default_eps 1 (2 # 10) H1
           example_S_sym_symmetric).
  - lia.
  - reflexivity.
  - exact H2.
  - intros k Hk Hne.
    do 4 (destruct k as [|k]; [try (exfalso; lia); reflexivity |]).
    exfalso; lia.
  - vm_compute. discriminate.
  - vm_compute. discriminate.
Defined.

(** ** C8: the worst-case scenarios on the four-node example *)

(** The example matrix is the one [__main__] builds. *)
Example example_S_built :
  (M1 <- setitem2 (repeat (repeat (1 * (5 # 10)) 4) 4) 0 1 (8 # 10) ;;
   M2 <- setitem2 M1 0 2 (3 # 10) ;;
   setitem2 M2 1 2 (2 # 10))
  = Ok example_S.
Proof. vm_compute. reflexivity. Qed.

(** The base metrics of the example: [K = 325088 / 3], [D = 6]. *)
Example example_base_metrics :
  exists m,
    analyze_team_state example_L example_V example_R example_S
      default_kappa default_eps = Ok m
    /\ K_team m == 325088 # 3
    /\ D_team m == 6
    /\ Margin m == 325070 # 3
    /\ Is_Stable m = true.
Proof.
  eexists. split; [vm_compute; reflexivity |].
  repeat split; vm_compute; reflexivity.
Qed.


(** The figures of the example run: node 0 has the highest gravity, the
    strongest edge is (0, 3), and the node exit is the largest drop. *)
Example worst_case_example_values :
  exists results base,
    run_worst_case_scenarios example_L example_V example_R example_S
      default_kappa default_eps = Ok (results, base)
    /\ base == 325070 # 3
    /\ map (fun kv => Description (snd kv)) results
       = [ "Strongest Edge (0-3) S -40%"; "Top Node (0) R +0.6";
           "Top Node (0) Removed" ]%string
    /\ map (fun kv => Qred (Margin_Drop (snd kv))) results
       = [ 110593 # 5; 976969 # 15; 488472 # 5 ]
    /\ map (fun kv => Qred (New_Margin (snd kv))) results
       = [ 1293571 # 15; 216127 # 5; 159934 # 15 ].
Proof.
  eexists. eexists. split; [vm_compute; reflexivity |].
  repeat split; vm_compute; reflexivity.
Qed.

(** ** C9: the report and the name it does not define *)

Lemma list_mapM_ok {A B : Type} (f : A -> result B) (g : A -> B)
    (xs : list A) :
  (forall x, In x xs -> f x = Ok (g x)) -> list_mapM f xs = Ok (map g xs).
Proof.
  induction xs as [|x xs IH]; intro H; simpl; [reflexivity |].
  rewrite (H x (or_introl eq_refl)). cbn [bind].
  rewrite IH by (intros y Hy; apply H; right; exact Hy). reflexivity.
Qed.

Lemma broadcast2_square (op : Q -> Q -> Q) (n : nat) (A B : list (list Q)) :
  shape2 n n A -> shape2 n n B ->
  exists C, broadcast2 op A B = Ok C /\ shape2 n n C.
Proof.
  intros [HA HAr] [HB HBr]. unfold broadcast2.
  rewrite (proj2 (Nat.eqb_eq _ _)) by congruence.
  rewrite Forall_forall in HAr, HBr.
  exists (map (fun ab => map (fun p => op (fst p) (snd p))
                             (combine (fst ab) (snd ab)))
              (combine A B)).
  split.
  - apply list_mapM_ok. intros [ra rb] Hin. simpl.
    apply broadcast_same.
    rewrite (HAr ra (in_combine_l _ _ _ _ Hin)).
    rewrite (HBr rb (in_combine_r _ _ _ _ Hin)). reflexivity.
  - split.
    + rewrite length_map, length_combine. lia.
    + rewrite Forall_map. apply Forall_forall. intros [ra rb] Hin. simpl.
      rewrite length_zip.
      * apply (HAr ra (in_combine_l _ _ _ _ Hin)).
      * rewrite (HAr ra (in_combine_l _ _ _ _ Hin)).
        rewrite (HBr rb (in_combine_r _ _ _ _ Hin)). reflexivity.
Qed.

Lemma shape2_map (f : Q -> Q) (r c : nat) (M : list (list Q)) :
  shape2 r c M -> shape2 r c (map (map f) M).
Proof.
  intros [Hr Hc]. split.
  - rewrite length_map. exact Hr.
  - rewrite Forall_map. rewrite Forall_forall in *.
    intros row Hrow. rewrite length_map. apply Hc. exact Hrow.
Qed.

Lemma shape2_transpose (n : nat) (M : list (list Q)) :
  shape2 n n M -> shape2 n n (transpose M).
Proof.
  intros [Hr Hc]. unfold transpose.
  destruct M as [|row0 M'] eqn:HM.
  - simpl in Hr. subst n. split; [reflexivity | constructor].
  - rewrite <- HM in *. assert (Hrow0 : length row0 = n).
    { rewrite Forall_forall in Hc. apply Hc. rewrite HM. left. reflexivity. }
    split.
    + rewrite length_map, length_seq. exact Hrow0.
    + rewrite Forall_map. apply Forall_forall. intros j _.
      rewrite length_map. exact Hr.
Qed.

Lemma random_normal_ok (normal : nat -> Q) (cursor : nat) (scale : Q)
    (n : nat) :
  0 <= scale ->
  random_normal normal cursor scale n = Ok (normal_draws normal cursor scale n).
Proof.
  intro H. unfold random_normal.
  destruct (Qltb scale 0) eqn:Hneg; [| reflexivity].
  apply Qltb_lt in Hneg. lra.
Qed.

Lemma random_normal2_ok (normal : nat -> Q) (cursor : nat) (scale : Q)
    (n : nat) :
  0 <= scale ->
  random_normal2 normal cursor scale n
  = Ok (normal_draws2 normal cursor scale n).
Proof.
  intro H. unfold random_normal2.
  destruct (Qltb scale 0) eqn:Hneg; [| reflexivity].
  apply Qltb_lt in Hneg. lra.
Qed.

Lemma random_normal_raises (normal : nat -> Q) (cursor : nat) (scale : Q)
    (n : nat) :
  scale < 0 -> random_normal normal cursor scale n = Raise ValueError.
Proof.
  intro H. unfold random_normal.
  rewrite (proj2 (Qltb_lt scale 0) H). reflexivity.
Qed.

Lemma normal_draws_length (normal : nat -> Q) (cursor : nat) (scale : Q)
    (n : nat) :
  length (normal_draws normal cursor scale n) = n.
Proof. unfold normal_draws. rewrite length_map, length_seq. reflexivity. Qed.

Lemma normal_draws2_shape (normal : nat -> Q) (cursor : nat) (scale : Q)
    (n : nat) :
  shape2 n n (normal_draws2 normal cursor scale n).
Proof.
  unfold normal_draws2. split.
  - rewrite length_map, length_seq. reflexivity.
  - rewrite Forall_map. apply Forall_forall. intros i _.
    apply normal_draws_length.
Qed.

Lemma monte_carlo_trial_ok (normal : nat -> Q) (n : nat) (L V R : list Q)
    (Sm : list (list Q)) (noise_scale : Q) (st : nat * list Q * nat) :
  snapshot n L V R Sm -> 0 <= noise_scale ->
  exists st',
    monte_carlo_trial normal L V R Sm noise_scale st = Ok st'
    /\ length (snd (fst st')) = S (length (snd (fst st))).
Proof.
  intros (HL & HV & HR & HS) Hns. destruct st as [[cursor margins] cnt].
  unfold monte_carlo_trial. cbv zeta. rewrite HL.
  rewrite random_normal_ok by lra. cbn [bind].
  rewrite (broadcast_same Qplus L)
    by (rewrite normal_draws_length; exact HL). cbn [bind].
  rewrite random_normal_ok by lra. cbn [bind].
  rewrite (broadcast_same Qplus V)
    by (rewrite normal_draws_length; exact HV). cbn [bind].
  rewrite random_normal_ok by lra. cbn [bind].
  rewrite (broadcast_same Qplus R)
    by (rewrite normal_draws_length; exact HR). cbn [bind].
  rewrite random_normal2_ok by lra. cbn [bind].
  destruct (broadcast2_square Qplus n Sm
              (normal_draws2 normal (cursor + n + n + n)
                 (noise_scale * (5 # 10)) n) HS
              (normal_draws2_shape _ _ _ _)) as (S1 & HS1 & Hshape1).
  rewrite HS1. cbn [bind].
  pose proof (shape2_map (clip 0 1) n n S1 Hshape1) as Hclip.
  destruct (broadcast2_square Qplus n _ _ Hclip
              (shape2_transpose n _ Hclip)) as (S2 & HS2 & Hshape2).
  rewrite HS2. cbn [bind].
  pose proof (shape2_map (fun x => x / 2) n n S2 Hshape2) as Hhalf.
  destruct (analyze_team_state_ok n
              (map (Qmax 0) (map (fun p => fst p + snd p)
                 (combine L (normal_draws normal cursor
                               (noise_scale * 2) n))))
              (map (Qmax 0) (map (fun p => fst p + snd p)
                 (combine V (normal_draws normal (cursor + n)
                               (noise_scale * 2) n))))
              (map (Qmax 0) (map (fun p => fst p + snd p)
                 (combine R (normal_draws normal (cursor + n + n)
                               (noise_scale * (5 # 10)) n))))
              (map (map (fun x => x / 2)) S2) default_kappa default_eps)
    as (m & Hm & _).
  { unfold snapshot.
    rewrite !length_map, !length_combine, !normal_draws_length.
    rewrite HL, HV, HR, !Nat.min_id. repeat split; try reflexivity;
      apply Hhalf. }
  rewrite Hm. cbn [bind].
  eexists. split; [reflexivity |]. simpl.
  rewrite length_app. simpl. lia.
Qed.

Lemma for_range_counted {St : Type} (Inv : nat -> St -> Prop)
    (xs : list nat) (body : nat -> St -> result St) :
  (forall x s k, Inv k s -> exists s', body x s = Ok s' /\ Inv (S k) s') ->
  forall k s, Inv k s ->
    exists s', for_range xs body s = Ok s' /\ Inv (k + length xs)%nat s'.
Proof.
  intro Hbody. induction xs as [|x xs IH]; intros k s Hs; simpl.
  - exists s. rewrite Nat.add_0_r. split; [reflexivity | exact Hs].
  - destruct (Hbody x s k Hs) as (s1 & Hs1 & Hinv). rewrite Hs1. cbn [bind].
    destruct (IH (S k) s1 Hinv) as (s2 & Hs2 & Hinv2).
    exists s2. split; [exact Hs2 |].
    replace (k + S (length xs))%nat with (S k + length xs)%nat by lia.
    exact Hinv2.
Qed.

Lemma run_monte_carlo_simulation_ok (normal : nat -> Q) (n : nat)
    (L V R : list Q) (Sm : list (list Q)) (iterations : nat)
    (noise_scale : Q) :
  snapshot n L V R Sm -> (0 < iterations)%nat -> 0 <= noise_scale ->
  exists mc_res,
    run_monte_carlo_simulation normal L V R Sm iterations noise_scale
    = Ok mc_res.
Proof.
  intros Hsnap Hit Hns. unfold run_monte_carlo_simulation.
  destruct (for_range_counted
              (fun k (st : nat * list Q * nat) => length (snd (fst st)) = k)
              (range 0 iterations)
              (fun _ st => monte_carlo_trial normal L V R Sm noise_scale st))
    with (k := 0%nat) (s := (0%nat, @nil Q, 0%nat))
    as (st & Hst & Hlen).
  - intros _ s k Hs.
    destruct (monte_carlo_trial_ok normal n L V R Sm noise_scale s Hsnap Hns)
      as (s' & Hs' & Hlen').
    exists s'. split; [exact Hs' | congruence].
  - reflexivity.
  - rewrite Hst. cbn [bind]. destruct st as [[cursor margins] cnt].
    unfold range in Hlen. rewrite length_seq in Hlen. simpl in Hlen.
    destruct margins as [|x t]; [simpl in Hlen; lia |].
    eexists. reflexivity.
Qed.

Lemma for_range_inv {St : Type} (P : St -> Prop) (xs : list nat)
    (body : nat -> St -> result St) :
  (forall x s, In x xs -> P s -> exists s', body x s = Ok s' /\ P s') ->
  forall s, P s -> exists s', for_range xs body s = Ok s' /\ P s'.
Proof.
  induction xs as [|x xs IH]; intros H s Hs; simpl.
  - exists s. split; [reflexivity | exact Hs].
  - destruct (H x s (or_introl eq_refl) Hs) as (s1 & Hs1 & HP).
    rewrite Hs1. cbn [bind].
    apply IH; [| exact HP]. intros y s' Hy. apply H. right. exact Hy.
Qed.

Lemma argmax_from_lt (a : list Q) (k : nat) (best : Q) (best_idx : nat) :
  (best_idx < k)%nat -> (argmax_from a k best best_idx < k + length a)%nat.
Proof.
  revert k best best_idx.
  induction a as [|x t IH]; intros k best best_idx H; simpl.
  - lia.
  - destruct (Qgtb x best).
    + specialize (IH (S k) x k). lia.
    + specialize (IH (S k) best best_idx). lia.
Qed.

Lemma argmax_ok (a : list Q) :
  (0 < length a)%nat -> exists idx, argmax a = Ok idx /\ (idx < length a)%nat.
Proof.
  destruct a as [|x t]; simpl; intro H; [lia |].
  eexists. split; [reflexivity |].
  pose proof (argmax_from_lt t 1 x 0). lia.
Qed.

Lemma find_strongest_edge_ok (n : nat) (g : list Q) (Sm : list (list Q))
    (kappa : Q) :
  length g = n -> shape2 n n Sm -> (2 <= n)%nat ->
  exists k u v,
    find_strongest_edge n g Sm kappa = Ok (k, (u, v))
    /\ (u < n)%nat /\ (v < n)%nat.
Proof.
  intros Hg HS Hn. unfold find_strongest_edge.
  destruct (for_range_inv
    (fun st : Q * (nat * nat) =>
       (fst (snd st) < n)%nat /\ (snd (snd st) < n)%nat)
    (range 0 n)
    (fun i st =>
      for_range (range (i + 1) n) (fun j st =>
        Gi <- getitem g i ;;
        Gj <- getitem g j ;;
        Sij <- getitem2 Sm i j ;;
        let k := kappa * Gi * Gj * Sij in
        if Qgtb k (fst st) then Ok (k, (i, j)) else Ok st) st))
    with (s := (- (1), (0%nat, 1%nat))) as ([k [u v]] & Hfind & Hu & Hv).
  - intros i st Hi Hst. apply in_range in Hi.
    apply for_range_inv; [| exact Hst].
    intros j st' Hj Hst'. apply in_range in Hj.
    rewrite (getitem_nth g i) by lia. cbn [bind].
    rewrite (getitem_nth g j) by lia. cbn [bind].
    rewrite (getitem2_entry n n Sm i j HS) by lia. cbn [bind]. cbv zeta.
    destruct (Qgtb _ (fst st')).
    + eexists. split; [reflexivity |]. simpl. lia.
    + eexists. split; [reflexivity | exact Hst'].
  - simpl. lia.
  - exists k, u, v. simpl in Hu, Hv. split; [exact Hfind |].
    split; assumption.
Qed.

Lemma setitem_ok {A : Type} (a : list A) (i : nat) (v : A) :
  (i < length a)%nat ->
  exists a', setitem a i v = Ok a' /\ length a' = length a.
Proof.
  intro Hi. unfold setitem. rewrite (proj2 (Nat.ltb_lt _ _) Hi).
  eexists. split; [reflexivity |]. apply length_update. exact Hi.
Qed.

(** A mask with exactly one [false], at position [i]. *)
Lemma filter_all_true {A : Type} (a : list A) :
  map fst (filter snd (combine a (repeat true (length a)))) = a.
Proof.
  induction a as [|x t IH]; simpl; [reflexivity |]. rewrite IH. reflexivity.
Qed.

Lemma mask_one_false_length {A : Type} (a : list A) (i : nat) :
  (i < length a)%nat ->
  length (map fst (filter snd
            (combine a (firstn i (repeat true (length a))
                        ++ false :: skipn (i + 1) (repeat true (length a))))))
  = (length a - 1)%nat.
Proof.
  revert i. induction a as [|x t IH]; intros i Hi; simpl in Hi; [lia |].
  destruct i as [|i]; simpl.
  - rewrite filter_all_true. lia.
  - rewrite (IH i) by lia. lia.
Qed.

Lemma mask_getitem_one_false {A : Type} (n : nat) (a : list A) (i : nat)
    (mask : list bool) :
  length a = n -> (i < n)%nat ->
  setitem (repeat true n) i false = Ok mask ->
  mask_getitem a mask = Ok (map fst (filter snd (combine a mask)))
  /\ length (map fst (filter snd (combine a mask))) = (n - 1)%nat.
Proof.
  intros Ha Hi Hmask. unfold setitem in Hmask.
  rewrite repeat_length, (proj2 (Nat.ltb_lt _ _) Hi) in Hmask.
  inversion Hmask as [Hm]. clear Hmask.
  unfold mask_getitem.
  rewrite length_update by (rewrite repeat_length; exact Hi).
  rewrite repeat_length, (proj2 (Nat.eqb_eq _ _) Ha).
  split; [reflexivity |].
  subst n. apply mask_one_false_length. exact Hi.
Qed.

Lemma In_mask_selected {A : Type} (a : list A) (mask : list bool) (x : A) :
  In x (map fst (filter snd (combine a mask))) -> In x a.
Proof.
  intro H. apply in_map_iff in H. destruct H as [[y b] [Heq Hin]].
  simpl in Heq. subst y. apply filter_In in Hin. destruct Hin as [Hin _].
  apply (in_combine_l _ _ _ _ Hin).
Qed.

Lemma mask_submatrix_ok (n : nat) (Sm : list (list Q)) (i : nat)
    (mask : list bool) :
  shape2 n n Sm -> (i < n)%nat ->
  setitem (repeat true n) i false = Ok mask ->
  exists S_rem,
    (S_rows <- mask_getitem Sm mask ;; mask_columns S_rows mask) = Ok S_rem
    /\ shape2 (n - 1) (n - 1) S_rem.
Proof.
  intros [Hr Hc] Hi Hmask.
  destruct (mask_getitem_one_false n Sm i mask Hr Hi Hmask) as [Hrows Hlen].
  rewrite Hrows. cbn [bind]. unfold mask_columns.
  rewrite Forall_forall in Hc.
  exists (map (fun row => map fst (filter snd (combine row mask)))
              (map fst (filter snd (combine Sm mask)))).
  split.
  - apply list_mapM_ok. intros row Hrow.
    apply (mask_getitem_one_false n row i mask); [| exact Hi | exact Hmask].
    apply Hc. apply (In_mask_selected _ _ _ Hrow).
  - split.
    + rewrite length_map. exact Hlen.
    + rewrite Forall_map. apply Forall_forall. intros row Hrow.
      apply (mask_getitem_one_false n row i mask); [| exact Hi | exact Hmask].
      apply Hc. apply (In_mask_selected _ _ _ Hrow).
Qed.

Lemma run_worst_case_scenarios_ok (n : nat) (L V R : list Q)
    (Sm : list (list Q)) (kappa eps : Q) :
  snapshot n L V R Sm -> (2 <= n)%nat ->
  exists results base,
    run_worst_case_scenarios L V R Sm kappa eps = Ok (results, base)
    /\ map fst results = [ "Edge_Break"; "R_Spike"; "Node_Exit" ]%string
    /\ Forall (fun kv =>
                 Margin_Drop (snd kv) = base - New_Margin (snd kv)) results.
Proof.
  intros Hsnap Hn. pose proof Hsnap as (HL & HV & HR & HS).
  unfold run_worst_case_scenarios.
  destruct (analyze_team_state_ok n L V R Sm kappa eps Hsnap)
    as (m & Hm & HG & _).
  rewrite Hm. cbn [bind]. cbv zeta. rewrite HL.
  assert (Hglen : length (G m) = n)
    by (rewrite HG, gravities_length; exact HL).
  destruct (argmax_ok (G m)) as (top & Htop & Htoplt); [lia |].
  rewrite Htop. cbn [bind]. rewrite Hglen in Htoplt.
  destruct (find_strongest_edge_ok n (G m) Sm kappa Hglen HS Hn)
    as (k & u & v & Hedge & Hu & Hv).
  rewrite Hedge. cbn [bind]. simpl fst. simpl snd.
  rewrite (getitem2_entry n n Sm u v HS Hu Hv). cbn [bind].
  rewrite (setitem2_set2 n Sm u v _ HS Hu Hv). cbn [bind].
  pose proof (shape2_set2 n Sm u v (entry Sm u v * (6 # 10)) HS Hu Hv) as HS1.
  rewrite (getitem2_entry n n _ v u HS1 Hv Hu). cbn [bind].
  rewrite (setitem2_set2 n _ v u _ HS1 Hv Hu). cbn [bind].
  match goal with
  | |- context [analyze_team_state L V R ?M kappa eps] =>
      destruct (analyze_team_state_ok n L V R M kappa eps)
        as (ma & Hma & _)
  end.
  { split; [exact HL | split; [exact HV | split; [exact HR |]]].
    apply shape2_set2; assumption. }
  rewrite Hma. cbn [bind].
  rewrite (getitem_nth R top) by lia. cbn [bind].
  destruct (setitem_ok R top (nth top R 0 + (6 # 10))) as (Rs & HRs & HRslen);
    [lia |].
  rewrite HRs. cbn [bind].
  destruct (analyze_team_state_ok n L V Rs Sm kappa eps) as (mb & Hmb & _).
  { split; [exact HL | split; [exact HV | split; [congruence | exact HS]]]. }
  rewrite Hmb. cbn [bind].
  destruct (setitem_ok (repeat true n) top false) as (mask & Hmask & _);
    [rewrite repeat_length; exact Htoplt |].
  rewrite Hmask. cbn [bind].
  destruct (mask_getitem_one_false n L top mask HL Htoplt Hmask) as [HLr HLl].
  destruct (mask_getitem_one_false n V top mask HV Htoplt Hmask) as [HVr HVl].
  destruct (mask_getitem_one_false n R top mask HR Htoplt Hmask) as [HRr HRl].
  rewrite HLr. cbn [bind]. rewrite HVr. cbn [bind]. rewrite HRr. cbn [bind].
  destruct (mask_submatrix_ok n Sm top mask HS Htoplt Hmask)
    as (S_rem & HSrem & HSshape).
  destruct (mask_getitem Sm mask) as [S_rows | e] eqn:Hrows;
    cbn [bind] in HSrem; [| discriminate].
  cbn [bind]. rewrite HSrem. cbn [bind].
  match goal with
  | |- context [analyze_team_state ?L' ?V' ?R' S_rem kappa eps] =>
      destruct (analyze_team_state_ok (n - 1) L' V' R' S_rem kappa eps)
        as (mc & Hmc & _)
  end.
  { split; [exact HLl | split; [exact HVl | split; [exact HRl |]]].
    exact HSshape. }
  rewrite Hmc. cbn [bind].
  eexists. eexists. split; [reflexivity |].
  split; [reflexivity |].
  repeat constructor.
Qed.

(** Without a module-level [base_metrics] the report stops with
    [NameError] after the Monte Carlo block, on every snapshot of at least
    two nodes, whatever the random draws and the float formatting. *)
Lemma print_stress_report_without_global (normal : nat -> Q)
    (format : string -> Q -> string) (n : nat) (L V R : list Q)
    (Sm : list (list Q)) (names : list string) :
  snapshot n L V R Sm -> (2 <= n)%nat ->
  snd (print_stress_report normal format None L V R Sm names)
  = Raise NameError.
Proof.
  intros Hsnap Hn. unfold print_stress_report.
  destruct (run_monte_carlo_simulation_ok normal n L V R Sm 5000 (1 # 10)
              Hsnap) as (mc_res & Hmc); [lia | vm_compute; discriminate |].
  rewrite Hmc.
  destruct (run_worst_case_scenarios_ok n L V R Sm default_kappa default_eps
              Hsnap Hn) as (results & base & Hwc & _).
  rewrite Hwc. reflexivity.
Qed.

(** With the binding that [__main__] creates before the call, the same
    report runs to its end. *)
Lemma print_stress_report_with_global (normal : nat -> Q)
    (format : string -> Q -> string) (n : nat) (L V R : list Q)
    (Sm : list (list Q)) (names : list string) (base_metrics : metrics) :
  snapshot n L V R Sm -> (2 <= n)%nat ->
  snd (print_stress_report normal format (Some base_metrics) L V R Sm names)
  = Ok tt.
Proof.
  intros Hsnap Hn. unfold print_stress_report.
  destruct (run_monte_carlo_simulation_ok normal n L V R Sm 5000 (1 # 10)
              Hsnap) as (mc_res & Hmc); [lia | vm_compute; discriminate |].
  rewrite Hmc.
  destruct (run_worst_case_scenarios_ok n L V R Sm default_kappa default_eps
              Hsnap Hn) as (results & base & Hwc & Hkeys & _).
  rewrite Hwc. cbv zeta.
  destruct results as [|r1 results]; [discriminate Hkeys |].
  simpl sorted_desc.
  destruct (sorted_desc (fun kv : string * scenario => Margin_Drop (snd kv))
              results) as [|y t]; simpl.
  - reflexivity.
  - destruct (Qle_bool (Margin_Drop (snd y)) (Margin_Drop (snd r1)));
      reflexivity.
Qed.

(** C9 fails on the code.  Called on the four-node example from a module
    that has no global [base_metrics] -- any caller other than the
    script's own [__main__] block -- the report raises [NameError] at the
    line that prints the base margin, for every outcome of the random
    draws. *)
Theorem print_stress_report_raises (normal : nat -> Q)
    (format : string -> Q -> string) (names : list string) :
  snd (print_stress_report normal format None
         example_L example_V example_R example_S names)
  = Raise NameError.
Proof.
  apply (print_stress_report_without_global normal format 4).
  - exact example_snapshot.
  - lia.
Qed.

(** * Further properties of the engine *)

(** ** Signs *)

Lemma Forall_nonneg_nth (l : list Q) (i : nat) :
  Forall (Qle 0) l -> 0 <= nth i l 0.
Proof.
  intro H. destruct (Nat.lt_ge_cases i (length l)) as [Hi | Hi].
  - rewrite Forall_forall in H. apply H. apply nth_In. exact Hi.
  - rewrite nth_overflow by exact Hi. apply Qle_refl.
Qed.

Lemma Qsum_nonneg {A : Type} (f : A -> Q) (l : list A) :
  (forall x, In x l -> 0 <= f x) -> 0 <= Qsum (map f l).
Proof.
  intro H. rewrite <- (Qsum_zero (fun _ : A => 0) l) by reflexivity.
  apply Qsum_le. exact H.
Qed.

Lemma gravities_nonneg (L V R : list Q) (eps : Q) (i : nat) :
  Forall (Qle 0) L -> Forall (Qle 0) V -> Forall (Qle 0) R -> 0 < eps ->
  0 <= nth i (gravities L V R eps) 0.
Proof.
  intros HL HV HR He.
  destruct (Nat.lt_ge_cases i (length L)) as [Hi | Hi].
  - rewrite gravities_nth by exact Hi.
    apply gravity_nonneg; try apply Forall_nonneg_nth; assumption.
  - rewrite nth_overflow by (rewrite gravities_length; exact Hi).
    apply Qle_refl.
Qed.

(** X1. For [L], [V], [R] of one length with non-negative entries and
    [eps > 0], the gravity vector is computed without error, has that
    length, has no negative entry, and every entry is a true quotient:
    [G[i] * (R[i] + eps) = L[i]^2 * V[i]], the denominator being positive
    even where [R[i] = 0]. *)
Theorem compute_individual_gravity_nonneg (L V R : list Q) (eps : Q) :
  length V = length L -> length R = length L ->
  Forall (Qle 0) L -> Forall (Qle 0) V -> Forall (Qle 0) R -> 0 < eps ->
  exists Gv,
    compute_individual_gravity L V R eps = Ok Gv
    /\ length Gv = length L
    /\ Forall (Qle 0) Gv
    /\ forall i, (i < length L)%nat ->
         0 < nth i R 0 + eps
         /\ nth i Gv 0 * (nth i R 0 + eps) == (nth i L 0) ^ 2 * nth i V 0.
Proof.
  intros HV HR HL0 HV0 HR0 He.
  exists (gravities L V R eps).
  split; [apply compute_individual_gravity_ok; assumption |].
  split; [apply gravities_length |].
  split.
  - apply Forall_forall. intros x Hx.
    destruct (In_nth _ _ 0 Hx) as (i & Hi & <-).
    apply gravities_nonneg; assumption.
  - intros i Hi.
    assert (Hpos : 0 < nth i R 0 + eps).
    { pose proof (Forall_nonneg_nth R i HR0). lra. }
    split; [exact Hpos |].
    rewrite gravities_nth by exact Hi. unfold gravity. field. lra.
Qed.

Lemma compute_individual_gravity_nonneg_witness :
  Forall (Qle 0) example_L
  /\ exists Gv,
       compute_individual_gravity example_L example_V example_R default_eps
       = Ok Gv
       /\ Forall (Qle 0) Gv.
Proof.
  assert (HL : Forall (Qle 0) example_L)
    by (repeat constructor; vm_compute; discriminate).
  assert (HV : Forall (Qle 0) example_V)
    by (repeat constructor; vm_compute; discriminate).
  assert (HR : Forall (Qle 0) example_R)
    by (repeat constructor; vm_compute; discriminate).
  split; [exact HL |].
  destruct (compute_individual_gravity_nonneg example_L example_V example_R
              default_eps eq_refl eq_refl HL HV HR)
    as (Gv & HG & _ & Hnn & _).
  - vm_compute. reflexivity.
  - exists Gv. split; [exact HG | exact Hnn].
Defined.

(** ** Teams of fewer than two nodes *)

Lemma pairs_small (n : nat) : (n <= 1)%nat -> pairs n = [].
Proof.
  intro H. destruct n as [|[|n]]; [reflexivity | reflexivity | lia].
Qed.

(** X2. A snapshot of fewer than two nodes has no pair: the evaluator
    returns [K = 0] and [D = sum of R], and with no negative resistance
    such a team is never reported stable. *)
Theorem analyze_team_state_small_team (n : nat) (L V R : list Q)
    (Sm : list (list Q)) (kappa eps : Q) :
  snapshot n L V R Sm -> (n <= 1)%nat -> Forall (Qle 0) R ->
  exists m,
    analyze_team_state L V R Sm kappa eps = Ok m
    /\ K_team m == 0
    /\ D_team m == Qsum R
    /\ Is_Stable m = false.
Proof.
  intros Hsnap Hn HR0.
  destruct (analyze_team_state_ok n L V R Sm kappa eps Hsnap)
    as (m & Hm & _ & HK & HD & _ & HF).
  assert (HK0 : K_team m == 0).
  { rewrite HK. unfold K_spec, pair_sum. rewrite pairs_small by exact Hn.
    reflexivity. }
  assert (HDR : D_team m == Qsum R).
  { rewrite HD. unfold D_spec, pair_sum. rewrite pairs_small by exact Hn.
    simpl. ring. }
  exists m. split; [exact Hm |]. split; [exact HK0 |]. split; [exact HDR |].
  rewrite HF. apply not_true_is_false. intro Ht. apply Qgtb_gt in Ht.
  assert (H0 : 0 <= Qsum R).
  { rewrite <- (map_id R). apply Qsum_nonneg. intros x Hx.
    rewrite Forall_forall in HR0. apply HR0. exact Hx. }
  lra.
Qed.

Lemma analyze_team_state_small_team_witness :
  snapshot 1 [12] [8] [2 # 10] [ [1] ]
  /\ exists m,
       analyze_team_state [12] [8] [2 # 10] [ [1] ] default_kappa default_eps
       = Ok m
       /\ K_team m == 0
       /\ Is_Stable m = false.
Proof.
  assert (H : snapshot 1 [12] [8] [2 # 10] [ [1] ])
    by (unfold snapshot, shape2; repeat split; repeat constructor).
  split; [exact H |].
  destruct (analyze_team_state_small_team 1 [12] [8] [2 # 10] [ [1] ]
              default_kappa default_eps H)
    as (m & Hm & HK & _ & HF).
  - lia.
  - repeat constructor. vm_compute. discriminate.
  - exists m. split; [exact Hm |]. split; [exact HK | exact HF].
Defined.

(** ** Signs of the sensitivities *)

Lemma interaction_spec_nonneg (n : nat) (g : list Q) (Sm : list (list Q))
    (kappa : Q) (i : nat) :
  0 <= kappa ->
  (forall j, 0 <= nth j g 0) ->
  (forall a b, (a < n)%nat -> (b < n)%nat -> 0 <= entry Sm a b) ->
  (i < n)%nat ->
  0 <= interaction_spec n g Sm kappa i.
Proof.
  intros Hk Hg HS Hi. unfold interaction_spec.
  apply Qmult_le_0_compat; [exact Hk |].
  apply Qsum_nonneg. intros j Hj. apply filter_In in Hj.
  destruct Hj as [Hj _]. apply in_seq in Hj.
  apply Qmult_le_0_compat; [apply HS; lia | apply Hg].
Qed.

Lemma marginal_gains_sign_bounds (n : nat) (L V R : list Q)
    (Sm : list (list Q)) (kappa eps : Q) (dM_dR : list Q)
    (dM_dS : list (list Q)) :
  snapshot n L V R Sm ->
  Forall (Qle 0) L -> Forall (Qle 0) V -> Forall (Qle 0) R ->
  (forall a b, (a < n)%nat -> (b < n)%nat -> 0 <= entry Sm a b) ->
  0 <= kappa -> 0 < eps ->
  calculate_marginal_gains L V R Sm kappa eps = Ok (dM_dR, dM_dS) ->
  (forall i, (i < n)%nat -> nth i dM_dR 0 <= - (1))
  /\ (forall i j, (i < j < n)%nat ->
        1 <= entry dM_dS i j /\ 1 <= entry dM_dS j i).
Proof.
  intros Hsnap HL0 HV0 HR0 HS0 Hk He Hret.
  destruct (calculate_marginal_gains_ok n L V R Sm kappa eps Hsnap)
    as (dR & dS & Hcalc & _ & HdR & _ & HdS & _).
  rewrite Hcalc in Hret. inversion Hret; subst dR dS. clear Hret.
  assert (Hg : forall j, 0 <= nth j (gravities L V R eps) 0)
    by (intro j; apply gravities_nonneg; assumption).
  split.
  - intros i Hi. rewrite (HdR i Hi).
    pose proof (interaction_spec_nonneg n _ Sm kappa i Hk Hg HS0 Hi) as Hint.
    pose proof (Forall_nonneg_nth L i HL0) as Hl.
    pose proof (Forall_nonneg_nth V i HV0) as Hv.
    pose proof (Forall_nonneg_nth R i HR0) as Hr.
    assert (Ha : 0 <= (nth i L 0) ^ 2 * nth i V 0).
    { apply Qmult_le_0_compat; [| exact Hv].
      simpl. apply Qmult_le_0_compat; exact Hl. }
    assert (Hd : 0 < (nth i R 0 + eps) ^ 2).
    { simpl. apply Qmult_lt_0_compat; lra. }
    assert (Hq : (- ((nth i L 0) ^ 2 * nth i V 0)) / (nth i R 0 + eps) ^ 2
                 <= 0).
    { apply Qle_shift_div_r; [exact Hd |]. lra. }
    assert (Hprod : interaction_spec n (gravities L V R eps) Sm kappa i
                    * ((- ((nth i L 0) ^ 2 * nth i V 0))
                       / (nth i R 0 + eps) ^ 2) <= 0).
    { set (x := interaction_spec n (gravities L V R eps) Sm kappa i) in *.
      set (y := (- ((nth i L 0) ^ 2 * nth i V 0))
                / (nth i R 0 + eps) ^ 2) in *.
      assert (H : 0 <= x * (- y))
        by (apply Qmult_le_0_compat; lra).
      lra. }
    lra.
  - intros i j Hij. destruct (HdS i j Hij) as [H1 H2]. rewrite H1, H2.
    assert (H : 0 <= kappa * nth i (gravities L V R eps) 0
                     * nth j (gravities L V R eps) 0).
    { apply Qmult_le_0_compat; [apply Qmult_le_0_compat |];
        [exact Hk | apply Hg | apply Hg]. }
    split; lra.
Qed.

(** X5. On a snapshot with [L], [V], [R] and the entries of [S]
    non-negative, [kappa >= 0] and [eps > 0], the sensitivities have fixed
    signs: [dM_dR[i] <= -1] for every node and [dM_dS >= 1] at both
    positions of every pair [i < j].  Lowering a resistance or raising a
    resonance is never predicted to lower the margin. *)
Theorem calculate_marginal_gains_signs (n : nat) (L V R : list Q)
    (Sm : list (list Q)) (kappa eps : Q) :
  snapshot n L V R Sm ->
  Forall (Qle 0) L -> Forall (Qle 0) V -> Forall (Qle 0) R ->
  (forall a b, (a < n)%nat -> (b < n)%nat -> 0 <= entry Sm a b) ->
  0 <= kappa -> 0 < eps ->
  exists dM_dR dM_dS,
    calculate_marginal_gains L V R Sm kappa eps = Ok (dM_dR, dM_dS)
    /\ (forall i, (i < n)%nat -> nth i dM_dR 0 <= - (1))
    /\ (forall i j, (i < j < n)%nat ->
          1 <= entry dM_dS i j /\ 1 <= entry dM_dS j i).
Proof.
  intros Hsnap HL0 HV0 HR0 HS0 Hk He.
  destruct (calculate_marginal_gains_ok n L V R Sm kappa eps Hsnap)
    as (dR & dS & Hcalc & _).
  exists dR, dS. split; [exact Hcalc |].
  apply (marginal_gains_sign_bounds n L V R Sm kappa eps dR dS); assumption.
Qed.

Lemma example_nonneg :
  Forall (Qle 0) example_L /\ Forall (Qle 0) example_V
  /\ Forall (Qle 0) example_R.
Proof. repeat split; repeat constructor; vm_compute; discriminate. Qed.

Lemma example_S_nonneg (a b : nat) :
  (a < 4)%nat -> (b < 4)%nat -> 0 <= entry example_S a b.
Proof.
  intros Ha Hb.
  do 4 (destruct a as [|a];
        [ do 4 (destruct b as [|b]; [vm_compute; discriminate |]);
          exfalso; lia |]).
  exfalso; lia.
Qed.

Lemma calculate_marginal_gains_signs_witness :
  snapshot 4 example_L example_V example_R example_S
  /\ 0 <= default_kappa /\ 0 < default_eps
  /\ exists dM_dR dM_dS,
       calculate_marginal_gains example_L example_V example_R example_S
         default_kappa default_eps = Ok (dM_dR, dM_dS)
       /\ (forall i, (i < 4)%nat -> nth i dM_dR 0 <= - (1)).
Proof.
  assert (Hk : 0 <= default_kappa) by (vm_compute; discriminate).
  assert (He : 0 < default_eps) by (vm_compute; reflexivity).
  split; [exact example_snapshot |]. split; [exact Hk |]. split; [exact He |].
  destruct (calculate_marginal_gains_signs 4 example_L example_V example_R
              example_S default_kappa default_eps example_snapshot
              (proj1 example_nonneg) (proj1 (proj2 example_nonneg))
              (proj2 (proj2 example_nonneg)) example_S_nonneg Hk He)
    as (dR & dS & Hcalc & HdR & _).
  exists dR, dS. split; [exact Hcalc | exact HdR].
Defined.

(** ** Further properties of the optimizer *)

Lemma sum_costs_nonneg (l : list suggestion) :
  Forall (fun s => 0 < Cost s) l -> 0 <= Qsum (map Cost l).
Proof.
  intro H. apply Qsum_nonneg. intros s Hs.
  rewrite Forall_forall in H. apply Qlt_le_weak. apply H. exact Hs.
Qed.

Lemma filter_by_budget_none (budget : Q) (l : list suggestion) :
  Forall (fun s => 0 < Cost s) l ->
  forall spend, budget <= spend -> filter_by_budget budget spend l = [].
Proof.
  induction l as [|m l IH]; intros H spend Hb; simpl; [reflexivity |].
  apply Forall_cons_iff in H. destruct H as [Hm Hl].
  destruct (Qle_bool (spend + Cost m) budget) eqn:Hfit.
  - apply Qle_bool_iff in Hfit. lra.
  - apply IH; assumption.
Qed.

Lemma filter_by_budget_all (budget : Q) (l : list suggestion) :
  Forall (fun s => 0 < Cost s) l ->
  forall spend, spend + Qsum (map Cost l) <= budget ->
    filter_by_budget budget spend l = l.
Proof.
  induction l as [|m l IH]; intros H spend Hb; simpl; [reflexivity |].
  apply Forall_cons_iff in H. destruct H as [Hm Hl]. simpl in Hb.
  pose proof (sum_costs_nonneg l Hl) as Hnn.
  destruct (Qle_bool (spend + Cost m) budget) eqn:Hfit.
  - f_equal. apply IH; [exact Hl | lra].
  - apply Qle_bool_false in Hfit. lra.
Qed.

Lemma filter_by_budget_rejected (budget : Q) (l : list suggestion) :
  Forall (fun s => 0 < Cost s) l ->
  forall spend c, In c l -> ~ In c (filter_by_budget budget spend l) ->
    budget
    < spend + Qsum (map Cost (filter_by_budget budget spend l)) + Cost c.
Proof.
  induction l as [|m l IH]; intros H spend c Hin Hout; [contradiction |].
  apply Forall_cons_iff in H. destruct H as [Hm Hl]. simpl in Hout |- *.
  destruct (Qle_bool (spend + Cost m) budget) eqn:Hfit.
  - simpl in Hout |- *.
    destruct Hin as [-> | Hin]; [exfalso; apply Hout; left; reflexivity |].
    assert (Hout' : ~ In c (filter_by_budget budget (spend + Cost m) l))
      by (intro Hc; apply Hout; right; exact Hc).
    pose proof (IH Hl (spend + Cost m) c Hin Hout'). lra.
  - apply Qle_bool_false in Hfit.
    destruct Hin as [-> | Hin].
    + pose proof (sum_costs_nonneg _
                    (filter_by_budget_Forall _ budget l Hl spend)). lra.
    + apply IH; assumption.
Qed.

Lemma filter_by_budget_NoDup (budget : Q) (l : list suggestion) :
  NoDup l -> forall spend, NoDup (filter_by_budget budget spend l).
Proof.
  induction l as [|m l IH]; intros H spend; simpl; [constructor |].
  apply NoDup_cons_iff in H. destruct H as [Hm Hl].
  destruct (Qle_bool (spend + Cost m) budget).
  - constructor; [| apply IH; exact Hl].
    intro Hin. apply Hm. apply (filter_by_budget_In _ _ _ _ Hin).
  - apply IH; exact Hl.
Qed.

Lemma NoDup_flat_map_disjoint {A B : Type} (f : A -> list B) (l : list A) :
  NoDup l ->
  (forall x, NoDup (f x)) ->
  (forall x y z, In z (f x) -> In z (f y) -> x = y) ->
  NoDup (flat_map f l).
Proof.
  intros Hl Hf Hinj. induction l as [|a l IH]; simpl; [constructor |].
  apply NoDup_cons_iff in Hl. destruct Hl as [Ha Hl].
  apply NoDup_app; [apply Hf | apply IH; exact Hl |].
  intros z Hz Hz'. apply in_flat_map in Hz'. destruct Hz' as [y [Hy Hzy]].
  rewrite (Hinj a y z Hz Hzy) in Ha. contradiction.
Qed.

Lemma raw_candidates_NoDup (n : nat) (dM_dR : list Q) (dM_dS : list (list Q))
    (costs : cost_model) (step : Q) :
  NoDup (raw_candidates n dM_dR dM_dS costs step).
Proof.
  unfold raw_candidates. apply NoDup_app.
  - apply NoDup_flat_map_disjoint.
    + apply seq_NoDup.
    + intro i. unfold r_candidate. cbv zeta.
      destruct (Qgtb _ 0); repeat constructor. intros [].
    + intros i j z Hi Hj.
      apply in_r_candidate in Hi. apply in_r_candidate in Hj.
      destruct Hi as [_ ->]. destruct Hj as [_ Hj].
      inversion Hj. reflexivity.
  - apply NoDup_flat_map_disjoint.
    + apply NoDup_pairs.
    + intros [i j]. unfold s_candidate. cbv zeta.
      destruct (Qgtb _ 0); repeat constructor. intros [].
    + intros [i j] [i' j'] z Hi Hj.
      apply in_s_candidate in Hi. apply in_s_candidate in Hj.
      destruct Hi as [_ ->]. destruct Hj as [_ Hj].
      inversion Hj. reflexivity.
  - intros z Hr Hs.
    apply in_flat_map in Hr. destruct Hr as [i [_ Hr]].
    apply in_flat_map in Hs. destruct Hs as [[a b] [_ Hs]].
    apply in_r_candidate in Hr. apply in_s_candidate in Hs.
    destruct Hr as [_ ->]. destruct Hs as [_ Hs]. discriminate Hs.
Qed.

Lemma sorted_candidates_facts (n : nat) (L V R : list Q)
    (Sm : list (list Q)) (costs : cost_model) (step kappa eps : Q) :
  snapshot n L V R Sm -> cost_shape n costs ->
  exists cands,
    sorted_candidates L V R Sm costs step kappa eps = Ok cands
    /\ Forall (fun s => 0 < Cost s) cands
    /\ NoDup cands.
Proof.
  intros Hsnap Hcosts.
  destruct (sorted_candidates_ok n L V R Sm costs step kappa eps Hsnap Hcosts)
    as (dR & dS & _ & Hsorted).
  eexists. split; [exact Hsorted |]. split.
  - apply (Permutation_Forall (sort_by_roi_perm _)).
    apply raw_candidates_cost.
  - apply (Permutation_NoDup (sort_by_roi_perm _)).
    apply raw_candidates_NoDup.
Qed.

Lemma flat_map_nil {A B : Type} (f : A -> list B) (l : list A) :
  (forall x, f x = []) -> flat_map f l = [].
Proof.
  intro H. induction l as [|x l IH]; simpl; [reflexivity |].
  rewrite H, IH. reflexivity.
Qed.

Lemma raw_candidates_no_step (n : nat) (dM_dR : list Q)
    (dM_dS : list (list Q)) (costs : cost_model) (step : Q) :
  step == 0 -> raw_candidates n dM_dR dM_dS costs step = [].
Proof.
  intro Hstep. unfold raw_candidates.
  assert (Hcost : forall c, Qgtb (c * step) 0 = false).
  { intro c. apply not_true_is_false. intro H. apply Qgtb_gt in H.
    rewrite Hstep in H. lra. }
  rewrite !flat_map_nil; [reflexivity | |].
  - intros [i j]. unfold s_candidate. cbv zeta. rewrite Hcost. reflexivity.
  - intro i. unfold r_candidate. cbv zeta. rewrite Hcost. reflexivity.
Qed.

Lemma skip_snapshot : snapshot 2 skip_L skip_V skip_R skip_S.
Proof. unfold snapshot, shape2. repeat split; repeat constructor. Qed.

Lemma skip_cost_shape : cost_shape 2 skip_costs.
Proof. unfold cost_shape, shape2. repeat split; repeat constructor. Qed.

(** X6. With a budget of zero or less, or with a step of zero, the
    optimizer suggests nothing: every candidate costs strictly more than
    zero, and a step of zero leaves no candidate at all. *)
Theorem suggest_interventions_nothing (n : nat) (L V R : list Q)
    (Sm : list (list Q)) (costs : cost_model) (budget step kappa eps : Q) :
  snapshot n L V R Sm -> cost_shape n costs ->
  budget <= 0 \/ step == 0 ->
  suggest_interventions L V R Sm costs budget step kappa eps = Ok [].
Proof.
  intros Hsnap Hcosts Hcase. unfold suggest_interventions.
  destruct (sorted_candidates_ok n L V R Sm costs step kappa eps Hsnap Hcosts)
    as (dR & dS & _ & Hsorted).
  rewrite Hsorted. cbn [bind]. f_equal.
  destruct Hcase as [Hb | Hstep].
  - apply filter_by_budget_none; [| exact Hb].
    apply (Permutation_Forall (sort_by_roi_perm _)).
    apply raw_candidates_cost.
  - rewrite raw_candidates_no_step by exact Hstep. reflexivity.
Qed.

Lemma suggest_interventions_nothing_witness :
  snapshot 2 skip_L skip_V skip_R skip_S /\ cost_shape 2 skip_costs
  /\ suggest_interventions skip_L skip_V skip_R skip_S skip_costs 0 1
       default_kappa default_eps = Ok []
  /\ suggest_interventions skip_L skip_V skip_R skip_S skip_costs 5 0
       default_kappa default_eps = Ok [].
Proof.
  split; [exact skip_snapshot |]. split; [exact skip_cost_shape |]. split.
  - apply (suggest_interventions_nothing 2); [exact skip_snapshot
      | exact skip_cost_shape | left; vm_compute; discriminate].
  - apply (suggest_interventions_nothing 2); [exact skip_snapshot
      | exact skip_cost_shape | right; reflexivity].
Defined.

(** X7. The accepted set is maximal: a candidate that the optimizer leaves
    out cannot be added to what it returns without exceeding the budget. *)
Theorem suggest_interventions_maximal (n : nat) (L V R : list Q)
    (Sm : list (list Q)) (costs : cost_model) (budget step kappa eps : Q) :
  snapshot n L V R Sm -> cost_shape n costs ->
  exists cands moves,
    sorted_candidates L V R Sm costs step kappa eps = Ok cands
    /\ suggest_interventions L V R Sm costs budget step kappa eps = Ok moves
    /\ forall c, In c cands -> ~ In c moves ->
         budget < Qsum (map Cost moves) + Cost c.
Proof.
  intros Hsnap Hcosts.
  destruct (sorted_candidates_facts n L V R Sm costs step kappa eps
              Hsnap Hcosts) as (cands & Hsorted & Hpos & _).
  exists cands, (filter_by_budget budget 0 cands).
  split; [exact Hsorted |].
  split; [unfold suggest_interventions; rewrite Hsorted; reflexivity |].
  intros c Hin Hout.
  pose proof (filter_by_budget_rejected budget cands Hpos 0 c Hin Hout).
  lra.
Qed.

Lemma suggest_interventions_maximal_witness :
  snapshot 2 skip_L skip_V skip_R skip_S /\ cost_shape 2 skip_costs
  /\ exists cands moves,
       sorted_candidates skip_L skip_V skip_R skip_S skip_costs 1
         default_kappa default_eps = Ok cands
       /\ suggest_interventions skip_L skip_V skip_R skip_S skip_costs 5 1
            default_kappa default_eps = Ok moves
       /\ forall c, In c cands -> ~ In c moves ->
            5 < Qsum (map Cost moves) + Cost c.
Proof.
  split; [exact skip_snapshot |]. split; [exact skip_cost_shape |].
  apply (suggest_interventions_maximal 2 skip_L skip_V skip_R skip_S
           skip_costs 5 1 default_kappa default_eps
           skip_snapshot skip_cost_shape).
Defined.

(** X8. When the budget covers the cost of all candidates, the optimizer
    returns every candidate, in sorted order. *)
Theorem suggest_interventions_ample_budget (n : nat) (L V R : list Q)
    (Sm : list (list Q)) (costs : cost_model) (budget step kappa eps : Q)
    (cands : list suggestion) :
  snapshot n L V R Sm -> cost_shape n costs ->
  sorted_candidates L V R Sm costs step kappa eps = Ok cands ->
  Qsum (map Cost cands) <= budget ->
  suggest_interventions L V R Sm costs budget step kappa eps = Ok cands.
Proof.
  intros Hsnap Hcosts Hsorted Hb.
  destruct (sorted_candidates_facts n L V R Sm costs step kappa eps
              Hsnap Hcosts) as (cands' & Hsorted' & Hpos & _).
  rewrite Hsorted in Hsorted'. inversion Hsorted'; subst cands'.
  unfold suggest_interventions. rewrite Hsorted. cbn [bind]. f_equal.
  apply filter_by_budget_all; [exact Hpos | lra].
Qed.

Lemma suggest_interventions_ample_budget_witness :
  snapshot 2 skip_L skip_V skip_R skip_S /\ cost_shape 2 skip_costs
  /\ exists cands,
       sorted_candidates skip_L skip_V skip_R skip_S skip_costs 1
         default_kappa default_eps = Ok cands
       /\ Qsum (map Cost cands) <= 11
       /\ suggest_interventions skip_L skip_V skip_R skip_S skip_costs 11 1
            default_kappa default_eps = Ok cands.
Proof.
  split; [exact skip_snapshot |]. split; [exact skip_cost_shape |].
  destruct (sorted_candidates skip_L skip_V skip_R skip_S skip_costs 1
              default_kappa default_eps) as [cands | e] eqn:Hs;
    [| vm_compute in Hs; discriminate Hs].
  assert (Hsum : Qsum (map Cost cands) <= 11).
  { vm_compute in Hs. inversion Hs; subst cands.
    apply Qle_bool_iff. vm_compute. reflexivity. }
  exists cands. split; [reflexivity |]. split; [exact Hsum |].
  apply (suggest_interventions_ample_budget 2 skip_L skip_V skip_R skip_S
           skip_costs 11 1 default_kappa default_eps cands
           skip_snapshot skip_cost_shape Hs Hsum).
Defined.

Lemma raw_candidates_keyed (n : nat) (dM_dR : list Q) (dM_dS : list (list Q))
    (costs : cost_model) (step : Q) (s s' : suggestion) :
  In s (raw_candidates n dM_dR dM_dS costs step) ->
  In s' (raw_candidates n dM_dR dM_dS costs step) ->
  Type_ s = Type_ s' -> Target s = Target s' -> Target_2 s = Target_2 s' ->
  s = s'.
Proof.
  intros Hs Hs' Hty Htg Htg2.
  apply in_raw_candidates in Hs. apply in_raw_candidates in Hs'.
  destruct Hs as [[i [_ Hs]] | [i [j [_ Hs]]]];
    destruct Hs' as [[i' [_ Hs']] | [i' [j' [_ Hs']]]];
    try apply in_r_candidate in Hs; try apply in_s_candidate in Hs;
    try apply in_r_candidate in Hs'; try apply in_s_candidate in Hs';
    destruct Hs as [_ ->]; destruct Hs' as [_ ->];
    simpl in Hty, Htg, Htg2; try discriminate.
  - subst i'. reflexivity.
  - inversion Htg2. subst i' j'. reflexivity.
Qed.

(** X9. No intervention is suggested twice: the returned list has no
    repeated entry, and two returned suggestions of the same kind for the
    same node or pair are one and the same. *)
Theorem suggest_interventions_no_repeat (n : nat) (L V R : list Q)
    (Sm : list (list Q)) (costs : cost_model) (budget step kappa eps : Q) :
  snapshot n L V R Sm -> cost_shape n costs ->
  exists moves,
    suggest_interventions L V R Sm costs budget step kappa eps = Ok moves
    /\ NoDup moves
    /\ forall s s', In s moves -> In s' moves ->
         Type_ s = Type_ s' -> Target s = Target s' ->
         Target_2 s = Target_2 s' -> s = s'.
Proof.
  intros Hsnap Hcosts.
  destruct (sorted_candidates_ok n L V R Sm costs step kappa eps Hsnap Hcosts)
    as (dR & dS & _ & Hsorted).
  set (raw := raw_candidates n dR dS costs step) in *.
  exists (filter_by_budget budget 0 (sort_by_roi raw)).
  split; [unfold suggest_interventions; rewrite Hsorted; reflexivity |].
  split.
  - apply filter_by_budget_NoDup.
    apply (Permutation_NoDup (sort_by_roi_perm raw)).
    apply raw_candidates_NoDup.
  - intros s s' Hs Hs'.
    apply filter_by_budget_In in Hs. apply filter_by_budget_In in Hs'.
    apply (Permutation_in _ (Permutation_sym (sort_by_roi_perm raw))) in Hs.
    apply (Permutation_in _ (Permutation_sym (sort_by_roi_perm raw))) in Hs'.
    apply (raw_candidates_keyed n dR dS costs step); assumption.
Qed.

Lemma suggest_interventions_no_repeat_witness :
  snapshot 2 skip_L skip_V skip_R skip_S /\ cost_shape 2 skip_costs
  /\ exists moves,
       suggest_interventions skip_L skip_V skip_R skip_S skip_costs 5 1
         default_kappa default_eps = Ok moves
       /\ NoDup moves.
Proof.
  split; [exact skip_snapshot |]. split; [exact skip_cost_shape |].
  destruct (suggest_interventions_no_repeat 2 skip_L skip_V skip_R skip_S
              skip_costs 5 1 default_kappa default_eps
              skip_snapshot skip_cost_shape) as (moves & Hm & Hnd & _).
  exists moves. split; [exact Hm | exact Hnd].
Defined.

(** X10. On a snapshot with [L], [V], [R] and the entries of [S]
    non-negative, [kappa >= 0], [eps > 0] and a positive step, every
    returned suggestion has a projected impact of at least the step and a
    strictly positive ROI. *)
Theorem suggest_interventions_positive (n : nat) (L V R : list Q)
    (Sm : list (list Q)) (costs : cost_model) (budget step kappa eps : Q) :
  snapshot n L V R Sm -> cost_shape n costs ->
  Forall (Qle 0) L -> Forall (Qle 0) V -> Forall (Qle 0) R ->
  (forall a b, (a < n)%nat -> (b < n)%nat -> 0 <= entry Sm a b) ->
  0 <= kappa -> 0 < eps -> 0 < step ->
  exists moves,
    suggest_interventions L V R Sm costs budget step kappa eps = Ok moves
    /\ Forall (fun s => step <= Impact s /\ 0 < ROI s) moves.
Proof.
  intros Hsnap Hcosts HL0 HV0 HR0 HS0 Hk He Hstep.
  destruct (sorted_candidates_ok n L V R Sm costs step kappa eps Hsnap Hcosts)
    as (dR & dS & Hcalc & Hsorted).
  destruct (marginal_gains_sign_bounds n L V R Sm kappa eps dR dS
              Hsnap HL0 HV0 HR0 HS0 Hk He Hcalc) as [HdR HdS].
  set (raw := raw_candidates n dR dS costs step) in *.
  exists (filter_by_budget budget 0 (sort_by_roi raw)).
  split; [unfold suggest_interventions; rewrite Hsorted; reflexivity |].
  apply filter_by_budget_Forall.
  apply (Permutation_Forall (sort_by_roi_perm raw)).
  apply Forall_forall. intros s Hs. apply in_raw_candidates in Hs.
  assert (Hroi : forall gain cost, step <= gain -> 0 < cost ->
                   0 < gain / cost).
  { intros gain cost Hg Hc. apply Qlt_shift_div_l; [exact Hc | lra]. }
  destruct Hs as [[i [Hi Hs]] | [i [j [Hij Hs]]]].
  - apply in_r_candidate in Hs. destruct Hs as [Hc ->]. simpl.
    assert (Hgain : step <= - nth i dR 0 * step).
    { specialize (HdR i Hi).
      assert (H : 0 <= (- nth i dR 0 - 1) * step)
        by (apply Qmult_le_0_compat; lra).
      lra. }
    split; [exact Hgain | apply Hroi; assumption].
  - apply in_s_candidate in Hs. destruct Hs as [Hc ->]. simpl.
    assert (Hgain : step <= entry dS i j * step).
    { destruct (HdS i j Hij) as [H1 _].
      assert (H : 0 <= (entry dS i j - 1) * step)
        by (apply Qmult_le_0_compat; lra).
      lra. }
    split; [exact Hgain | apply Hroi; assumption].
Qed.

Lemma skip_S_nonneg (a b : nat) :
  (a < 2)%nat -> (b < 2)%nat -> 0 <= entry skip_S a b.
Proof.
  intros Ha Hb.
  do 2 (destruct a as [|a];
        [ do 2 (destruct b as [|b]; [vm_compute; discriminate |]);
          exfalso; lia |]).
  exfalso; lia.
Qed.

Lemma suggest_interventions_positive_witness :
  snapshot 2 skip_L skip_V skip_R skip_S /\ cost_shape 2 skip_costs
  /\ 0 < 1
  /\ exists moves,
       suggest_interventions skip_L skip_V skip_R skip_S skip_costs 5 1
         default_kappa default_eps = Ok moves
       /\ Forall (fun s => 1 <= Impact s /\ 0 < ROI s) moves.
Proof.
  assert (H1 : 0 < 1) by reflexivity.
  split; [exact skip_snapshot |]. split; [exact skip_cost_shape |].
  split; [exact H1 |].
  apply (suggest_interventions_positive 2 skip_L skip_V skip_R skip_S
           skip_costs 5 1 default_kappa default_eps
           skip_snapshot skip_cost_shape).
  - repeat constructor; vm_compute; discriminate.
  - repeat constructor; vm_compute; discriminate.
  - repeat constructor; vm_compute; discriminate.
  - exact skip_S_nonneg.
  - vm_compute; discriminate.
  - reflexivity.
  - exact H1.
Defined.

(** X11. A cost vector [cR] shorter than the team is not read as zero
    costs: on a snapshot the optimizer stops with [IndexError]. *)
Theorem suggest_interventions_short_costs (n : nat) (L V R : list Q)
    (Sm : list (list Q)) (costs : cost_model) (budget step kappa eps : Q) :
  snapshot n L V R Sm -> (length (cR costs) < n)%nat ->
  suggest_interventions L V R Sm costs budget step kappa eps
  = Raise IndexError.
Proof.
  intros Hsnap Hshort.
  destruct (calculate_marginal_gains_ok n L V R Sm kappa eps Hsnap)
    as (dR & dS & Hcalc & Hlen & _).
  destruct Hsnap as (HL & _).
  unfold suggest_interventions, sorted_candidates.
  rewrite Hcalc. cbn [bind]. rewrite HL.
  assert (Hloop : r_candidates n dR costs step [] = Raise IndexError).
  { unfold r_candidates.
    match goal with |- ?lhs = _ => destruct lhs as [out | e] eqn:Hrun end.
    - exfalso.
      destruct (for_range_Ok_inv _ _ _ _ Hrun (length (cR costs)))
        as (s1 & v1 & Hbody).
      { apply in_range. lia. }
      rewrite (getitem_nth dR) in Hbody by lia. cbn [bind] in Hbody.
      rewrite (getitem_out (cR costs)) in Hbody by lia.
      cbn [bind] in Hbody. discriminate.
    - f_equal.
      apply (for_range_raises _ _ (fun e => e = IndexError)) in Hrun;
        [exact Hrun |].
      intros i s e' _ Hbody.
      destruct (getitem dR i) as [d | e1] eqn:E1; cbn [bind] in Hbody;
        [| inversion Hbody; subst; apply (getitem_raises _ _ _ E1)].
      destruct (getitem (cR costs) i) as [c | e2] eqn:E2;
        cbn [bind] in Hbody;
        [| inversion Hbody; subst; apply (getitem_raises _ _ _ E2)].
      cbv zeta in Hbody. destruct (Qgtb (c * step) 0); discriminate. }
  rewrite Hloop. reflexivity.
Qed.

Lemma suggest_interventions_short_costs_witness :
  snapshot 2 skip_L skip_V skip_R skip_S
  /\ suggest_interventions skip_L skip_V skip_R skip_S
       {| cR := [10]; cS := [ [0; 0]; [0; 0] ] |} 5 1
       default_kappa default_eps = Raise IndexError.
Proof.
  split; [exact skip_snapshot |].
  apply (suggest_interventions_short_costs 2); [exact skip_snapshot |].
  simpl. lia.
Defined.

(** ** The worst-case scenarios, step by step *)

Lemma mask_select_remove {A : Type} (a : list A) (i : nat) :
  (i < length a)%nat ->
  map fst (filter snd
        (combine a (firstn i (repeat true (length a))
                    ++ false :: skipn (i + 1) (repeat true (length a)))))
  = remove_at i a.
Proof.
  unfold remove_at.
  revert i. induction a as [|x t IH]; intros i Hi; simpl in Hi; [lia |].
  destruct i as [|i]; simpl.
  - rewrite filter_all_true. reflexivity.
  - rewrite (IH i) by lia. reflexivity.
Qed.

Lemma mask_getitem_remove {A : Type} (n : nat) (a : list A) (i : nat)
    (mask : list bool) :
  length a = n -> (i < n)%nat ->
  setitem (repeat true n) i false = Ok mask ->
  mask_getitem a mask = Ok (remove_at i a).
Proof.
  intros Ha Hi Hmask.
  destruct (mask_getitem_one_false n a i mask Ha Hi Hmask) as [Hsel _].
  rewrite Hsel. f_equal.
  unfold setitem in Hmask.
  rewrite repeat_length, (proj2 (Nat.ltb_lt _ _) Hi) in Hmask.
  inversion Hmask. subst n. apply mask_select_remove. exact Hi.
Qed.

Lemma remove_at_length {A : Type} (a : list A) (i : nat) :
  (i < length a)%nat -> length (remove_at i a) = (length a - 1)%nat.
Proof.
  intro Hi. unfold remove_at.
  rewrite length_app, length_firstn, length_skipn. lia.
Qed.

Lemma In_remove_at {A : Type} (a : list A) (i : nat) (x : A) :
  In x (remove_at i a) -> In x a.
Proof.
  unfold remove_at. intro H. apply in_app_or in H.
  destruct H as [H | H]; [apply (In_firstn _ _ _ H) | apply (In_skipn _ _ _ H)].
Qed.

Lemma remove_node_shape (n : nat) (Sm : list (list Q)) (i : nat) :
  shape2 n n Sm -> (i < n)%nat ->
  shape2 (n - 1) (n - 1) (remove_node i Sm).
Proof.
  intros [Hr Hc] Hi. unfold remove_node. split.
  - rewrite length_map, remove_at_length; lia.
  - rewrite Forall_map. apply Forall_forall. intros row Hrow.
    rewrite Forall_forall in Hc.
    pose proof (Hc row (In_remove_at _ _ _ Hrow)) as Hlen.
    rewrite remove_at_length; lia.
Qed.

Lemma mask_submatrix_remove (n : nat) (Sm : list (list Q)) (i : nat)
    (mask : list bool) :
  shape2 n n Sm -> (i < n)%nat ->
  setitem (repeat true n) i false = Ok mask ->
  (S_rows <- mask_getitem Sm mask ;; mask_columns S_rows mask)
  = Ok (remove_node i Sm).
Proof.
  intros [Hr Hc] Hi Hmask.
  rewrite (mask_getitem_remove n Sm i mask Hr Hi Hmask). cbn [bind].
  unfold mask_columns, remove_node.
  apply list_mapM_ok. intros row Hrow.
  apply (mask_getitem_remove n row i mask); [| exact Hi | exact Hmask].
  rewrite Forall_forall in Hc. apply Hc. apply (In_remove_at _ _ _ Hrow).
Qed.

Lemma strongest_edge_fold (n : nat) (g : list Q) (Sm : list (list Q))
    (kappa : Q) :
  length g = n -> shape2 n n Sm ->
  find_strongest_edge n g Sm kappa
  = Ok (fold_left (strongest_step g Sm kappa) (pairs n)
          (- (1), (0%nat, 1%nat))).
Proof.
  intros Hg HS. unfold find_strongest_edge.
  assert (Hfold : forall st,
    fold_left (strongest_step g Sm kappa) (pairs n) st
    = fold_left (fun s i =>
        fold_left (fun s j => strongest_step g Sm kappa s (i, j))
                  (range (i + 1) n) s)
        (range 0 n) st).
  { intro st. unfold pairs. rewrite fold_left_flat_map.
    apply fold_left_ext_in. intros s i _. apply fold_left_map. }
  rewrite Hfold.
  apply (for_range_pure (fun _ => True) (range 0 n) _
           (fun i s => fold_left (fun s j => strongest_step g Sm kappa s (i, j))
                                 (range (i + 1) n) s)); [| exact I].
  intros i s Hi _. apply in_range in Hi.
  apply (for_range_pure (fun _ => True) (range (i + 1) n) _
           (fun j s => strongest_step g Sm kappa s (i, j))); [| exact I].
  intros j s' Hj _. apply in_range in Hj.
  rewrite (getitem_nth g i) by lia. cbn [bind].
  rewrite (getitem_nth g j) by lia. cbn [bind].
  rewrite (getitem2_entry n n Sm i j HS) by lia. cbn [bind]. cbv zeta.
  unfold strongest_step. simpl fst. simpl snd.
  destruct (Qgtb _ (fst s')); split; trivial.
Qed.

Lemma strongest_fold_bound (g : list Q) (Sm : list (list Q)) (kappa : Q)
    (ps : list (nat * nat)) :
  forall st,
    fst st <= fst (fold_left (strongest_step g Sm kappa) ps st)
    /\ forall p, In p ps ->
         binding_term g Sm kappa (fst p) (snd p)
         <= fst (fold_left (strongest_step g Sm kappa) ps st).
Proof.
  induction ps as [|q ps IH]; intro st; simpl.
  - split; [apply Qle_refl | contradiction].
  - destruct (IH (strongest_step g Sm kappa st q)) as [Hmono Hall].
    assert (Hstep : fst st <= fst (strongest_step g Sm kappa st q)
                    /\ binding_term g Sm kappa (fst q) (snd q)
                       <= fst (strongest_step g Sm kappa st q)).
    { unfold strongest_step, binding_term. cbv zeta.
      destruct (Qgtb _ (fst st)) eqn:Hgt; simpl.
      - apply Qgtb_gt in Hgt. split; [lra | apply Qle_refl].
      - split; [apply Qle_refl |].
        apply Qnot_lt_le. intro Hlt. apply Qgtb_gt in Hlt. congruence. }
    destruct Hstep as [H1 H2]. split; [lra |].
    intros p [-> | Hp]; [lra | apply Hall; exact Hp].
Qed.

Lemma strongest_fold_choice (g : list Q) (Sm : list (list Q)) (kappa : Q)
    (ps : list (nat * nat)) :
  forall st,
    fold_left (strongest_step g Sm kappa) ps st = st
    \/ exists p, In p ps
         /\ fold_left (strongest_step g Sm kappa) ps st
            = (binding_term g Sm kappa (fst p) (snd p), p).
Proof.
  induction ps as [|q ps IH]; intro st; simpl.
  - left. reflexivity.
  - destruct (IH (strongest_step g Sm kappa st q)) as [Heq | [p [Hp Heq]]].
    + rewrite Heq. unfold strongest_step. cbv zeta.
      destruct (Qgtb _ (fst st)).
      * right. exists q. split; [left; reflexivity | reflexivity].
      * left. reflexivity.
    + right. exists p. split; [right; exact Hp | exact Heq].
Qed.

Lemma argmax_from_max (a : list Q) (k : nat) (best : Q) (best_idx : nat)
    (pre : list Q) :
  length pre = k -> (best_idx < k)%nat -> nth best_idx pre 0 = best ->
  (forall i, (i < k)%nat -> nth i pre 0 <= best) ->
  forall i, (i < k + length a)%nat ->
    nth i (pre ++ a) 0 <= nth (argmax_from a k best best_idx) (pre ++ a) 0.
Proof.
  revert k best best_idx pre.
  induction a as [|x t IH]; intros k best best_idx pre Hlen Hidx Hbest Hall i Hi;
    simpl in *.
  - rewrite app_nil_r. rewrite Hbest. apply Hall. lia.
  - replace (pre ++ x :: t) with ((pre ++ [x]) ++ t)
      by (rewrite <- app_assoc; reflexivity).
    assert (Hlen' : length (pre ++ [x]) = S k)
      by (rewrite length_app; simpl; lia).
    assert (Hx : nth k (pre ++ [x]) 0 = x)
      by (rewrite app_nth2 by lia; rewrite Hlen, Nat.sub_diag; reflexivity).
    assert (Hold : forall j, (j < k)%nat -> nth j (pre ++ [x]) 0 = nth j pre 0)
      by (intros j Hj; apply app_nth1; lia).
    destruct (Qgtb x best) eqn:Hgt.
    + apply Qgtb_gt in Hgt.
      apply (IH (S k) x k (pre ++ [x])); try assumption; try lia.
      intros j Hj. destruct (Nat.eq_dec j k) as [-> | Hne].
      * rewrite Hx. apply Qle_refl.
      * rewrite Hold by lia.
        assert (Hj' : nth j pre 0 <= best) by (apply Hall; lia). lra.
    + assert (Hle : x <= best).
      { apply Qnot_lt_le. intro Hlt. apply Qgtb_gt in Hlt. congruence. }
      apply (IH (S k) best best_idx (pre ++ [x])); try assumption; try lia.
      * rewrite Hold by lia. exact Hbest.
      * intros j Hj. destruct (Nat.eq_dec j k) as [-> | Hne].
        -- rewrite Hx. exact Hle.
        -- rewrite Hold by lia. apply Hall. lia.
Qed.

Lemma argmax_max (a : list Q) (top : nat) :
  argmax a = Ok top ->
  (top < length a)%nat /\ forall i, (i < length a)%nat -> nth i a 0 <= nth top a 0.
Proof.
  destruct a as [|x t]; simpl; intro H; [discriminate |].
  inversion H as [Htop]. split.
  - pose proof (argmax_from_lt t 1 x 0). lia.
  - intros i Hi.
    apply (argmax_from_max t 1 x 0 [x]); try reflexivity; try lia.
    intros j Hj. destruct j; [apply Qle_refl | lia].
Qed.

Lemma strongest_edge_in_range (n : nat) (g : list Q) (Sm : list (list Q))
    (kappa : Q) (k : Q) (u v : nat) :
  (2 <= n)%nat ->
  fold_left (strongest_step g Sm kappa) (pairs n) (- (1), (0%nat, 1%nat))
  = (k, (u, v)) ->
  (u < v < n)%nat.
Proof.
  intros Hn Hfold.
  destruct (strongest_fold_choice g Sm kappa (pairs n)
              (- (1), (0%nat, 1%nat))) as [Heq | [[a b] [Hp Heq]]].
  - rewrite Heq in Hfold. inversion Hfold. lia.
  - rewrite Heq in Hfold. inversion Hfold. subst a b.
    apply in_pairs in Hp. exact Hp.
Qed.

Lemma run_worst_case_scenarios_unfold (n : nat) (L V R : list Q)
    (Sm : list (list Q)) (kappa eps : Q) :
  snapshot n L V R Sm -> (2 <= n)%nat ->
  exists m top k u v ma mb mc,
    analyze_team_state L V R Sm kappa eps = Ok m
    /\ argmax (G m) = Ok top
    /\ (top < n)%nat
    /\ fold_left (strongest_step (G m) Sm kappa) (pairs n)
         (- (1), (0%nat, 1%nat)) = (k, (u, v))
    /\ (u < v < n)%nat
    /\ analyze_team_state L V R (edge_break Sm u v) kappa eps = Ok ma
    /\ analyze_team_state L V (update_at top (nth top R 0 + (6 # 10)) R) Sm
         kappa eps = Ok mb
    /\ analyze_team_state (remove_at top L) (remove_at top V)
         (remove_at top R) (remove_node top Sm) kappa eps = Ok mc
    /\ run_worst_case_scenarios L V R Sm kappa eps
       = Ok ([ ("Edge_Break",
                {| Description := "Strongest Edge (" ++ string_of_nat u ++ "-"
                                  ++ string_of_nat v ++ ") S -40%";
                   Margin_Drop := Margin m - Margin ma;
                   New_Margin := Margin ma |});
               ("R_Spike",
                {| Description := "Top Node (" ++ string_of_nat top
                                  ++ ") R +0.6";
                   Margin_Drop := Margin m - Margin mb;
                   New_Margin := Margin mb |});
               ("Node_Exit",
                {| Description := "Top Node (" ++ string_of_nat top
                                  ++ ") Removed";
                   Margin_Drop := Margin m - Margin mc;
                   New_Margin := Margin mc |}) ]%string,
             Margin m).
Proof.
  intros Hsnap Hn. pose proof Hsnap as (HL & HV & HR & HS).
  unfold run_worst_case_scenarios.
  destruct (analyze_team_state_ok n L V R Sm kappa eps Hsnap)
    as (m & Hm & HG & _).
  rewrite Hm. cbn [bind]. cbv zeta. rewrite HL.
  assert (Hglen : length (G m) = n)
    by (rewrite HG, gravities_length; exact HL).
  destruct (argmax_ok (G m)) as (top & Htop & Htoplt); [lia |].
  rewrite Htop. cbn [bind]. rewrite Hglen in Htoplt.
  rewrite (strongest_edge_fold n (G m) Sm kappa Hglen HS). cbn [bind].
  destruct (fold_left (strongest_step (G m) Sm kappa) (pairs n)
              (- (1), (0%nat, 1%nat))) as [k [u v]] eqn:Hfold.
  pose proof (strongest_edge_in_range n (G m) Sm kappa k u v Hn Hfold) as Huv.
  assert (Hu : (u < n)%nat) by lia. assert (Hv : (v < n)%nat) by lia.
  simpl fst. simpl snd.
  rewrite (getitem2_entry n n Sm u v HS Hu Hv). cbn [bind].
  rewrite (setitem2_set2 n Sm u v _ HS Hu Hv). cbn [bind].
  pose proof (shape2_set2 n Sm u v (entry Sm u v * (6 # 10)) HS Hu Hv) as HS1.
  rewrite (getitem2_entry n n _ v u HS1 Hv Hu). cbn [bind].
  rewrite (setitem2_set2 n _ v u _ HS1 Hv Hu). cbn [bind].
  fold (edge_break Sm u v).
  destruct (analyze_team_state_ok n L V R (edge_break Sm u v) kappa eps)
    as (ma & Hma & _).
  { split; [exact HL | split; [exact HV | split; [exact HR |]]].
    unfold edge_break. cbv zeta. apply shape2_set2; assumption. }
  rewrite Hma. cbn [bind].
  rewrite (getitem_nth R top) by lia. cbn [bind].
  unfold setitem at 1. rewrite HR, (proj2 (Nat.ltb_lt _ _) Htoplt).
  cbn [bind]. fold (update_at top (nth top R 0 + (6 # 10)) R).
  destruct (analyze_team_state_ok n L V
              (update_at top (nth top R 0 + (6 # 10)) R) Sm kappa eps)
    as (mb & Hmb & _).
  { split; [exact HL | split; [exact HV | split; [| exact HS]]].
    unfold update_at. rewrite length_update; lia. }
  rewrite Hmb. cbn [bind].
  destruct (setitem_ok (repeat true n) top false) as (mask & Hmask & _);
    [rewrite repeat_length; exact Htoplt |].
  rewrite Hmask. cbn [bind].
  rewrite (mask_getitem_remove n L top mask HL Htoplt Hmask). cbn [bind].
  rewrite (mask_getitem_remove n V top mask HV Htoplt Hmask). cbn [bind].
  rewrite (mask_getitem_remove n R top mask HR Htoplt Hmask). cbn [bind].
  pose proof (mask_submatrix_remove n Sm top mask HS Htoplt Hmask) as HSrem.
  destruct (mask_getitem Sm mask) as [S_rows | e] eqn:Hrows;
    cbn [bind] in HSrem; [| discriminate].
  cbn [bind]. rewrite HSrem. cbn [bind].
  destruct (analyze_team_state_ok (n - 1) (remove_at top L) (remove_at top V)
              (remove_at top R) (remove_node top Sm) kappa eps)
    as (mc & Hmc & _).
  { split; [| split; [| split]].
    - rewrite remove_at_length; lia.
    - rewrite remove_at_length; lia.
    - rewrite remove_at_length; lia.
    - apply remove_node_shape; assumption. }
  rewrite Hmc. cbn [bind].
  exists m, top, k, u, v, ma, mb, mc.
  repeat (split; [first [assumption | reflexivity | lia] |]).
  reflexivity.
Qed.

(** ** What the worst-case scenarios report *)

Lemma margin_change_single_entry (n : nat) (L V R : list Q)
    (Sm Sm' : list (list Q)) (kappa eps : Q) (i j : nat) (h : Q)
    (m m' : metrics) :
  snapshot n L V R Sm -> shape2 n n Sm' -> (i < j < n)%nat ->
  entry Sm' i j == entry Sm i j + h ->
  (forall a b, (a < b < n)%nat -> (a, b) <> (i, j) ->
     entry Sm' a b == entry Sm a b) ->
  analyze_team_state L V R Sm kappa eps = Ok m ->
  analyze_team_state L V R Sm' kappa eps = Ok m' ->
  Margin m' - Margin m == h * (kappa * nth i (G m) 0 * nth j (G m) 0 + 1).
Proof.
  intros Hsnap HS' Hij Hhere Hother Hm Hm'.
  pose proof Hsnap as (HL & HV & HR & HS).
  destruct (analyze_team_state_ok n L V R Sm kappa eps Hsnap)
    as (m0 & Hm0 & HG & HK & HD & HM & _).
  rewrite Hm in Hm0. inversion Hm0; subst m0. clear Hm0.
  destruct (analyze_team_state_ok n L V R Sm' kappa eps
              (conj HL (conj HV (conj HR HS'))))
    as (m1 & Hm1 & _ & HK' & HD' & HM' & _).
  rewrite Hm' in Hm1. inversion Hm1; subst m1. clear Hm1.
  set (g := gravities L V R eps) in *.
  assert (HKd : K_team m' == K_team m + kappa * nth i g 0 * nth j g 0 * h).
  { rewrite HK, HK'. unfold K_spec.
    apply (pair_sum_single_change n i j); [exact Hij | |].
    - rewrite Hhere. ring.
    - intros a b Hab Hne. rewrite (Hother a b Hab Hne). reflexivity. }
  assert (HDd : D_team m' == D_team m - h).
  { rewrite HD, HD'. unfold D_spec.
    rewrite (pair_sum_single_change n i j
               (fun a b => 1 - entry Sm a b)
               (fun a b => 1 - entry Sm' a b) (- h) Hij).
    - ring.
    - rewrite Hhere. ring.
    - intros a b Hab Hne. rewrite (Hother a b Hab Hne). reflexivity. }
  rewrite HM, HM', HKd, HDd, HG. ring.
Qed.

Lemma binding_term_mono_weak (kappa x x' y y' s : Q) :
  0 <= kappa -> 0 <= x' -> x' <= x -> 0 <= y' -> y' <= y -> 0 <= s ->
  kappa * x' * y' * s <= kappa * x * y * s.
Proof.
  intros Hk Hx' Hx Hy' Hy Hs.
  assert (H1 : x' * y' <= x * y) by nra.
  assert (H2 : 0 <= kappa * s) by nra.
  setoid_replace (kappa * x' * y' * s) with (kappa * s * (x' * y')) by ring.
  setoid_replace (kappa * x * y * s) with (kappa * s * (x * y)) by ring.
  nra.
Qed.


Lemma update_at_nth (a : list Q) (i k : nat) (x : Q) :
  (i < length a)%nat ->
  nth k (update_at i x a) 0 = if (k =? i)%nat then x else nth k a 0.
Proof. intro Hi. unfold update_at. apply nth_update. exact Hi. Qed.

(** X12. On every snapshot of at least two nodes the worst-case analysis
    returns the three scenarios [Edge_Break], [R_Spike], [Node_Exit] in
    this order, the base margin it returns is the evaluator's margin of
    the snapshot, and every scenario's drop is that base margin minus the
    scenario's new margin. *)
Theorem run_worst_case_scenarios_report (n : nat) (L V R : list Q)
    (Sm : list (list Q)) (kappa eps : Q) :
  snapshot n L V R Sm -> (2 <= n)%nat ->
  exists results base m,
    run_worst_case_scenarios L V R Sm kappa eps = Ok (results, base)
    /\ analyze_team_state L V R Sm kappa eps = Ok m
    /\ base = Margin m
    /\ map fst results = [ "Edge_Break"; "R_Spike"; "Node_Exit" ]%string
    /\ Forall (fun kv =>
                 Margin_Drop (snd kv) = base - New_Margin (snd kv)) results.
Proof.
  intros Hsnap Hn.
  destruct (run_worst_case_scenarios_unfold n L V R Sm kappa eps Hsnap Hn)
    as (m & top & k & u & v & ma & mb & mc & Hm & _ & _ & _ & _ & _ & _ & _
        & Hrun).
  eexists. eexists. exists m. split; [exact Hrun |].
  split; [exact Hm |]. split; [reflexivity |]. split; [reflexivity |].
  repeat constructor.
Qed.

Lemma run_worst_case_scenarios_report_witness :
  snapshot 4 example_L example_V example_R example_S
  /\ exists results base,
       run_worst_case_scenarios example_L example_V example_R example_S
         default_kappa default_eps = Ok (results, base)
       /\ Forall (fun kv =>
                    Margin_Drop (snd kv) = base - New_Margin (snd kv)) results.
Proof.
  split; [exact example_snapshot |].
  destruct (run_worst_case_scenarios_report 4 example_L example_V example_R
              example_S default_kappa default_eps example_snapshot)
    as (results & base & m & Hrun & _ & _ & _ & Hdrop).
  - lia.
  - exists results, base. split; [exact Hrun | exact Hdrop].
Defined.

(** X13. The worst-case analysis needs two nodes: on the empty snapshot it
    stops with [ValueError] ([np.argmax] of an empty array) and on a
    snapshot of one node with [IndexError] (the default edge [(0, 1)] is
    outside [S]). *)
Theorem run_worst_case_scenarios_small_team (n : nat) (L V R : list Q)
    (Sm : list (list Q)) (kappa eps : Q) :
  snapshot n L V R Sm ->
  (n = 0%nat ->
   run_worst_case_scenarios L V R Sm kappa eps = Raise ValueError)
  /\ (n = 1%nat ->
      run_worst_case_scenarios L V R Sm kappa eps = Raise IndexError).
Proof.
  intro Hsnap. pose proof Hsnap as (HL & HV & HR & HS).
  destruct (analyze_team_state_ok n L V R Sm kappa eps Hsnap)
    as (m & Hm & HG & _).
  assert (Hglen : length (G m) = n)
    by (rewrite HG, gravities_length; exact HL).
  split; intro Hn; unfold run_worst_case_scenarios;
    rewrite Hm; cbn [bind]; cbv zeta.
  - destruct (G m) as [|x t]; [reflexivity | simpl in Hglen; lia].
  - destruct (argmax_ok (G m)) as (top & Htop & _); [lia |].
    rewrite Htop. cbn [bind].
    rewrite HL, (strongest_edge_fold n (G m) Sm kappa Hglen HS). cbn [bind].
    rewrite Hn in HS |- *. simpl fst. simpl snd.
    rewrite (getitem2_out 1 1 Sm 0 1 HS) by lia. reflexivity.
Qed.

Lemma run_worst_case_scenarios_small_team_witness :
  snapshot 1 [12] [8] [2 # 10] [ [1] ]
  /\ run_worst_case_scenarios [12] [8] [2 # 10] [ [1] ]
       default_kappa default_eps = Raise IndexError.
Proof.
  assert (H : snapshot 1 [12] [8] [2 # 10] [ [1] ])
    by (unfold snapshot, shape2; repeat split; repeat constructor).
  split; [exact H |].
  apply (run_worst_case_scenarios_small_team 1 [12] [8] [2 # 10] [ [1] ]
           default_kappa default_eps H).
  reflexivity.
Defined.



Lemma edge_break_entries (n : nat) (Sm : list (list Q)) (u v : nat) :
  shape2 n n Sm -> (u < v < n)%nat ->
  shape2 n n (edge_break Sm u v)
  /\ entry (edge_break Sm u v) u v = entry Sm u v * (6 # 10)
  /\ forall a b, (a < b)%nat -> (a, b) <> (u, v) ->
       entry (edge_break Sm u v) a b = entry Sm a b.
Proof.
  intros HS Huv. unfold edge_break. cbv zeta.
  assert (Hu : (u < n)%nat) by lia. assert (Hv : (v < n)%nat) by lia.
  pose proof (shape2_set2 n Sm u v (entry Sm u v * (6 # 10)) HS Hu Hv) as HS1.
  split; [apply shape2_set2; assumption |]. split.
  - rewrite (entry_set2 n) by assumption.
    destruct (Nat.eqb_spec u v) as [Heq | _]; [lia |]. simpl.
    rewrite (entry_set2 n) by assumption.
    rewrite !Nat.eqb_refl. reflexivity.
  - intros a b Hab Hne.
    rewrite (entry_set2 n) by assumption.
    assert (H1 : ((a =? v) && (b =? u))%nat%bool = false).
    { destruct (Nat.eqb_spec a v) as [Hav | _]; [| reflexivity].
      destruct (Nat.eqb_spec b u) as [Hbu | _]; [lia | reflexivity]. }
    rewrite H1. rewrite (entry_set2 n) by assumption.
    assert (H2 : ((a =? u) && (b =? v))%nat%bool = false).
    { destruct (Nat.eqb_spec a u) as [Hau | _]; [| reflexivity].
      destruct (Nat.eqb_spec b v) as [Hbv | _]; [| reflexivity].
      subst a b. contradiction. }
    rewrite H2. reflexivity.
Qed.

(** X15. The [Edge_Break] scenario weakens a pair [(u, v)] whose binding
    term [kappa * G[u] * G[v] * S[u][v]] no other pair exceeds.  On a
    snapshot of at least two nodes with [L], [V], [R] and the entries of
    [S] non-negative, [kappa >= 0] and [eps > 0], its reported drop is
    0.4 times the sum of that binding term and [S[u][v]], hence never
    negative. *)
Theorem worst_case_edge_break (n : nat) (L V R : list Q)
    (Sm : list (list Q)) (kappa eps : Q) :
  snapshot n L V R Sm -> (2 <= n)%nat ->
  Forall (Qle 0) L -> Forall (Qle 0) V -> Forall (Qle 0) R ->
  (forall a b, (a < n)%nat -> (b < n)%nat -> 0 <= entry Sm a b) ->
  0 <= kappa -> 0 < eps ->
  exists results base broken m u v,
    run_worst_case_scenarios L V R Sm kappa eps = Ok (results, base)
    /\ dict_get results "Edge_Break" = Some broken
    /\ analyze_team_state L V R Sm kappa eps = Ok m
    /\ (u < v < n)%nat
    /\ (forall a b, (a < b < n)%nat ->
          binding_term (G m) Sm kappa a b <= binding_term (G m) Sm kappa u v)
    /\ Description broken
       = ("Strongest Edge (" ++ string_of_nat u ++ "-" ++ string_of_nat v
          ++ ") S -40%")%string
    /\ Margin_Drop broken
       == (4 # 10) * (binding_term (G m) Sm kappa u v + entry Sm u v)
    /\ 0 <= Margin_Drop broken.
Proof.
  intros Hsnap Hn HL0 HV0 HR0 HS0 Hk He.
  destruct (run_worst_case_scenarios_unfold n L V R Sm kappa eps Hsnap Hn)
    as (m & top & k & u & v & ma & mb & mc & Hm & _ & _ & Hfold & Huv & Hma
        & _ & _ & Hrun).
  pose proof Hsnap as (HL & HV & HR & HS).
  assert (HG : G m = gravities L V R eps).
  { destruct (analyze_team_state_ok n L V R Sm kappa eps Hsnap)
      as (m0 & Hm0 & HG & _).
    rewrite Hm in Hm0. inversion Hm0; subst m0. exact HG. }
  assert (Hterm : forall a b, (a < n)%nat -> (b < n)%nat ->
            0 <= binding_term (G m) Sm kappa a b).
  { intros a b Ha Hb. unfold binding_term. rewrite HG.
    apply Qmult_le_0_compat; [| apply HS0; assumption].
    apply Qmult_le_0_compat; [| apply gravities_nonneg; assumption].
    apply Qmult_le_0_compat; [exact Hk |].
    apply gravities_nonneg; assumption. }
  assert (Hk_uv : k == binding_term (G m) Sm kappa u v
                  /\ forall a b, (a < b < n)%nat ->
                       binding_term (G m) Sm kappa a b <= k).
  { destruct (strongest_fold_bound (G m) Sm kappa (pairs n)
                (- (1), (0%nat, 1%nat))) as [_ Hall].
    rewrite Hfold in Hall. simpl in Hall.
    assert (Hmax : forall a b, (a < b < n)%nat ->
              binding_term (G m) Sm kappa a b <= k).
    { intros a b Hab. apply (Hall (a, b)). apply in_pairs. exact Hab. }
    split; [| exact Hmax].
    destruct (strongest_fold_choice (G m) Sm kappa (pairs n)
                (- (1), (0%nat, 1%nat))) as [Heq | [[a b] [Hp Heq]]].
    - rewrite Heq in Hfold. inversion Hfold; subst k u v.
      exfalso. pose proof (Hmax 0%nat 1%nat ltac:(lia)) as H01.
      pose proof (Hterm 0%nat 1%nat ltac:(lia) ltac:(lia)) as H0.
      assert (Hneg : - (1) < 0) by reflexivity. lra.
    - rewrite Heq in Hfold. inversion Hfold; subst k a b. reflexivity. }
  destruct Hk_uv as [Hkeq Hmax].
  destruct (edge_break_entries n Sm u v HS Huv) as (HSb & Hhere & Hother).
  pose proof (margin_change_single_entry n L V R Sm (edge_break Sm u v)
                kappa eps u v (- ((4 # 10) * entry Sm u v)) m ma
                Hsnap HSb Huv) as Hchange.
  assert (Hdrop : Margin m - Margin ma
                  == (4 # 10) * (binding_term (G m) Sm kappa u v
                                 + entry Sm u v)).
  { assert (H : Margin ma - Margin m
                == - ((4 # 10) * entry Sm u v)
                   * (kappa * nth u (G m) 0 * nth v (G m) 0 + 1)).
    { apply Hchange; try assumption.
      - rewrite Hhere. ring.
      - intros a b Hab Hne. rewrite (Hother a b) by (try lia; exact Hne).
        reflexivity. }
    unfold binding_term.
    setoid_replace (Margin m - Margin ma) with (- (Margin ma - Margin m))
      by ring.
    rewrite H. ring. }
  eexists. eexists. eexists. exists m, u, v.
  split; [exact Hrun |]. split; [reflexivity |]. split; [exact Hm |].
  split; [exact Huv |]. split.
  - intros a b Hab. rewrite <- Hkeq. apply Hmax. exact Hab.
  - split; [reflexivity |]. simpl. split; [exact Hdrop |].
    rewrite Hdrop.
    pose proof (Hterm u v ltac:(lia) ltac:(lia)).
    pose proof (HS0 u v ltac:(lia) ltac:(lia)). lra.
Qed.

Lemma worst_case_edge_break_witness :
  snapshot 4 example_L example_V example_R example_S
  /\ exists results base broken,
       run_worst_case_scenarios example_L example_V example_R example_S
         default_kappa default_eps = Ok (results, base)
       /\ dict_get results "Edge_Break" = Some broken
       /\ 0 <= Margin_Drop broken.
Proof.
  split; [exact example_snapshot |].
  destruct (worst_case_edge_break 4 example_L example_V example_R
              example_S default_kappa default_eps example_snapshot)
    as (results & base & broken & m & u & v & Hrun & Hget & _ & _ & _ & _
        & _ & Hd).
  - lia.
  - exact (proj1 example_nonneg).
  - exact (proj1 (proj2 example_nonneg)).
  - exact (proj2 (proj2 example_nonneg)).
  - exact example_S_nonneg.
  - vm_compute. discriminate.
  - vm_compute. reflexivity.
  - exists results, base, broken. repeat split; assumption.
Defined.

(** ** The node exit *)

Lemma split_at {A : Type} (d : A) (l : list A) (i : nat) :
  (i < length l)%nat -> l = firstn i l ++ nth i l d :: skipn (i + 1) l.
Proof.
  revert i. induction l as [|x l IH]; intros i Hi; simpl in Hi; [lia |].
  destruct i as [|i]; simpl; [reflexivity |].
  f_equal. apply IH. lia.
Qed.

Lemma remove_at_map {A B : Type} (f : A -> B) (i : nat) (l : list A) :
  remove_at i (map f l) = map f (remove_at i l).
Proof.
  unfold remove_at. rewrite map_app, firstn_map, skipn_map. reflexivity.
Qed.

Lemma remove_at_indices {A : Type} (d : A) (i : nat) (a : list A) :
  remove_at i a
  = map (fun k => nth k a d) (remove_at i (seq 0 (length a))).
Proof.
  rewrite <- remove_at_map, map_nth_seq. reflexivity.
Qed.

Lemma remove_at_seq_perm (n top : nat) :
  (top < n)%nat ->
  Permutation (seq 0 n) (top :: remove_at top (seq 0 n)).
Proof.
  intro Ht. unfold remove_at.
  rewrite (split_at 0%nat (seq 0 n) top) at 1 by (rewrite length_seq; exact Ht).
  rewrite seq_nth by exact Ht. simpl.
  apply Permutation_sym, Permutation_middle.
Qed.

Lemma remove_at_seq_range (n top x : nat) :
  In x (remove_at top (seq 0 n)) -> (x < n)%nat.
Proof.
  intro H. apply In_remove_at in H. apply in_seq in H. lia.
Qed.

Lemma remove_node_permute (n top : nat) (Sm : list (list Q)) :
  shape2 n n Sm ->
  remove_node top Sm = permute_mat (remove_at top (seq 0 n)) Sm.
Proof.
  intros [Hr Hc]. unfold remove_node, permute_mat.
  rewrite (remove_at_indices [] top Sm), Hr, map_map.
  apply map_ext_in. intros i Hi. apply remove_at_seq_range in Hi.
  rewrite (remove_at_indices 0 top (nth i Sm [])).
  rewrite Forall_forall in Hc. rewrite (Hc (nth i Sm [])).
  - reflexivity.
  - apply nth_In. lia.
Qed.

Lemma pair_sum_index (k : nat) (p : list nat) (f : nat -> nat -> Q) :
  length p = k ->
  pair_sum k (fun a b => f (nth a p 0%nat) (nth b p 0%nat))
  == list_pair_sum f p.
Proof.
  intro Hlen. rewrite pair_sum_list.
  rewrite <- (list_pair_sum_map f (fun a => nth a p 0%nat)).
  rewrite <- Hlen, map_nth_seq. reflexivity.
Qed.

Lemma restricted_metrics (n k : nat) (L V R : list Q) (Sm : list (list Q))
    (kappa eps : Q) (p : list nat) :
  snapshot n L V R Sm -> length p = k ->
  (forall x, In x p -> (x < n)%nat) ->
  K_spec k (gravities (permute_vec p L) (permute_vec p V) (permute_vec p R)
              eps) (permute_mat p Sm) kappa
  == list_pair_sum (binding_term (gravities L V R eps) Sm kappa) p
  /\ D_spec k (permute_vec p R) (permute_mat p Sm)
     == Qsum (map (fun i => nth i R 0) p)
        + list_pair_sum (fun i j => 1 - entry Sm i j) p.
Proof.
  intros (HL & HV & HR & HS) Hlen Hp.
  assert (Hin : forall a, (a < k)%nat -> (nth a p 0%nat < n)%nat)
    by (intros a Ha; apply Hp, nth_In; lia).
  split.
  - unfold K_spec.
    rewrite <- (pair_sum_index k p
                  (binding_term (gravities L V R eps) Sm kappa) Hlen).
    apply pair_sum_ext. intros a b Hab. unfold binding_term.
    rewrite !gravities_nth
      by (rewrite ?permute_vec_length, ?HL; first [lia | apply Hin; lia]).
    rewrite !permute_vec_nth by lia.
    rewrite permute_mat_entry by lia. reflexivity.
  - unfold D_spec. apply Qplus_comp; [reflexivity |].
    rewrite <- (pair_sum_index k p (fun i j => 1 - entry Sm i j) Hlen).
    apply pair_sum_ext. intros a b Hab.
    rewrite permute_mat_entry by lia. reflexivity.
Qed.

(** X16. The [Node_Exit] scenario removes a node [top] whose gravity no
    other node exceeds.  For a symmetric [S] on at least two nodes its
    reported drop is the binding energy of the edges of [top] minus the
    friction that leaves with it: the sum over the other nodes [j] of
    [kappa * G[top] * G[j] * S[top][j]], minus [R[top]] and minus the sum
    of [1 - S[top][j]]. *)
Theorem worst_case_node_exit (n : nat) (L V R : list Q)
    (Sm : list (list Q)) (kappa eps : Q) :
  snapshot n L V R Sm -> (2 <= n)%nat ->
  (forall a b, (a < n)%nat -> (b < n)%nat -> entry Sm a b == entry Sm b a) ->
  exists results base gone m top,
    run_worst_case_scenarios L V R Sm kappa eps = Ok (results, base)
    /\ dict_get results "Node_Exit" = Some gone
    /\ analyze_team_state L V R Sm kappa eps = Ok m
    /\ (top < n)%nat
    /\ (forall i, (i < n)%nat -> nth i (G m) 0 <= nth top (G m) 0)
    /\ Description gone
       = ("Top Node (" ++ string_of_nat top ++ ") Removed")%string
    /\ Margin_Drop gone
       == Qsum (map (binding_term (G m) Sm kappa top)
                    (remove_at top (seq 0 n)))
          - (nth top R 0
             + Qsum (map (fun j => 1 - entry Sm top j)
                         (remove_at top (seq 0 n)))).
Proof.
  intros Hsnap Hn Hsym.
  destruct (run_worst_case_scenarios_unfold n L V R Sm kappa eps Hsnap Hn)
    as (m & top & k & u & v & ma & mb & mc & Hm & Htop & Htoplt & _ & _ & _
        & _ & Hmc & Hrun).
  pose proof Hsnap as (HL & HV & HR & HS).
  pose proof (symmetric_everywhere n Sm HS Hsym) as Hsym'.
  set (rest := remove_at top (seq 0 n)) in *.
  assert (Hrest_len : length rest = (n - 1)%nat)
    by (unfold rest; rewrite remove_at_length; rewrite length_seq; lia).
  assert (Hrest_in : forall x, In x rest -> (x < n)%nat)
    by (intros x Hx; apply (remove_at_seq_range n top x Hx)).
  destruct (analyze_team_state_ok n L V R Sm kappa eps Hsnap)
    as (m0 & Hm0 & HG & HK & HD & HM & _).
  rewrite Hm in Hm0. inversion Hm0; subst m0. clear Hm0.
  assert (HLr : remove_at top L = permute_vec rest L)
    by (unfold rest, permute_vec; rewrite <- HL; apply remove_at_indices).
  assert (HVr : remove_at top V = permute_vec rest V)
    by (unfold rest, permute_vec; rewrite <- HV; apply remove_at_indices).
  assert (HRr : remove_at top R = permute_vec rest R)
    by (unfold rest, permute_vec; rewrite <- HR; apply remove_at_indices).
  assert (HSr : remove_node top Sm = permute_mat rest Sm)
    by (apply remove_node_permute; exact HS).
  rewrite HLr, HVr, HRr, HSr in Hmc.
  destruct (analyze_team_state_ok (n - 1) (permute_vec rest L)
              (permute_vec rest V) (permute_vec rest R)
              (permute_mat rest Sm) kappa eps)
    as (m1 & Hm1 & _ & HK1 & HD1 & HM1 & _).
  { unfold snapshot. rewrite !permute_vec_length, Hrest_len.
    repeat split; try reflexivity.
    - rewrite <- Hrest_len. apply permute_mat_shape.
    - rewrite <- Hrest_len. apply permute_mat_shape. }
  rewrite Hmc in Hm1. inversion Hm1; subst m1. clear Hm1.
  destruct (restricted_metrics n (n - 1) L V R Sm kappa eps rest Hsnap
              Hrest_len Hrest_in) as [HKr HDr].
  rewrite HKr in HK1. rewrite HDr in HD1.
  set (F := binding_term (gravities L V R eps) Sm kappa) in *.
  assert (HFsym : forall x y, F x y == F y x).
  { intros x y. unfold F, binding_term. rewrite (Hsym' x y). ring. }
  pose proof (remove_at_seq_perm n top Htoplt) as Hperm. fold rest in Hperm.
  assert (HKsplit : K_team m
                    == Qsum (map (F top) rest) + list_pair_sum F rest).
  { rewrite HK. unfold K_spec.
    transitivity (list_pair_sum F (seq 0 n)).
    - rewrite <- pair_sum_list. apply pair_sum_ext. intros a b _.
      reflexivity.
    - rewrite (list_pair_sum_perm F _ _ HFsym Hperm). reflexivity. }
  assert (HDsplit : D_team m
                    == nth top R 0 + Qsum (map (fun i => nth i R 0) rest)
                       + (Qsum (map (fun j => 1 - entry Sm top j) rest)
                          + list_pair_sum (fun i j => 1 - entry Sm i j) rest)).
  { rewrite HD. unfold D_spec.
    assert (Hmis : pair_sum n (fun i j => 1 - entry Sm i j)
                   == Qsum (map (fun j => 1 - entry Sm top j) rest)
                      + list_pair_sum (fun i j => 1 - entry Sm i j) rest).
    { assert (Hmsym : forall x y, 1 - entry Sm x y == 1 - entry Sm y x)
        by (intros x y; rewrite (Hsym' x y); reflexivity).
      rewrite pair_sum_list.
      rewrite (list_pair_sum_perm (fun i j => 1 - entry Sm i j) _ _
                 Hmsym Hperm).
      reflexivity. }
    assert (HRsum : Qsum R == nth top R 0
                              + Qsum (map (fun i => nth i R 0) rest)).
    { transitivity (Qsum (map (fun i => nth i R 0) (seq 0 n))).
      - rewrite <- HR, map_nth_seq. reflexivity.
      - rewrite (Qsum_perm _ _ (Permutation_map (fun i => nth i R 0) Hperm)).
        reflexivity. }
    rewrite Hmis, HRsum. ring. }
  eexists. eexists. eexists. exists m, top.
  split; [exact Hrun |]. split; [reflexivity |]. split; [exact Hm |].
  split; [exact Htoplt |]. split.
  - intros i Hi. destruct (argmax_max (G m) top Htop) as [_ Hmax].
    apply Hmax. rewrite HG, gravities_length. lia.
  - split; [reflexivity |]. simpl.
    rewrite HM, HM1, HKsplit, HDsplit, HK1, HD1, HG. fold F. fold rest. ring.
Qed.

Lemma worst_case_node_exit_witness :
  snapshot 4 example_L example_V example_R example_S_sym
  /\ exists results base gone top,
       run_worst_case_scenarios example_L example_V example_R example_S_sym
         default_kappa default_eps = Ok (results, base)
       /\ dict_get results "Node_Exit" = Some gone
       /\ Description gone
          = ("Top Node (" ++ string_of_nat top ++ ") Removed")%string.
Proof.
  assert (H1 : snapshot 4 example_L example_V example_R example_S_sym)
    by (unfold snapshot, shape2; repeat split; repeat constructor).
  split; [exact H1 |].
  destruct (worst_case_node_exit 4 example_L example_V example_R
              example_S_sym default_kappa default_eps H1)
    as (results & base & gone & m & top & Hrun & Hget & _ & _ & _ & Hdesc & _).
  - lia.
  - exact example_S_sym_symmetric.
  - exists results, base, gone, top. repeat split; assumption.
Defined.

(** A node exit can raise the margin: two nodes without gravity, the
    first one carrying all the resistance. *)
Example node_exit_can_help :
  exists results base gone,
    run_worst_case_scenarios [0; 0] [1; 1] [2; 0] [ [1; 1]; [1; 1] ]
      default_kappa default_eps = Ok (results, base)
    /\ dict_get results "Node_Exit" = Some gone
    /\ Margin_Drop gone < 0.
Proof.
  eexists. eexists. eexists.
  split; [vm_compute; reflexivity |].
  split; [vm_compute; reflexivity |].
  vm_compute. reflexivity.
Qed.

(** ** The Monte Carlo statistics *)

Lemma ndmin_le (x : Q) (t : list Q) :
  ndmin x t <= x /\ forall y, In y t -> ndmin x t <= y.
Proof.
  unfold ndmin. revert x. induction t as [|z t IH]; intro x; simpl.
  - split; [apply Qle_refl | contradiction].
  - destruct (IH (Qmin x z)) as [H1 H2]. split.
    + apply Qle_trans with (Qmin x z); [exact H1 | apply Q.le_min_l].
    + intros y [-> | Hy].
      * apply Qle_trans with (Qmin x y); [exact H1 | apply Q.le_min_r].
      * apply H2. exact Hy.
Qed.

Lemma inject_nat_succ (k : nat) :
  inject_Z (Z.of_nat (S k)) == inject_Z (Z.of_nat k) + 1.
Proof. rewrite Nat2Z.inj_succ, <- Z.add_1_r, inject_Z_plus. reflexivity. Qed.

Lemma inject_nat_nonneg (k : nat) : 0 <= inject_Z (Z.of_nat k).
Proof. rewrite <- (Zle_Qle 0). apply Nat2Z.is_nonneg. Qed.

Lemma inject_nat_pos (k : nat) : (0 < k)%nat -> 0 < inject_Z (Z.of_nat k).
Proof. intro H. rewrite <- (Zlt_Qlt 0). lia. Qed.

Lemma inject_nat_le (a b : nat) :
  (a <= b)%nat -> inject_Z (Z.of_nat a) <= inject_Z (Z.of_nat b).
Proof. intro H. rewrite <- Zle_Qle. lia. Qed.

Lemma Qsum_ge_bound (c : Q) (l : list Q) :
  (forall y, In y l -> c <= y) ->
  inject_Z (Z.of_nat (length l)) * c <= Qsum l.
Proof.
  induction l as [|y l IH]; intro H.
  - change (0 * c <= 0). rewrite Qmult_0_l. apply Qle_refl.
  - cbn [length Qsum fold_right]. rewrite inject_nat_succ.
    assert (Hy : c <= y) by (apply H; left; reflexivity).
    assert (Hl : inject_Z (Z.of_nat (length l)) * c <= Qsum l)
      by (apply IH; intros z Hz; apply H; right; exact Hz).
    unfold Qsum in Hl. lra.
Qed.

Lemma insert_asc_perm (x : Q) (l : list Q) :
  Permutation (x :: l) (insert_asc x l).
Proof.
  induction l as [|y t IH]; simpl.
  - apply Permutation_refl.
  - destruct (Qle_bool x y).
    + apply Permutation_refl.
    + apply perm_trans with (y :: x :: t); [apply perm_swap |].
      apply perm_skip. exact IH.
Qed.

Lemma sort_asc_perm (l : list Q) : Permutation l (sort_asc l).
Proof.
  induction l as [|x l IH]; simpl.
  - apply perm_nil.
  - apply perm_trans with (x :: sort_asc l);
      [apply perm_skip; exact IH | apply insert_asc_perm].
Qed.

Lemma percentile_ge_bound (c : Q) (a : list Q) :
  a <> [] -> (forall y, In y a -> c <= y) -> c <= percentile a 5.
Proof.
  intros Hne Hall. unfold percentile. cbv zeta.
  set (N := length a). assert (HN : (0 < N)%nat).
  { unfold N. destruct a; [contradiction | simpl; lia]. }
  set (pos := inject_Z (Z.of_nat (N - 1)) * 5 / 100).
  assert (Hpos0 : 0 <= pos).
  { unfold pos. pose proof (inject_nat_nonneg (N - 1)) as H.
    apply Qle_shift_div_l; [reflexivity | lra]. }
  assert (Hpos1 : pos <= inject_Z (Z.of_nat (N - 1))).
  { unfold pos. pose proof (inject_nat_nonneg (N - 1)) as H.
    apply Qle_shift_div_r; [reflexivity | lra]. }
  assert (Hfl0 : (0 <= Qfloor pos)%Z).
  { rewrite <- (Qfloor_Z 0). apply Qfloor_resp_le. exact Hpos0. }
  assert (Hfl1 : (Qfloor pos <= Z.of_nat (N - 1))%Z).
  { rewrite <- (Qfloor_Z (Z.of_nat (N - 1))). apply Qfloor_resp_le.
    exact Hpos1. }
  assert (Hlo : (Z.to_nat (Qfloor pos) < N)%nat) by lia.
  assert (Hhi : (Nat.min (Z.to_nat (Qfloor pos) + 1) (N - 1) < N)%nat) by lia.
  assert (Hsrt : forall k, (k < N)%nat -> c <= nth k (sort_asc a) 0).
  { intros k Hk. apply Hall.
    apply (Permutation_in _ (Permutation_sym (sort_asc_perm a))).
    apply nth_In. rewrite <- (Permutation_length (sort_asc_perm a)).
    exact Hk. }
  pose proof (Hsrt _ Hlo) as Ha. pose proof (Hsrt _ Hhi) as Hb.
  assert (Hfrac0 : 0 <= pos - inject_Z (Qfloor pos))
    by (pose proof (Qfloor_le pos); lra).
  assert (Hfrac1 : pos - inject_Z (Qfloor pos) <= 1).
  { pose proof (Qlt_floor pos) as H.
    rewrite inject_Z_plus in H. change (inject_Z 1) with 1 in H. lra. }
  set (f := pos - inject_Z (Qfloor pos)) in *.
  set (x := nth (Z.to_nat (Qfloor pos)) (sort_asc a) 0) in *.
  set (y := nth (Nat.min (Z.to_nat (Qfloor pos) + 1) (N - 1)) (sort_asc a) 0)
    in *.
  assert (H1 : 0 <= (1 - f) * (x - c)) by (apply Qmult_le_0_compat; lra).
  assert (H2 : 0 <= f * (y - c)) by (apply Qmult_le_0_compat; lra).
  setoid_replace (x + f * (y - x)) with (c + ((1 - f) * (x - c) + f * (y - c)))
    by ring.
  lra.
Qed.

Lemma monte_carlo_trial_counts (normal : nat -> Q) (n : nat) (L V R : list Q)
    (Sm : list (list Q)) (noise_scale : Q) (st : nat * list Q * nat) :
  snapshot n L V R Sm -> 0 <= noise_scale ->
  exists st',
    monte_carlo_trial normal L V R Sm noise_scale st = Ok st'
    /\ length (snd (fst st')) = S (length (snd (fst st)))
    /\ (snd st' <= S (snd st))%nat.
Proof.
  intros (HL & HV & HR & HS) Hns. destruct st as [[cursor margins] cnt].
  unfold monte_carlo_trial. cbv zeta. rewrite HL.
  rewrite random_normal_ok by lra. cbn [bind].
  rewrite (broadcast_same Qplus L)
    by (rewrite normal_draws_length; exact HL). cbn [bind].
  rewrite random_normal_ok by lra. cbn [bind].
  rewrite (broadcast_same Qplus V)
    by (rewrite normal_draws_length; exact HV). cbn [bind].
  rewrite random_normal_ok by lra. cbn [bind].
  rewrite (broadcast_same Qplus R)
    by (rewrite normal_draws_length; exact HR). cbn [bind].
  rewrite random_normal2_ok by lra. cbn [bind].
  destruct (broadcast2_square Qplus n Sm
              (normal_draws2 normal (cursor + n + n + n)
                 (noise_scale * (5 # 10)) n) HS
              (normal_draws2_shape _ _ _ _)) as (S1 & HS1 & Hshape1).
  rewrite HS1. cbn [bind].
  pose proof (shape2_map (clip 0 1) n n S1 Hshape1) as Hclip.
  destruct (broadcast2_square Qplus n _ _ Hclip
              (shape2_transpose n _ Hclip)) as (S2 & HS2 & Hshape2).
  rewrite HS2. cbn [bind].
  pose proof (shape2_map (fun x => x / 2) n n S2 Hshape2) as Hhalf.
  destruct (analyze_team_state_ok n
              (map (Qmax 0) (map (fun p => fst p + snd p)
                 (combine L (normal_draws normal cursor
                               (noise_scale * 2) n))))
              (map (Qmax 0) (map (fun p => fst p + snd p)
                 (combine V (normal_draws normal (cursor + n)
                               (noise_scale * 2) n))))
              (map (Qmax 0) (map (fun p => fst p + snd p)
                 (combine R (normal_draws normal (cursor + n + n)
                               (noise_scale * (5 # 10)) n))))
              (map (map (fun x => x / 2)) S2) default_kappa default_eps)
    as (m & Hm & _).
  { unfold snapshot.
    rewrite !length_map, !length_combine, !normal_draws_length.
    rewrite HL, HV, HR, !Nat.min_id. repeat split; try reflexivity;
      apply Hhalf. }
  rewrite Hm. cbn [bind].
  eexists. split; [reflexivity |]. simpl. split.
  - rewrite length_app. simpl. lia.
  - destruct (negb (Is_Stable m)); lia.
Qed.

(** X17. The Monte Carlo run needs at least one iteration and a noise
    scale that is not negative: with zero iterations it stops with
    [ValueError] ([np.min] of an empty list), and with a negative noise
    scale the first trial stops with [ValueError] ([np.random.normal]
    refuses a negative scale).  With at least one iteration and a
    non-negative noise scale on a snapshot it returns statistics, whatever
    the random draws, in which the instability probability lies between 0
    and 1 and the minimum margin is at most the mean margin and at most
    the 5th percentile. *)
Theorem run_monte_carlo_simulation_statistics (normal : nat -> Q) (n : nat)
    (L V R : list Q) (Sm : list (list Q)) (iterations : nat)
    (noise_scale : Q) :
  snapshot n L V R Sm ->
  (iterations = 0%nat ->
   run_monte_carlo_simulation normal L V R Sm iterations noise_scale
   = Raise ValueError)
  /\ ((0 < iterations)%nat -> noise_scale < 0 ->
      run_monte_carlo_simulation normal L V R Sm iterations noise_scale
      = Raise ValueError)
  /\ ((0 < iterations)%nat -> 0 <= noise_scale ->
      exists res,
        run_monte_carlo_simulation normal L V R Sm iterations noise_scale
        = Ok res
        /\ 0 <= Unstable_Probability res
        /\ Unstable_Probability res <= 1
        /\ Min_Margin res <= Mean_Margin res
        /\ Min_Margin res <= Percentile_5th res).
Proof.
  intro Hsnap. split; [| split].
  - intros ->. reflexivity.
  - intros Hit Hneg. unfold run_monte_carlo_simulation, range.
    destruct iterations as [|k]; [lia |].
    rewrite Nat.sub_0_r. cbn [seq for_range].
    unfold monte_carlo_trial. cbv zeta.
    rewrite random_normal_raises by lra. reflexivity.
  - intros Hit Hns. unfold run_monte_carlo_simulation.
    destruct (for_range_counted
                (fun k (st : nat * list Q * nat) =>
                   length (snd (fst st)) = k /\ (snd st <= k)%nat)
                (range 0 iterations)
                (fun _ st => monte_carlo_trial normal L V R Sm noise_scale st))
      with (k := 0%nat) (s := (0%nat, @nil Q, 0%nat))
      as (st & Hst & Hlen & Hcnt).
    + intros _ s k [Hs Hc].
      destruct (monte_carlo_trial_counts normal n L V R Sm noise_scale s Hsnap
                  Hns) as (s' & Hs' & Hlen' & Hcnt').
      exists s'. split; [exact Hs' |]. split; [congruence | lia].
    + split; [reflexivity | simpl; lia].
    + rewrite Hst. cbn [bind]. destruct st as [[cursor margins] cnt].
      unfold range in Hlen, Hcnt. rewrite length_seq in Hlen, Hcnt.
      simpl in Hlen, Hcnt. rewrite Nat.sub_0_r in Hlen, Hcnt.
      destruct margins as [|x t] eqn:Hmargins; [simpl in Hlen; lia |].
      rewrite <- Hmargins in *.
      eexists. split; [reflexivity |]. simpl.
      pose proof (inject_nat_pos iterations Hit) as HN.
      assert (Hmin : forall y, In y margins -> ndmin x t <= y).
      { intros y Hy. rewrite Hmargins in Hy.
        destruct (ndmin_le x t) as [H1 H2].
        destruct Hy as [<- | Hy]; [exact H1 | apply H2; exact Hy]. }
      split; [| split; [| split]].
      * apply Qle_shift_div_l; [exact HN |].
        rewrite Qmult_0_l. apply inject_nat_nonneg.
      * apply Qle_shift_div_r; [exact HN |].
        rewrite Qmult_1_l. apply inject_nat_le. exact Hcnt.
      * rewrite Hlen. apply Qle_shift_div_l; [exact HN |].
        rewrite ndsum_Qsum.
        pose proof (Qsum_ge_bound (ndmin x t) margins Hmin) as H.
        rewrite Hlen in H. lra.
      * apply percentile_ge_bound; [| exact Hmin].
        rewrite Hmargins. discriminate.
Qed.

Lemma run_monte_carlo_simulation_statistics_witness :
  snapshot 4 example_L example_V example_R example_S
  /\ run_monte_carlo_simulation (fun _ => 0) example_L example_V example_R
       example_S 3 (- (1 # 10)) = Raise ValueError
  /\ exists res,
       run_monte_carlo_simulation (fun _ => 0) example_L example_V example_R
         example_S 3 (1 # 10) = Ok res
       /\ Min_Margin res <= Mean_Margin res.
Proof.
  split; [exact example_snapshot |].
  destruct (run_monte_carlo_simulation_statistics (fun _ => 0) 4 example_L
              example_V example_R example_S 3 (- (1 # 10)) example_snapshot)
    as (_ & Hneg & _).
  destruct (run_monte_carlo_simulation_statistics (fun _ => 0) 4 example_L
              example_V example_R example_S 3 (1 # 10) example_snapshot)
    as (_ & _ & H).
  split; [apply Hneg; [lia | reflexivity] |].
  destruct H as (res & Hres & _ & _ & Hmean & _);
    [lia | vm_compute; discriminate |].
  exists res. split; [exact Hres | exact Hmean].
Defined.

(** ** The report when it runs *)

Lemma insert_desc_perm {A : Type} (key : A -> Q) (x : A) (l : list A) :
  Permutation (x :: l) (insert_desc key x l).
Proof.
  induction l as [|y t IH]; simpl.
  - apply Permutation_refl.
  - destruct (Qle_bool (key y) (key x)).
    + apply Permutation_refl.
    + apply perm_trans with (y :: x :: t); [apply perm_swap |].
      apply perm_skip. exact IH.
Qed.

Lemma sorted_desc_perm {A : Type} (key : A -> Q) (l : list A) :
  Permutation l (sorted_desc key l).
Proof.
  induction l as [|x l IH]; simpl.
  - apply perm_nil.
  - apply perm_trans with (x :: sorted_desc key l);
      [apply perm_skip; exact IH | apply insert_desc_perm].
Qed.

Lemma insert_desc_sorted {A : Type} (key : A -> Q) (x : A) (l : list A) :
  StronglySorted (fun a b => key b <= key a) l ->
  StronglySorted (fun a b => key b <= key a) (insert_desc key x l).
Proof.
  induction l as [|y t IH]; intro Hs; simpl.
  - constructor; constructor.
  - apply StronglySorted_inv in Hs. destruct Hs as [Ht Hy].
    destruct (Qle_bool (key y) (key x)) eqn:Hle.
    + apply Qle_bool_iff in Hle.
      constructor; [constructor; assumption |].
      constructor; [exact Hle |].
      apply Forall_forall. intros b Hb. rewrite Forall_forall in Hy.
      apply Qle_trans with (key y); [apply Hy; exact Hb | exact Hle].
    + apply Qle_bool_false in Hle.
      constructor; [apply IH; exact Ht |].
      apply (Permutation_Forall (insert_desc_perm key x t)).
      constructor; [apply Qlt_le_weak; exact Hle | exact Hy].
Qed.

Lemma sorted_desc_sorted {A : Type} (key : A -> Q) (l : list A) :
  StronglySorted (fun a b => key b <= key a) (sorted_desc key l).
Proof.
  induction l as [|x l IH]; simpl.
  - constructor.
  - apply insert_desc_sorted. exact IH.
Qed.

Lemma sorted_desc_head {A : Type} (key : A -> Q) (l : list A) :
  l <> [] ->
  exists first rest,
    sorted_desc key l = first :: rest
    /\ In first l
    /\ forall x, In x l -> key x <= key first.
Proof.
  intro Hne.
  destruct (sorted_desc key l) as [|first rest] eqn:Hs.
  - exfalso. apply Hne.
    apply Permutation_nil. rewrite <- Hs.
    apply Permutation_sym, sorted_desc_perm.
  - exists first, rest. split; [reflexivity |].
    pose proof (sorted_desc_perm key l) as Hperm. rewrite Hs in Hperm.
    pose proof (sorted_desc_sorted key l) as Hsorted. rewrite Hs in Hsorted.
    apply StronglySorted_inv in Hsorted. destruct Hsorted as [_ Hall].
    split.
    + apply (Permutation_in _ (Permutation_sym Hperm)). left. reflexivity.
    + intros x Hx. apply (Permutation_in _ Hperm) in Hx.
      destruct Hx as [<- | Hx]; [apply Qle_refl |].
      rewrite Forall_forall in Hall. apply Hall. exact Hx.
Qed.

(** X18. With a module-level [base_metrics], as the script's own
    [__main__] block creates it, the report runs to its end on every
    snapshot of at least two nodes.  The base margin it prints is the one
    of that global binding, not the base margin that the worst-case
    analysis just returned; and the scenario it names as the critical
    threat is one whose reported drop no other scenario exceeds. *)
Theorem print_stress_report_completes (normal : nat -> Q)
    (format : string -> Q -> string) (n : nat) (L V R : list Q)
    (Sm : list (list Q)) (names : list string) (base_metrics : metrics) :
  snapshot n L V R Sm -> (2 <= n)%nat ->
  exists out results base name data,
    print_stress_report normal format (Some base_metrics) L V R Sm names
    = (out, Ok tt)
    /\ run_worst_case_scenarios L V R Sm default_kappa default_eps
       = Ok (results, base)
    /\ In ("[2] Worst-Case Scenarios (Base Margin: "
           ++ format ".2f" (Margin base_metrics) ++ ")")%string out
    /\ In (name, data) results
    /\ (forall kv, In kv results -> Margin_Drop (snd kv) <= Margin_Drop data)
    /\ In ("CRITICAL THREAT: " ++ name)%string out.
Proof.
  intros Hsnap Hn. unfold print_stress_report.
  destruct (run_monte_carlo_simulation_ok normal n L V R Sm 5000 (1 # 10)
              Hsnap) as (mc_res & Hmc); [lia | vm_compute; discriminate |].
  rewrite Hmc.
  destruct (run_worst_case_scenarios_ok n L V R Sm default_kappa default_eps
              Hsnap Hn) as (results & base & Hwc & Hkeys & _).
  rewrite Hwc. cbv zeta.
  destruct (sorted_desc_head (fun kv : string * scenario =>
                                Margin_Drop (snd kv)) results)
    as ([name data] & rest & Hsorted & Hin & Hmax).
  { intro Hnil. rewrite Hnil in Hkeys. discriminate Hkeys. }
  rewrite Hsorted.
  eexists. exists results, base, name, data.
  split; [reflexivity |]. split; [reflexivity |]. split.
  - do 3 (apply in_or_app; left). apply in_or_app. right.
    left. reflexivity.
  - split; [exact Hin |]. split; [exact Hmax |].
    apply in_or_app. right. left. reflexivity.
Qed.

Lemma print_stress_report_completes_witness :
  snapshot 4 example_L example_V example_R example_S
  /\ exists out,
       print_stress_report (fun _ => 0) (fun _ _ => "?"%string)
         (Some (mkMetrics [] 0 0 0 false))
         example_L example_V example_R example_S []
       = (out, Ok tt).
Proof.
  split; [exact example_snapshot |].
  destruct (print_stress_report_completes (fun _ => 0)
              (fun _ _ => "?"%string) 4 example_L example_V example_R
              example_S [] (mkMetrics [] 0 0 0 false) example_snapshot)
    as (out & _ & _ & _ & _ & Hrun & _).
  - lia.
  - exists out. exact Hrun.
Defined.

(** ** The Monte Carlo run without noise *)

Lemma Qsum_eq_nth (l l' : list Q) :
  length l = length l' ->
  (forall k, (k < length l)%nat -> nth k l 0 == nth k l' 0) ->
  Qsum l == Qsum l'.
Proof.
  intros Hlen H. apply Qle_antisym.
  - apply Qsum_le_nth; [exact Hlen |].
    intros k Hk. rewrite (H k Hk). apply Qle_refl.
  - apply Qsum_le_nth; [symmetry; exact Hlen |].
    intros k Hk. rewrite (H k) by (rewrite Hlen; exact Hk). apply Qle_refl.
Qed.

Lemma gravity_compat_all (l v r l' v' r' eps : Q) :
  l' == l -> v' == v -> r' == r ->
  gravity l' v' r' eps == gravity l v r eps.
Proof. intros Hl Hv Hr. unfold gravity. rewrite Hl, Hv, Hr. reflexivity. Qed.

(** The evaluator respects equality of rationals, entry by entry, and
    reads of [S] only the pairs [i < j]. *)
Lemma analyze_team_state_compat (n : nat) (L V R L' V' R' : list Q)
    (Sm Sm' : list (list Q)) (kappa eps : Q) (m : metrics) :
  snapshot n L V R Sm -> snapshot n L' V' R' Sm' ->
  (forall i, (i < n)%nat -> nth i L' 0 == nth i L 0) ->
  (forall i, (i < n)%nat -> nth i V' 0 == nth i V 0) ->
  (forall i, (i < n)%nat -> nth i R' 0 == nth i R 0) ->
  (forall i j, (i < j < n)%nat -> entry Sm' i j == entry Sm i j) ->
  analyze_team_state L V R Sm kappa eps = Ok m ->
  exists m',
    analyze_team_state L' V' R' Sm' kappa eps = Ok m'
    /\ Margin m' == Margin m
    /\ Is_Stable m' = Is_Stable m.
Proof.
  intros Hsnap Hsnap' HLe HVe HRe HSe Hm.
  destruct (analyze_team_state_ok n L V R Sm kappa eps Hsnap)
    as (m0 & Hm0 & _ & HK & HD & HM & HSt).
  rewrite Hm in Hm0. injection Hm0 as <-.
  destruct (analyze_team_state_ok n L' V' R' Sm' kappa eps Hsnap')
    as (m' & Hm' & _ & HK' & HD' & HM' & HSt').
  destruct Hsnap as (HL & HV & HR & HS).
  destruct Hsnap' as (HL' & HV' & HR' & HS').
  assert (HKeq : K_team m' == K_team m).
  { rewrite HK, HK'. unfold K_spec. apply pair_sum_ext. intros i j Hij.
    rewrite !gravities_nth by lia.
    rewrite (gravity_compat_all (nth i L 0) (nth i V 0) (nth i R 0)
               (nth i L' 0) (nth i V' 0) (nth i R' 0) eps)
      by (first [apply HLe | apply HVe | apply HRe]; lia).
    rewrite (gravity_compat_all (nth j L 0) (nth j V 0) (nth j R 0)
               (nth j L' 0) (nth j V' 0) (nth j R' 0) eps)
      by (first [apply HLe | apply HVe | apply HRe]; lia).
    rewrite (HSe i j Hij). reflexivity. }
  assert (HDeq : D_team m' == D_team m).
  { rewrite HD, HD'. unfold D_spec. apply Qplus_comp.
    - apply Qsum_eq_nth; [congruence |].
      intros k Hk. apply HRe. lia.
    - apply pair_sum_ext. intros i j Hij. rewrite (HSe i j Hij).
      reflexivity. }
  exists m'. split; [exact Hm' |]. split.
  - rewrite HM, HM', HKeq, HDeq. reflexivity.
  - rewrite HSt, HSt'. apply Qgtb_compat; assumption.
Qed.

Lemma broadcast2_entries (op : Q -> Q -> Q) (n : nat) (A B : list (list Q)) :
  shape2 n n A -> shape2 n n B ->
  exists C,
    broadcast2 op A B = Ok C /\ shape2 n n C
    /\ forall i j, (i < n)%nat -> (j < n)%nat ->
         entry C i j = op (entry A i j) (entry B i j).
Proof.
  intros HA HB. pose proof HA as [HAl HAr]. pose proof HB as [HBl HBr].
  unfold broadcast2.
  rewrite (proj2 (Nat.eqb_eq _ _)) by congruence.
  rewrite Forall_forall in HAr, HBr.
  set (F := fun ab : list Q * list Q =>
              map (fun p => op (fst p) (snd p)) (combine (fst ab) (snd ab))).
  exists (map F (combine A B)).
  split; [| split].
  - apply list_mapM_ok. intros [ra rb] Hin. unfold F. simpl.
    apply broadcast_same.
    rewrite (HAr ra (in_combine_l _ _ _ _ Hin)).
    rewrite (HBr rb (in_combine_r _ _ _ _ Hin)). reflexivity.
  - split.
    + rewrite length_map, length_combine. lia.
    + rewrite Forall_map. apply Forall_forall. intros [ra rb] Hin.
      unfold F. simpl. rewrite length_zip.
      * apply (HAr ra (in_combine_l _ _ _ _ Hin)).
      * rewrite (HAr ra (in_combine_l _ _ _ _ Hin)).
        rewrite (HBr rb (in_combine_r _ _ _ _ Hin)). reflexivity.
  - intros i j Hi Hj. unfold entry.
    change (@nil Q) with (F ([], [])) at 1.
    rewrite map_nth, combine_nth by congruence.
    unfold F. cbn [fst snd].
    apply nth_zip.
    + rewrite (shape2_row n n A i HA Hi), (shape2_row n n B i HB Hi).
      reflexivity.
    + rewrite (shape2_row n n A i HA Hi). exact Hj.
Qed.

Lemma entry_map (f : Q -> Q) (n : nat) (M : list (list Q)) (i j : nat) :
  shape2 n n M -> (i < n)%nat -> (j < n)%nat ->
  entry (map (map f) M) i j = f (entry M i j).
Proof.
  intros HM Hi Hj. unfold entry.
  change (@nil Q) with (map f []) at 1. rewrite map_nth.
  apply nth_map_Q. rewrite (shape2_row n n M i HM Hi). exact Hj.
Qed.

Lemma entry_transpose (n : nat) (M : list (list Q)) (i j : nat) :
  shape2 n n M -> (i < n)%nat -> (j < n)%nat ->
  entry (transpose M) i j = entry M j i.
Proof.
  intros HM Hi Hj. pose proof HM as [Hr Hc]. unfold transpose.
  destruct M as [|row0 M'] eqn:HMeq; [simpl in Hr; lia |].
  rewrite <- HMeq in *.
  assert (Hrow0 : length row0 = n).
  { rewrite Forall_forall in Hc. apply Hc. rewrite HMeq. left. reflexivity. }
  rewrite Hrow0. unfold entry.
  rewrite (nth_indep _ [] (map (fun row => nth 0 row 0) M))
    by (rewrite length_map, length_seq; exact Hi).
  rewrite (map_nth (fun j0 => map (fun row => nth j0 row 0) M) (seq 0 n)
             0%nat i).
  rewrite seq_nth by exact Hi. cbn [Nat.add].
  rewrite (nth_indep _ 0 (nth i [] 0)) by (rewrite length_map; lia).
  apply (map_nth (fun row => nth i row 0) M [] j).
Qed.

Lemma symmetrized_shape (n : nat) (Sm : list (list Q)) :
  shape2 n n (symmetrized n Sm).
Proof.
  unfold symmetrized. split.
  - rewrite length_map, length_seq. reflexivity.
  - rewrite Forall_map. apply Forall_forall. intros i _.
    rewrite length_map, length_seq. reflexivity.
Qed.

Lemma symmetrized_entry (n : nat) (Sm : list (list Q)) (i j : nat) :
  (i < n)%nat -> (j < n)%nat ->
  entry (symmetrized n Sm) i j = (entry Sm i j + entry Sm j i) / 2.
Proof.
  intros Hi Hj. unfold symmetrized, entry at 1.
  rewrite (nth_indep _ [] (map (fun j0 => (entry Sm 0 j0 + entry Sm j0 0) / 2)
                             (seq 0 n)))
    by (rewrite length_map, length_seq; exact Hi).
  rewrite (map_nth (fun i0 => map (fun j0 => (entry Sm i0 j0 + entry Sm j0 i0)
                                             / 2) (seq 0 n))
             (seq 0 n) 0%nat i).
  rewrite seq_nth by exact Hi. cbn [Nat.add].
  rewrite (nth_indep _ 0 ((entry Sm i 0 + entry Sm 0 i) / 2))
    by (rewrite length_map, length_seq; exact Hj).
  rewrite (map_nth (fun j0 => (entry Sm i j0 + entry Sm j0 i) / 2)
             (seq 0 n) 0%nat j).
  rewrite seq_nth by exact Hj. reflexivity.
Qed.

Lemma normal_draws_nth (normal : nat -> Q) (cursor : nat) (scale : Q)
    (n i : nat) :
  (i < n)%nat ->
  nth i (normal_draws normal cursor scale n) 0
  = scale * normal (cursor + i)%nat.
Proof.
  intro Hi. unfold normal_draws.
  rewrite (nth_indep _ 0 (scale * normal (cursor + 0)%nat))
    by (rewrite length_map, length_seq; exact Hi).
  rewrite (map_nth (fun k => scale * normal (cursor + k)%nat) (seq 0 n)
             0%nat i).
  rewrite seq_nth by exact Hi. reflexivity.
Qed.

Lemma normal_draws2_entry (normal : nat -> Q) (cursor : nat) (scale : Q)
    (n i j : nat) :
  (i < n)%nat -> (j < n)%nat ->
  entry (normal_draws2 normal cursor scale n) i j
  = scale * normal (cursor + i * n + j)%nat.
Proof.
  intros Hi Hj. unfold normal_draws2, entry.
  rewrite (nth_indep _ [] (normal_draws normal (cursor + 0 * n) scale n))
    by (rewrite length_map, length_seq; exact Hi).
  rewrite (map_nth (fun i0 => normal_draws normal (cursor + i0 * n) scale n)
             (seq 0 n) 0%nat i).
  rewrite seq_nth by exact Hi. cbn [Nat.add].
  apply normal_draws_nth. exact Hj.
Qed.

Lemma clip_inside (x z : Q) :
  0 <= x -> x <= 1 -> z == x -> clip 0 1 z == x.
Proof.
  intros H0 H1 Hz. unfold clip. rewrite Hz.
  rewrite (Q.max_l x 0) by exact H0. apply Q.min_l. exact H1.
Qed.

Lemma noisy_vector_nth (normal : nat -> Q) (cursor n : nat) (c : Q)
    (a : list Q) (i : nat) :
  length a = n -> Forall (Qle 0) a -> (i < n)%nat ->
  nth i (map (Qmax 0)
           (map (fun p => fst p + snd p)
              (combine a (normal_draws normal cursor (0 * c) n)))) 0
  == nth i a 0.
Proof.
  intros Ha H0 Hi.
  rewrite nth_map_Q
    by (rewrite length_map, length_combine, normal_draws_length; lia).
  rewrite (nth_zip Qplus)
    by (rewrite ?normal_draws_length; lia).
  rewrite normal_draws_nth by exact Hi.
  pose proof (Forall_nonneg_nth a i H0) as Hnn.
  setoid_replace (nth i a 0 + 0 * c * normal (cursor + i)%nat)
    with (nth i a 0) by ring.
  apply Q.max_r. exact Hnn.
Qed.

(** One trial without noise evaluates the snapshot with [S] replaced by
    [(S + S.T) / 2]. *)
Lemma monte_carlo_trial_no_noise (normal : nat -> Q) (n : nat)
    (L V R : list Q) (Sm : list (list Q)) (m : metrics)
    (st : nat * list Q * nat) :
  snapshot n L V R Sm ->
  Forall (Qle 0) L -> Forall (Qle 0) V -> Forall (Qle 0) R ->
  (forall a b, (a < n)%nat -> (b < n)%nat ->
     0 <= entry Sm a b /\ entry Sm a b <= 1) ->
  analyze_team_state L V R (symmetrized n Sm) default_kappa default_eps
  = Ok m ->
  exists c x,
    monte_carlo_trial normal L V R Sm 0 st
    = Ok (c, (snd (fst st) ++ [x])%list,
          if Is_Stable m then snd st else (snd st + 1)%nat)
    /\ x == Margin m.
Proof.
  intros Hsnap HL0 HV0 HR0 HS01 Hm.
  pose proof Hsnap as (HL & HV & HR & HS).
  destruct st as [[cursor margins] cnt].
  unfold monte_carlo_trial. cbv zeta. rewrite HL.
  rewrite random_normal_ok by lra. cbn [bind].
  rewrite (broadcast_same Qplus L)
    by (rewrite normal_draws_length; exact HL). cbn [bind].
  rewrite random_normal_ok by lra. cbn [bind].
  rewrite (broadcast_same Qplus V)
    by (rewrite normal_draws_length; exact HV). cbn [bind].
  rewrite random_normal_ok by lra. cbn [bind].
  rewrite (broadcast_same Qplus R)
    by (rewrite normal_draws_length; exact HR). cbn [bind].
  rewrite random_normal2_ok by lra. cbn [bind].
  destruct (broadcast2_entries Qplus n Sm
              (normal_draws2 normal (cursor + n + n + n)
                 (0 * (5 # 10)) n) HS
              (normal_draws2_shape _ _ _ _))
    as (S1 & HS1 & Hshape1 & Hent1).
  rewrite HS1. cbn [bind].
  pose proof (shape2_map (clip 0 1) n n S1 Hshape1) as Hclip.
  destruct (broadcast2_entries Qplus n _ _ Hclip
              (shape2_transpose n _ Hclip))
    as (S2 & HS2 & Hshape2 & Hent2).
  rewrite HS2. cbn [bind].
  pose proof (shape2_map (fun x => x / 2) n n S2 Hshape2) as Hhalf.
  assert (Hclipped : forall a b, (a < n)%nat -> (b < n)%nat ->
            entry (map (map (clip 0 1)) S1) a b == entry Sm a b).
  { intros a b Ha Hb. rewrite (entry_map (clip 0 1) n S1 a b Hshape1 Ha Hb).
    destruct (HS01 a b Ha Hb) as [H0 H1].
    apply clip_inside; [exact H0 | exact H1 |].
    rewrite (Hent1 a b Ha Hb), normal_draws2_entry by assumption. ring. }
  set (L' := map (Qmax 0) (map (fun p => fst p + snd p)
               (combine L (normal_draws normal cursor (0 * 2) n)))).
  set (V' := map (Qmax 0) (map (fun p => fst p + snd p)
               (combine V (normal_draws normal (cursor + n) (0 * 2) n)))).
  set (R' := map (Qmax 0) (map (fun p => fst p + snd p)
               (combine R (normal_draws normal (cursor + n + n)
                             (0 * (5 # 10)) n)))).
  destruct (analyze_team_state_compat n L V R L' V' R'
              (symmetrized n Sm) (map (map (fun x => x / 2)) S2)
              default_kappa default_eps m)
    as (m' & Hm' & HMeq & HSteq).
  - unfold snapshot. repeat split; try assumption; apply symmetrized_shape.
  - unfold snapshot, L', V', R'.
    rewrite !length_map, !length_combine, !normal_draws_length.
    rewrite HL, HV, HR, !Nat.min_id. repeat split; try reflexivity;
      apply Hhalf.
  - intros i Hi. apply noisy_vector_nth; assumption.
  - intros i Hi. apply noisy_vector_nth; assumption.
  - intros i Hi. apply noisy_vector_nth; assumption.
  - intros i j Hij.
    rewrite (entry_map (fun x => x / 2) n S2 i j Hshape2) by lia.
    rewrite (Hent2 i j) by lia.
    rewrite (entry_transpose n _ i j Hclip) by lia.
    rewrite (Hclipped i j), (Hclipped j i) by lia.
    rewrite symmetrized_entry by lia. reflexivity.
  - exact Hm.
  - rewrite Hm'. cbn [bind]. rewrite HSteq.
    exists (cursor + n + n + n + n * n)%nat, (Margin m'). cbn [fst snd].
    split; [| exact HMeq].
    destruct (Is_Stable m); reflexivity.
Qed.

Lemma Qsum_all_equal (c : Q) (l : list Q) :
  Forall (fun y => y == c) l ->
  Qsum l == inject_Z (Z.of_nat (length l)) * c.
Proof.
  induction 1 as [|y l Hy _ IH].
  - change (0 == 0 * c). ring.
  - cbn [length Qsum fold_right]. rewrite inject_nat_succ.
    unfold Qsum in IH. rewrite IH, Hy. ring.
Qed.

Lemma ndmin_ge (c x : Q) (t : list Q) :
  c <= x -> (forall y, In y t -> c <= y) -> c <= ndmin x t.
Proof.
  unfold ndmin. revert x. induction t as [|z t IH]; intros x Hx Ht; simpl.
  - exact Hx.
  - apply IH.
    + apply Q.min_glb; [exact Hx | apply Ht; left; reflexivity].
    + intros y Hy. apply Ht. right. exact Hy.
Qed.

Lemma percentile_le_bound (c : Q) (a : list Q) :
  a <> [] -> (forall y, In y a -> y <= c) -> percentile a 5 <= c.
Proof.
  intros Hne Hall. unfold percentile. cbv zeta.
  set (N := length a). assert (HN : (0 < N)%nat).
  { unfold N. destruct a; [contradiction | simpl; lia]. }
  set (pos := inject_Z (Z.of_nat (N - 1)) * 5 / 100).
  assert (Hpos0 : 0 <= pos).
  { unfold pos. pose proof (inject_nat_nonneg (N - 1)) as H.
    apply Qle_shift_div_l; [reflexivity | lra]. }
  assert (Hpos1 : pos <= inject_Z (Z.of_nat (N - 1))).
  { unfold pos. pose proof (inject_nat_nonneg (N - 1)) as H.
    apply Qle_shift_div_r; [reflexivity | lra]. }
  assert (Hfl0 : (0 <= Qfloor pos)%Z).
  { rewrite <- (Qfloor_Z 0). apply Qfloor_resp_le. exact Hpos0. }
  assert (Hfl1 : (Qfloor pos <= Z.of_nat (N - 1))%Z).
  { rewrite <- (Qfloor_Z (Z.of_nat (N - 1))). apply Qfloor_resp_le.
    exact Hpos1. }
  assert (Hlo : (Z.to_nat (Qfloor pos) < N)%nat) by lia.
  assert (Hhi : (Nat.min (Z.to_nat (Qfloor pos) + 1) (N - 1) < N)%nat) by lia.
  assert (Hsrt : forall k, (k < N)%nat -> nth k (sort_asc a) 0 <= c).
  { intros k Hk. apply Hall.
    apply (Permutation_in _ (Permutation_sym (sort_asc_perm a))).
    apply nth_In. rewrite <- (Permutation_length (sort_asc_perm a)).
    exact Hk. }
  pose proof (Hsrt _ Hlo) as Ha. pose proof (Hsrt _ Hhi) as Hb.
  assert (Hfrac0 : 0 <= pos - inject_Z (Qfloor pos))
    by (pose proof (Qfloor_le pos); lra).
  assert (Hfrac1 : pos - inject_Z (Qfloor pos) <= 1).
  { pose proof (Qlt_floor pos) as H.
    rewrite inject_Z_plus in H. change (inject_Z 1) with 1 in H. lra. }
  set (f := pos - inject_Z (Qfloor pos)) in *.
  set (x := nth (Z.to_nat (Qfloor pos)) (sort_asc a) 0) in *.
  set (y := nth (Nat.min (Z.to_nat (Qfloor pos) + 1) (N - 1)) (sort_asc a) 0)
    in *.
  assert (H1 : 0 <= (1 - f) * (c - x)) by (apply Qmult_le_0_compat; lra).
  assert (H2 : 0 <= f * (c - y)) by (apply Qmult_le_0_compat; lra).
  setoid_replace (x + f * (y - x)) with (c - ((1 - f) * (c - x) + f * (c - y)))
    by ring.
  lra.
Qed.

(** X19. Without noise the Monte Carlo run is an exact evaluation, but of
    another matrix: on a snapshot with non-negative [L], [V], [R] and the
    entries of [S] in [[0, 1]], every trial evaluates [(S + S.T) / 2], so
    the mean, the minimum and the 5th percentile all equal the evaluator's
    margin of that symmetrised snapshot, and the instability probability
    is 0 when that snapshot is stable and 1 when not.  For a symmetric [S]
    this margin is the one of the snapshot itself. *)
Theorem run_monte_carlo_simulation_no_noise (normal : nat -> Q) (n : nat)
    (L V R : list Q) (Sm : list (list Q)) (iterations : nat) :
  snapshot n L V R Sm -> (0 < iterations)%nat ->
  Forall (Qle 0) L -> Forall (Qle 0) V -> Forall (Qle 0) R ->
  (forall a b, (a < n)%nat -> (b < n)%nat ->
     0 <= entry Sm a b /\ entry Sm a b <= 1) ->
  exists res m,
    run_monte_carlo_simulation normal L V R Sm iterations 0 = Ok res
    /\ analyze_team_state L V R (symmetrized n Sm) default_kappa default_eps
       = Ok m
    /\ Mean_Margin res == Margin m
    /\ Min_Margin res == Margin m
    /\ Percentile_5th res == Margin m
    /\ Unstable_Probability res == (if Is_Stable m then 0 else 1)
    /\ ((forall a b, (a < n)%nat -> (b < n)%nat ->
           entry Sm a b == entry Sm b a) ->
        exists m0,
          analyze_team_state L V R Sm default_kappa default_eps = Ok m0
          /\ Margin m0 == Margin m /\ Is_Stable m0 = Is_Stable m).
Proof.
  intros Hsnap Hit HL0 HV0 HR0 HS01.
  pose proof Hsnap as (HL & HV & HR & HS).
  assert (Hsnap_sym : snapshot n L V R (symmetrized n Sm)).
  { unfold snapshot. repeat split; try assumption; apply symmetrized_shape. }
  destruct (analyze_team_state_ok n L V R (symmetrized n Sm) default_kappa
              default_eps Hsnap_sym) as (m & Hm & _).
  unfold run_monte_carlo_simulation.
  destruct (for_range_counted
              (fun k (st : nat * list Q * nat) =>
                 length (snd (fst st)) = k
                 /\ Forall (fun y => y == Margin m) (snd (fst st))
                 /\ snd st = if Is_Stable m then 0%nat else k)
              (range 0 iterations)
              (fun _ st => monte_carlo_trial normal L V R Sm 0 st))
    with (k := 0%nat) (s := (0%nat, @nil Q, 0%nat))
    as (st & Hst & Hlen & Hall & Hcnt).
  { intros _ s k (Hs & Hsall & Hscnt).
    destruct (monte_carlo_trial_no_noise normal n L V R Sm m s Hsnap HL0 HV0
                HR0 HS01 Hm) as (c & x & Hs' & Hx).
    eexists. split; [exact Hs' |]. cbn [fst snd].
    split; [rewrite length_app; simpl; lia |]. split.
    - apply Forall_app. split; [exact Hsall |].
      constructor; [exact Hx | constructor].
    - rewrite Hscnt. destruct (Is_Stable m); lia. }
  { cbn [fst snd]. split; [reflexivity |]. split; [constructor |].
    destruct (Is_Stable m); reflexivity. }
  rewrite Hst. cbn [bind]. destruct st as [[cursor margins] cnt].
  unfold range in Hlen, Hcnt. rewrite length_seq in Hlen, Hcnt.
  cbn [fst snd] in Hlen, Hall, Hcnt.
  replace (0 + (iterations - 0))%nat with iterations in Hlen, Hcnt by lia.
  destruct margins as [|x t] eqn:Hmargins; [simpl in Hlen; lia |].
  rewrite <- Hmargins in *.
  eexists. exists m. split; [reflexivity |]. split; [exact Hm |].
  cbn [Mean_Margin Min_Margin Percentile_5th Unstable_Probability].
  pose proof (inject_nat_pos iterations Hit) as HN.
  assert (Hin : forall y, In y margins -> y == Margin m).
  { rewrite Forall_forall in Hall. exact Hall. }
  split; [| split; [| split; [| split]]].
  - rewrite ndsum_Qsum, (Qsum_all_equal (Margin m) margins Hall), Hlen.
    field. lra.
  - assert (Hx : x == Margin m) by (apply Hin; rewrite Hmargins; left;
                                    reflexivity).
    apply Qle_antisym.
    + destruct (ndmin_le x t) as [H1 _]. rewrite <- Hx. exact H1.
    + apply ndmin_ge; [rewrite Hx; apply Qle_refl |].
      intros y Hy. rewrite (Hin y) by (rewrite Hmargins; right; exact Hy).
      apply Qle_refl.
  - assert (Hne : margins <> []) by (rewrite Hmargins; discriminate).
    apply Qle_antisym.
    + apply percentile_le_bound; [exact Hne |].
      intros y Hy. rewrite (Hin y Hy). apply Qle_refl.
    + apply percentile_ge_bound; [exact Hne |].
      intros y Hy. rewrite (Hin y Hy). apply Qle_refl.
  - rewrite Hcnt. destruct (Is_Stable m).
    + change (inject_Z (Z.of_nat 0)) with 0. field. lra.
    + field. lra.
  - intro Hsym.
    destruct (analyze_team_state_ok n L V R Sm default_kappa default_eps
                Hsnap) as (m0 & Hm0 & _).
    destruct (analyze_team_state_compat n L V R L V R (symmetrized n Sm) Sm
                default_kappa default_eps m Hsnap_sym Hsnap)
      as (m0' & Hm0' & HMeq & HSteq); try (intros; reflexivity).
    + intros i j Hij. rewrite symmetrized_entry by lia.
      rewrite <- (Hsym i j) by lia. field.
    + exact Hm.
    + exists m0'. split; [exact Hm0' |]. split; assumption.
Qed.

Lemma example_S_unit (a b : nat) :
  (a < 4)%nat -> (b < 4)%nat ->
  0 <= entry example_S a b /\ entry example_S a b <= 1.
Proof.
  intros Ha Hb.
  do 4 (destruct a as [|a];
        [ do 4 (destruct b as [|b];
                [split; vm_compute; discriminate |]);
          exfalso; lia |]).
  exfalso; lia.
Qed.

Lemma run_monte_carlo_simulation_no_noise_witness :
  snapshot 4 example_L example_V example_R example_S
  /\ exists res m,
       run_monte_carlo_simulation (fun k => inject_Z (Z.of_nat k)) example_L
         example_V example_R example_S 3 0 = Ok res
       /\ analyze_team_state example_L example_V example_R
            (symmetrized 4 example_S) default_kappa default_eps = Ok m
       /\ Mean_Margin res == Margin m.
Proof.
  split; [exact example_snapshot |].
  destruct (run_monte_carlo_simulation_no_noise
              (fun k => inject_Z (Z.of_nat k)) 4 example_L
              example_V example_R example_S 3 example_snapshot)
    as (res & m & Hres & Hm & Hmean & _).
  - lia.
  - exact (proj1 example_nonneg).
  - exact (proj1 (proj2 example_nonneg)).
  - exact (proj2 (proj2 example_nonneg)).
  - exact example_S_unit.
  - exists res, m. split; [exact Hres |]. split; [exact Hm | exact Hmean].
Defined.

(** ** Improvements never lower the margin *)

Lemma gravity_monotone (l v r l' v' r' eps : Q) :
  0 <= l -> l <= l' -> 0 <= v -> v <= v' -> 0 <= r' -> r' <= r -> 0 < eps ->
  gravity l v r eps <= gravity l' v' r' eps.
Proof.
  intros Hl Hll Hv Hvv Hr Hrr He.
  apply Qle_trans with (gravity l v r' eps).
  - apply gravity_antitone; assumption.
  - unfold gravity.
    assert (Hsq : l ^ 2 <= l' ^ 2) by (simpl; nra).
    assert (Hsq0 : 0 <= l ^ 2) by (simpl; nra).
    assert (Hnum : l ^ 2 * v <= l' ^ 2 * v') by nra.
    apply Qle_shift_div_l; [lra |].
    setoid_replace (l ^ 2 * v / (r' + eps) * (r' + eps)) with (l ^ 2 * v)
      by (field; lra).
    exact Hnum.
Qed.

(** X20. The evaluator is monotone in every input: between two snapshots of
    the same team with non-negative entries, [kappa >= 0] and [eps > 0],
    raising entries of [L], [V] or of the upper triangle of [S] and lowering
    entries of [R] never lowers [K], never raises [D] and never lowers the
    margin; so a team reported stable stays stable. *)
Theorem analyze_team_state_monotone (n : nat) (L V R L' V' R' : list Q)
    (Sm Sm' : list (list Q)) (kappa eps : Q) :
  snapshot n L V R Sm -> snapshot n L' V' R' Sm' ->
  (forall k, (k < n)%nat -> 0 <= nth k L 0 /\ nth k L 0 <= nth k L' 0) ->
  (forall k, (k < n)%nat -> 0 <= nth k V 0 /\ nth k V 0 <= nth k V' 0) ->
  (forall k, (k < n)%nat -> 0 <= nth k R' 0 /\ nth k R' 0 <= nth k R 0) ->
  (forall a b, (a < b < n)%nat ->
     0 <= entry Sm a b /\ entry Sm a b <= entry Sm' a b) ->
  0 <= kappa -> 0 < eps ->
  exists m m',
    analyze_team_state L V R Sm kappa eps = Ok m
    /\ analyze_team_state L' V' R' Sm' kappa eps = Ok m'
    /\ K_team m <= K_team m'
    /\ D_team m' <= D_team m
    /\ Margin m <= Margin m'
    /\ (Is_Stable m = true -> Is_Stable m' = true).
Proof.
  intros Hsnap Hsnap' HLm HVm HRm HSm Hk He.
  destruct (analyze_team_state_ok n L V R Sm kappa eps Hsnap)
    as (m & Hm & _ & HK & HD & HM & HSt).
  destruct (analyze_team_state_ok n L' V' R' Sm' kappa eps Hsnap')
    as (m' & Hm' & _ & HK' & HD' & HM' & HSt').
  destruct Hsnap as (HL & HV & HR & HS).
  destruct Hsnap' as (HL' & HV' & HR' & HS').
  exists m, m'. split; [exact Hm |]. split; [exact Hm' |].
  assert (Hg : forall k, (k < n)%nat ->
            0 <= nth k (gravities L V R eps) 0
            /\ nth k (gravities L V R eps) 0
               <= nth k (gravities L' V' R' eps) 0).
  { intros k Hk'. destruct (HLm k Hk') as [Hl Hll].
    destruct (HVm k Hk') as [Hv Hvv]. destruct (HRm k Hk') as [Hr Hrr].
    rewrite !gravities_nth by lia. split.
    - apply gravity_nonneg; try assumption. lra.
    - apply gravity_monotone; assumption. }
  assert (HKle : K_team m <= K_team m').
  { rewrite HK, HK'. unfold K_spec. apply pair_sum_le. intros a b Hab.
    destruct (Hg a) as [Ha0 Ha]; [lia |].
    destruct (Hg b) as [Hb0 Hb]; [lia |].
    destruct (HSm a b Hab) as [Hs0 Hs].
    apply Qle_trans
      with (kappa * nth a (gravities L' V' R' eps) 0
            * nth b (gravities L' V' R' eps) 0 * entry Sm a b).
    - apply binding_term_mono_weak; assumption.
    - set (ga := nth a (gravities L' V' R' eps) 0) in *.
      set (gb := nth b (gravities L' V' R' eps) 0) in *.
      assert (H0 : 0 <= kappa * ga * gb).
      { apply Qmult_le_0_compat; [apply Qmult_le_0_compat |]; lra. }
      nra. }
  assert (HDle : D_team m' <= D_team m).
  { rewrite HD, HD'. unfold D_spec. apply Qplus_le_compat.
    - apply Qsum_le_nth; [congruence |].
      intros k Hk'. apply HRm. lia.
    - apply pair_sum_le. intros a b Hab.
      destruct (HSm a b Hab) as [_ Hs]. lra. }
  split; [exact HKle |]. split; [exact HDle |].
  assert (HMle : Margin m <= Margin m') by (rewrite HM, HM'; lra).
  split; [exact HMle |].
  rewrite HSt, HSt', !Qgtb_gt. lra.
Qed.

Lemma analyze_team_state_monotone_witness :
  snapshot 4 example_L example_V example_R_raised example_S
  /\ snapshot 4 example_L example_V example_R example_S_sym
  /\ exists m m',
       analyze_team_state example_L example_V example_R_raised example_S
         default_kappa default_eps = Ok m
       /\ analyze_team_state example_L example_V example_R example_S_sym
            default_kappa default_eps = Ok m'
       /\ Margin m <= Margin m'.
Proof.
  assert (H1 : snapshot 4 example_L example_V example_R_raised example_S)
    by (unfold snapshot, shape2; repeat split; repeat constructor).
  assert (H2 : snapshot 4 example_L example_V example_R example_S_sym)
    by (unfold snapshot, shape2; repeat split; repeat constructor).
  split; [exact H1 |]. split; [exact H2 |].
  destruct (analyze_team_state_monotone 4 example_L example_V
              example_R_raised example_L example_V example_R example_S
              example_S_sym default_kappa default_eps H1 H2)
    as (m & m' & Hm & Hm' & _ & _ & HM & _).
  - intros k Hk.
    do 4 (destruct k as [|k]; [vm_compute; intuition discriminate |]).
    exfalso; lia.
  - intros k Hk.
    do 4 (destruct k as [|k]; [vm_compute; intuition discriminate |]).
    exfalso; lia.
  - intros k Hk.
    do 4 (destruct k as [|k]; [vm_compute; intuition discriminate |]).
    exfalso; lia.
  - intros a b Hab.
    do 4 (destruct a as [|a];
          [ do 4 (destruct b as [|b];
                  [ first [ exfalso; lia
                          | vm_compute; intuition discriminate ] |]);
            exfalso; lia |]).
    exfalso; lia.
  - vm_compute; discriminate.
  - vm_compute; reflexivity.
  - exists m, m'. split; [exact Hm |]. split; [exact Hm' | exact HM].
Defined.

(** ** Carrying out a suggestion *)

Lemma margin_change_R (n : nat) (L V R R' : list Q) (Sm : list (list Q))
    (kappa eps : Q) (i : nat) (h : Q) (m m' : metrics) :
  snapshot n L V R Sm ->
  (forall a b, (a < n)%nat -> (b < n)%nat -> entry Sm a b == entry Sm b a) ->
  (i < n)%nat ->
  length R' = n ->
  nth i R' 0 == nth i R 0 + h ->
  (forall k, (k < n)%nat -> k <> i -> nth k R' 0 == nth k R 0) ->
  ~ nth i R 0 + eps == 0 ->
  ~ nth i R 0 + h + eps == 0 ->
  analyze_team_state L V R Sm kappa eps = Ok m ->
  analyze_team_state L V R' Sm kappa eps = Ok m' ->
  Margin m' - Margin m
  == h * (interaction_spec n (gravities L V R eps) Sm kappa i
          * ((- ((nth i L 0) ^ 2 * nth i V 0))
             / ((nth i R 0 + eps) * (nth i R 0 + h + eps)))
          - 1).
Proof.
  intros Hsnap Hsym Hi HR' Hih Hsame Hne0 Hne1 Hm Hm'.
  pose proof Hsnap as (HL & HV & HR & HS).
  destruct (analyze_team_state_ok n L V R Sm kappa eps Hsnap)
    as (m0 & Hm0 & _ & HK & HD & HM & _).
  rewrite Hm in Hm0. inversion Hm0; subst m0. clear Hm0.
  destruct (analyze_team_state_ok n L V R' Sm kappa eps
              (conj HL (conj HV (conj HR' HS))))
    as (m1 & Hm1 & _ & HK' & HD' & HM' & _).
  rewrite Hm' in Hm1. inversion Hm1; subst m1. clear Hm1.
  set (g := gravities L V R eps) in *.
  set (g' := gravities L V R' eps) in *.
  set (delta := nth i g' 0 - nth i g 0).
  assert (Hgk : forall k, (k < n)%nat -> k <> i -> nth k g' 0 == nth k g 0).
  { intros k Hk Hne. unfold g, g'. rewrite !gravities_nth by lia.
    apply gravity_compat. apply Hsame; assumption. }
  assert (Hdelta : delta ==
            h * ((- ((nth i L 0) ^ 2 * nth i V 0))
                 / ((nth i R 0 + eps) * (nth i R 0 + h + eps)))).
  { unfold delta, g, g'. rewrite !gravities_nth by lia.
    rewrite (gravity_compat (nth i L 0) (nth i V 0) (nth i R 0 + h)
               (nth i R' 0) eps Hih).
    unfold gravity. field. split; assumption. }
  assert (HDd : D_team m' == D_team m + h).
  { rewrite HD, HD'. unfold D_spec.
    rewrite (Qsum_nth_change R R' i h); [ring | congruence | lia | exact Hih |].
    intros k Hk Hne. apply Hsame; [lia | exact Hne]. }
  assert (HKd : K_team m'
                == K_team m + delta * interaction_spec n g Sm kappa i).
  { rewrite HK, HK'. unfold K_spec, interaction_spec.
    rewrite <- Qsum_scale, <- Qsum_scale.
    rewrite <- (pair_sum_star n i
                  (fun j => delta * (kappa * (entry Sm i j * nth j g 0))) Hi).
    rewrite <- pair_sum_plus. apply pair_sum_ext. intros a b Hab.
    pose proof (symmetric_everywhere n Sm HS Hsym) as Hsym'.
    destruct (Nat.eqb_spec a i) as [Ha | Ha];
      destruct (Nat.eqb_spec b i) as [Hb | Hb].
    - lia.
    - subst a. rewrite (Hgk b) by lia.
      unfold delta. ring.
    - subst b. rewrite (Hgk a) by lia. rewrite (Hsym' i a).
      unfold delta. ring.
    - rewrite (Hgk a), (Hgk b) by lia. ring. }
  rewrite HM, HM', HKd, HDd, Hdelta. ring.
Qed.

Lemma suggestion_origin (n : nat) (L V R : list Q) (Sm : list (list Q))
    (costs : cost_model) (budget step kappa eps : Q) :
  snapshot n L V R Sm -> cost_shape n costs ->
  exists moves dM_dR dM_dS,
    suggest_interventions L V R Sm costs budget step kappa eps = Ok moves
    /\ calculate_marginal_gains L V R Sm kappa eps = Ok (dM_dR, dM_dS)
    /\ forall s, In s moves ->
         (exists i, (i < n)%nat
            /\ s = {| Type_ := Reduce_Resistance; Target := i;
                      Target_2 := None;
                      ROI := (- nth i dM_dR 0 * step)
                             / (nth i (cR costs) 0 * step);
                      Cost := nth i (cR costs) 0 * step;
                      Impact := - nth i dM_dR 0 * step |})
         \/ (exists i j, (i < j < n)%nat
               /\ s = {| Type_ := Boost_Resonance; Target := i;
                         Target_2 := Some j;
                         ROI := (entry dM_dS i j * step)
                                / (entry (cS costs) i j * step);
                         Cost := entry (cS costs) i j * step;
                         Impact := entry dM_dS i j * step |}).
Proof.
  intros Hsnap Hcosts.
  destruct (sorted_candidates_ok n L V R Sm costs step kappa eps Hsnap Hcosts)
    as (dR & dS & Hcalc & Hsorted).
  exists (filter_by_budget budget 0
            (sort_by_roi (raw_candidates n dR dS costs step))), dR, dS.
  split; [unfold suggest_interventions; rewrite Hsorted; reflexivity |].
  split; [exact Hcalc |].
  intros s Hs. apply filter_by_budget_In in Hs.
  apply (Permutation_in _ (Permutation_sym (sort_by_roi_perm _))) in Hs.
  apply in_raw_candidates in Hs.
  destruct Hs as [[i [Hi Hs]] | [i [j [Hij Hs]]]].
  - left. exists i. split; [exact Hi |].
    apply in_r_candidate in Hs. apply Hs.
  - right. exists i, j. split; [exact Hij |].
    apply in_s_candidate in Hs. apply Hs.
Qed.

(** X21. The impact of a resonance boost is exact: for every returned
    suggestion of kind "Boost Resonance" on the pair [(i, j)], [i < j],
    evaluating the snapshot with [S[i][j]] raised by the step gives a
    margin higher by exactly the suggestion's [Impact]. *)
Theorem suggest_interventions_boost_exact (n : nat) (L V R : list Q)
    (Sm : list (list Q)) (costs : cost_model) (budget step kappa eps : Q) :
  snapshot n L V R Sm -> cost_shape n costs ->
  exists moves m,
    suggest_interventions L V R Sm costs budget step kappa eps = Ok moves
    /\ analyze_team_state L V R Sm kappa eps = Ok m
    /\ forall s, In s moves -> Type_ s = Boost_Resonance ->
         exists j m',
           Target_2 s = Some j /\ (Target s < j < n)%nat
           /\ analyze_team_state L V R
                (set2 Sm (Target s) j (entry Sm (Target s) j + step))
                kappa eps = Ok m'
           /\ Margin m' - Margin m == Impact s.
Proof.
  intros Hsnap Hcosts.
  destruct (suggestion_origin n L V R Sm costs budget step kappa eps
              Hsnap Hcosts) as (moves & dR & dS & Hmoves & Hcalc & Horigin).
  destruct (calculate_marginal_gains_ok n L V R Sm kappa eps Hsnap)
    as (dR' & dS' & Hcalc' & _ & _ & _ & HdS & _).
  rewrite Hcalc in Hcalc'. injection Hcalc' as <- <-.
  destruct (analyze_team_state_ok n L V R Sm kappa eps Hsnap)
    as (m & Hm & HG & _).
  pose proof Hsnap as (HL & HV & HR & HS).
  exists moves, m. split; [exact Hmoves |]. split; [exact Hm |].
  intros s Hs Hty.
  destruct (Horigin s Hs) as [[i [Hi ->]] | [i [j [Hij ->]]]];
    [discriminate Hty |].
  cbn [Target Target_2 Impact].
  assert (HS' : shape2 n n (set2 Sm i j (entry Sm i j + step)))
    by (apply shape2_set2; [exact HS | lia | lia]).
  destruct (analyze_team_state_ok n L V R
              (set2 Sm i j (entry Sm i j + step)) kappa eps
              (conj HL (conj HV (conj HR HS'))))
    as (m' & Hm' & _).
  exists j, m'. split; [reflexivity |]. split; [exact Hij |].
  split; [exact Hm' |].
  rewrite (margin_change_single_entry n L V R Sm
             (set2 Sm i j (entry Sm i j + step)) kappa eps i j step m m'
             Hsnap HS' Hij).
  - destruct (HdS i j Hij) as [-> _]. rewrite HG. ring.
  - rewrite (entry_set2 n Sm i j i j) by (first [exact HS | lia]).
    rewrite !Nat.eqb_refl. reflexivity.
  - intros a b Hab Hne.
    rewrite (entry_set2 n Sm i j a b) by (first [exact HS | lia]).
    destruct (Nat.eqb_spec a i) as [-> | _];
      destruct (Nat.eqb_spec b j) as [-> | _]; simpl;
      first [reflexivity | exfalso; apply Hne; reflexivity].
  - exact Hm.
  - exact Hm'.
Qed.

Lemma suggest_interventions_boost_exact_witness :
  snapshot 2 skip_L skip_V skip_R skip_S
  /\ cost_shape 2 {| cR := [10; 1]; cS := [ [0; 1]; [1; 0] ] |}
  /\ exists moves m,
       suggest_interventions skip_L skip_V skip_R skip_S
         {| cR := [10; 1]; cS := [ [0; 1]; [1; 0] ] |} 5 1
         default_kappa default_eps = Ok moves
       /\ analyze_team_state skip_L skip_V skip_R skip_S default_kappa
            default_eps = Ok m
       /\ forall s, In s moves -> Type_ s = Boost_Resonance ->
            exists j m',
              Target_2 s = Some j /\ (Target s < j < 2)%nat
              /\ analyze_team_state skip_L skip_V skip_R
                   (set2 skip_S (Target s) j (entry skip_S (Target s) j + 1))
                   default_kappa default_eps = Ok m'
              /\ Margin m' - Margin m == Impact s.
Proof.
  assert (Hc : cost_shape 2 {| cR := [10; 1]; cS := [ [0; 1]; [1; 0] ] |})
    by (unfold cost_shape, shape2; repeat split; repeat constructor).
  split; [exact skip_snapshot |]. split; [exact Hc |].
  exact (suggest_interventions_boost_exact 2 skip_L skip_V skip_R skip_S
           {| cR := [10; 1]; cS := [ [0; 1]; [1; 0] ] |} 5 1
           default_kappa default_eps skip_snapshot Hc).
Defined.

(** X22. The impact of a resistance reduction is never overstated: on a
    snapshot with [L], [V], [R] and the entries of [S] non-negative, [S]
    symmetric, [kappa >= 0], [eps > 0] and a positive step, for every
    returned suggestion of kind "Reduce Resistance" on a node [i] with
    [R[i] >= step], evaluating the snapshot with [R[i]] lowered by the step
    gives a margin higher by at least the suggestion's [Impact]. *)
Theorem suggest_interventions_reduce_sound (n : nat) (L V R : list Q)
    (Sm : list (list Q)) (costs : cost_model) (budget step kappa eps : Q) :
  snapshot n L V R Sm -> cost_shape n costs ->
  Forall (Qle 0) L -> Forall (Qle 0) V -> Forall (Qle 0) R ->
  (forall a b, (a < n)%nat -> (b < n)%nat -> 0 <= entry Sm a b) ->
  (forall a b, (a < n)%nat -> (b < n)%nat -> entry Sm a b == entry Sm b a) ->
  0 <= kappa -> 0 < eps -> 0 < step ->
  exists moves m,
    suggest_interventions L V R Sm costs budget step kappa eps = Ok moves
    /\ analyze_team_state L V R Sm kappa eps = Ok m
    /\ forall s, In s moves -> Type_ s = Reduce_Resistance ->
         step <= nth (Target s) R 0 ->
         exists m',
           analyze_team_state L V
             (update_at (Target s) (nth (Target s) R 0 - step) R) Sm
             kappa eps = Ok m'
           /\ Impact s <= Margin m' - Margin m.
Proof.
  intros Hsnap Hcosts HL0 HV0 HR0 HS0 Hsym Hk He Hstep.
  destruct (suggestion_origin n L V R Sm costs budget step kappa eps
              Hsnap Hcosts) as (moves & dR & dS & Hmoves & Hcalc & Horigin).
  destruct (calculate_marginal_gains_ok n L V R Sm kappa eps Hsnap)
    as (dR' & dS' & Hcalc' & _ & HdR & _).
  rewrite Hcalc in Hcalc'. injection Hcalc' as <- <-.
  destruct (analyze_team_state_ok n L V R Sm kappa eps Hsnap)
    as (m & Hm & _).
  pose proof Hsnap as (HL & HV & HR & HS).
  exists moves, m. split; [exact Hmoves |]. split; [exact Hm |].
  intros s Hs Hty.
  destruct (Horigin s Hs) as [[i [Hi ->]] | [i [j [Hij ->]]]];
    [| discriminate Hty].
  cbn [Target Impact]. intro Hri.
  set (r := nth i R 0) in *.
  set (R' := update_at i (r - step) R).
  assert (HR' : length R' = n).
  { unfold R', update_at. rewrite length_update; lia. }
  destruct (analyze_team_state_ok n L V R' Sm kappa eps
              (conj HL (conj HV (conj HR' HS))))
    as (m' & Hm' & _).
  exists m'. split; [exact Hm' |].
  pose proof (Forall_nonneg_nth L i HL0) as Hl.
  pose proof (Forall_nonneg_nth V i HV0) as Hv.
  assert (Hd1 : 0 < r + eps) by lra.
  assert (Hd2 : 0 < r + - step + eps) by lra.
  rewrite (margin_change_R n L V R R' Sm kappa eps i (- step) m m'
             Hsnap Hsym Hi HR').
  - rewrite (HdR i Hi). fold r.
    set (I := interaction_spec n (gravities L V R eps) Sm kappa i).
    assert (HI : 0 <= I).
    { unfold I. apply interaction_spec_nonneg; try assumption.
      intro k. apply gravities_nonneg; assumption. }
    set (N := (nth i L 0) ^ 2 * nth i V 0).
    assert (HN : 0 <= N).
    { unfold N. apply Qmult_le_0_compat; [| exact Hv].
      simpl. apply Qmult_le_0_compat; exact Hl. }
    set (X := I * N / ((r + eps) ^ 2 * (r + - step + eps))).
    assert (HX : 0 <= X).
    { unfold X. apply Qle_shift_div_l.
      - apply Qmult_lt_0_compat; [| exact Hd2].
        simpl. apply Qmult_lt_0_compat; exact Hd1.
      - rewrite Qmult_0_l. apply Qmult_le_0_compat; assumption. }
    assert (Hgap : - step * (I * (- N / ((r + eps) * (r + - step + eps))) - 1)
                   - - (I * (- N / (r + eps) ^ 2) - 1) * step
                   == step * step * X).
    { unfold X. field. split; lra. }
    assert (Hnn : 0 <= step * step * X).
    { apply Qmult_le_0_compat; [| exact HX].
      apply Qmult_le_0_compat; lra. }
    lra.
  - unfold R'. rewrite update_at_nth by lia. rewrite Nat.eqb_refl.
    unfold r. ring.
  - intros k Hk' Hne. unfold R'. rewrite update_at_nth by lia.
    destruct (Nat.eqb_spec k i) as [-> | _]; [contradiction | reflexivity].
  - fold r. lra.
  - fold r. lra.
  - exact Hm.
  - exact Hm'.
Qed.

Lemma suggest_interventions_reduce_sound_witness :
  snapshot 2 skip_L skip_V skip_R skip_S /\ cost_shape 2 skip_costs
  /\ exists moves m,
       suggest_interventions skip_L skip_V skip_R skip_S skip_costs 5 1
         default_kappa default_eps = Ok moves
       /\ analyze_team_state skip_L skip_V skip_R skip_S default_kappa
            default_eps = Ok m
       /\ forall s, In s moves -> Type_ s = Reduce_Resistance ->
            1 <= nth (Target s) skip_R 0 ->
            exists m',
              analyze_team_state skip_L skip_V
                (update_at (Target s) (nth (Target s) skip_R 0 - 1) skip_R)
                skip_S default_kappa default_eps = Ok m'
              /\ Impact s <= Margin m' - Margin m.
Proof.
  split; [exact skip_snapshot |]. split; [exact skip_cost_shape |].
  apply (suggest_interventions_reduce_sound 2 skip_L skip_V skip_R skip_S
           skip_costs 5 1 default_kappa default_eps
           skip_snapshot skip_cost_shape).
  - repeat constructor; vm_compute; discriminate.
  - repeat constructor; vm_compute; discriminate.
  - repeat constructor; vm_compute; discriminate.
  - exact skip_S_nonneg.
  - intros a b Ha Hb.
    do 2 (destruct a as [|a];
          [ do 2 (destruct b as [|b]; [reflexivity |]); exfalso; lia |]).
    exfalso; lia.
  - vm_compute; discriminate.
  - reflexivity.
  - reflexivity.
Defined.

(** ** C2: the sensitivities as gradients of the margin *)

Lemma is_derivative_ext (f g : Q -> Q) (x D D' : Q) :
  (forall y, f y == g y) -> D == D' ->
  is_derivative f x D -> is_derivative g x D'.
Proof.
  intros Hfg HD Hf e He.
  destruct (Hf e He) as (d & Hd & Hb).
  exists d. split; [exact Hd |]. intros h Hh Habs.
  rewrite <- (Hfg (x + h)), <- (Hfg x), <- HD. apply Hb; assumption.
Qed.

Lemma quotient_between (f : Q -> Q) (x D D' : Q) :
  is_derivative f x D -> is_derivative f x D' -> ~ D < D'.
Proof.
  intros H1 H2 Hlt.
  assert (He : 0 < (D' - D) * (1 # 2)) by lra.
  destruct (H1 _ He) as (d1 & Hd1 & Hb1).
  destruct (H2 _ He) as (d2 & Hd2 & Hb2).
  assert (Hm : 0 < Qmin d1 d2) by (apply Q.min_glb_lt; assumption).
  pose proof (Q.le_min_l d1 d2) as Hl. pose proof (Q.le_min_r d1 d2) as Hr.
  set (h := Qmin d1 d2 * (1 # 2)).
  assert (Hh0 : 0 < h) by (unfold h; lra).
  assert (Hhabs : Qabs h == h) by (apply Qabs_pos; lra).
  assert (Hne0 : ~ h == 0) by lra.
  assert (Hhd1 : Qabs h < d1) by (rewrite Hhabs; unfold h; lra).
  assert (Hhd2 : Qabs h < d2) by (rewrite Hhabs; unfold h; lra).
  specialize (Hb1 h Hne0 Hhd1). specialize (Hb2 h Hne0 Hhd2).
  set (q := (f (x + h) - f x) / h) in *.
  apply Qabs_Qlt_condition in Hb1. apply Qabs_Qlt_condition in Hb2.
  lra.
Qed.

Lemma is_derivative_unique (f : Q -> Q) (x D D' : Q) :
  is_derivative f x D -> is_derivative f x D' -> D == D'.
Proof.
  intros H1 H2.
  pose proof (quotient_between f x D D' H1 H2) as Ha.
  pose proof (quotient_between f x D' D H2 H1) as Hb.
  lra.
Qed.

Lemma margin_at_ok (n : nat) (L V R : list Q) (Sm : list (list Q))
    (kappa eps : Q) :
  snapshot n L V R Sm ->
  exists m,
    analyze_team_state L V R Sm kappa eps = Ok m
    /\ margin_at L V R Sm kappa eps = Margin m.
Proof.
  intro Hsnap.
  destruct (analyze_team_state_ok n L V R Sm kappa eps Hsnap)
    as (m & Hm & _).
  exists m. split; [exact Hm |]. unfold margin_at. rewrite Hm. reflexivity.
Qed.

(** The margin depends on [S] through its upper triangle only. *)
Lemma margin_at_upper (n : nat) (L V R : list Q) (Sm Sm' : list (list Q))
    (kappa eps : Q) :
  snapshot n L V R Sm -> shape2 n n Sm' ->
  (forall i j, (i < j < n)%nat -> entry Sm' i j == entry Sm i j) ->
  margin_at L V R Sm' kappa eps == margin_at L V R Sm kappa eps.
Proof.
  intros Hsnap HS' Hup. pose proof Hsnap as (HL & HV & HR & HS).
  destruct (margin_at_ok n L V R Sm kappa eps Hsnap) as (m & Hm & ->).
  destruct (analyze_team_state_compat n L V R L V R Sm Sm' kappa eps m
              Hsnap (conj HL (conj HV (conj HR HS'))))
    as (m' & Hm' & HM & _); try (intros; reflexivity);
    [exact Hup | exact Hm |].
  unfold margin_at. rewrite Hm'. exact HM.
Qed.

Lemma margin_at_set_S (n : nat) (L V R : list Q) (Sm : list (list Q))
    (kappa eps : Q) (i j : nat) (x h : Q) :
  snapshot n L V R Sm -> (i < j < n)%nat -> x == entry Sm i j + h ->
  margin_at L V R (set2 Sm i j x) kappa eps - margin_at L V R Sm kappa eps
  == h * (kappa * nth i (gravities L V R eps) 0
                * nth j (gravities L V R eps) 0 + 1).
Proof.
  intros Hsnap Hij Hx. pose proof Hsnap as (HL & HV & HR & HS).
  assert (HS' : shape2 n n (set2 Sm i j x))
    by (apply shape2_set2; [exact HS | lia | lia]).
  destruct (analyze_team_state_ok n L V R Sm kappa eps Hsnap)
    as (m & Hm & HG & _).
  destruct (margin_at_ok n L V R (set2 Sm i j x) kappa eps
              (conj HL (conj HV (conj HR HS')))) as (m' & Hm' & ->).
  unfold margin_at at 1. rewrite Hm.
  rewrite (margin_change_single_entry n L V R Sm (set2 Sm i j x) kappa eps
             i j h m m' Hsnap HS' Hij).
  - rewrite HG. reflexivity.
  - rewrite (entry_set2 n Sm i j i j) by (first [exact HS | lia]).
    rewrite !Nat.eqb_refl. exact Hx.
  - intros a b Hab Hne.
    rewrite (entry_set2 n Sm i j a b) by (first [exact HS | lia]).
    destruct (Nat.eqb_spec a i) as [-> | _];
      destruct (Nat.eqb_spec b j) as [-> | _]; simpl;
      first [reflexivity | exfalso; apply Hne; reflexivity].
  - exact Hm.
  - exact Hm'.
Qed.

Lemma margin_at_update_R (n : nat) (L V R : list Q) (Sm : list (list Q))
    (kappa eps : Q) (i : nat) (x h : Q) :
  snapshot n L V R Sm ->
  (forall a b, (a < n)%nat -> (b < n)%nat -> entry Sm a b == entry Sm b a) ->
  (i < n)%nat -> x == nth i R 0 + h ->
  ~ nth i R 0 + eps == 0 -> ~ nth i R 0 + h + eps == 0 ->
  margin_at L V (update_at i x R) Sm kappa eps
  - margin_at L V R Sm kappa eps
  == h * (interaction_spec n (gravities L V R eps) Sm kappa i
          * ((- ((nth i L 0) ^ 2 * nth i V 0))
             / ((nth i R 0 + eps) * (nth i R 0 + h + eps)))
          - 1).
Proof.
  intros Hsnap Hsym Hi Hx Hne0 Hne1. pose proof Hsnap as (HL & HV & HR & HS).
  assert (HR' : length (update_at i x R) = n)
    by (unfold update_at; rewrite length_update; lia).
  destruct (margin_at_ok n L V R Sm kappa eps Hsnap) as (m & Hm & ->).
  destruct (margin_at_ok n L V (update_at i x R) Sm kappa eps
              (conj HL (conj HV (conj HR' HS)))) as (m' & Hm' & ->).
  apply (margin_change_R n L V R (update_at i x R) Sm kappa eps i h m m'
           Hsnap Hsym Hi HR'); try assumption.
  - rewrite update_at_nth by lia. rewrite Nat.eqb_refl. exact Hx.
  - intros k Hk Hne. rewrite update_at_nth by lia.
    destruct (Nat.eqb_spec k i) as [-> | _]; [contradiction | reflexivity].
Qed.

(** The difference quotient of [r |-> I * N / (r + eps)]-like margins: the
    arithmetic of the limit. *)
Lemma secant_limit (I N d1 e : Q) :
  0 < d1 -> 0 < e ->
  exists d, 0 < d /\
    forall h q, ~ h == 0 -> Qabs h < d ->
      0 < d1 + h
      /\ (q == h * (I * (- N / (d1 * (d1 + h))) - 1) ->
          Qabs (q / h - (I * (- N / d1 ^ 2) - 1)) < e).
Proof.
  intros Hd He.
  set (c := I * N / (d1 * d1)). set (A := Qabs c).
  assert (HA : 0 <= A) by apply Qabs_nonneg.
  set (dd := e * d1 / (2 * (A + 1))).
  assert (Hed : 0 < e * d1) by (apply Qmult_lt_0_compat; assumption).
  assert (Hdd : 0 < dd).
  { unfold dd. apply Qlt_shift_div_l; [lra |]. rewrite Qmult_0_l. exact Hed. }
  exists (Qmin (d1 * (1 # 2)) dd). split.
  { apply Q.min_glb_lt; [lra | exact Hdd]. }
  intros h q Hh Habs.
  assert (Hh1 : Qabs h < d1 * (1 # 2))
    by (eapply Qlt_le_trans; [exact Habs | apply Q.le_min_l]).
  assert (Hh2 : Qabs h < dd)
    by (eapply Qlt_le_trans; [exact Habs | apply Q.le_min_r]).
  apply Qabs_Qlt_condition in Hh1. destruct Hh1 as [Hlo Hhi].
  assert (Hdpos : 0 < d1 + h) by lra.
  split; [exact Hdpos |]. intro Hq.
  assert (Hdiff : q / h - (I * (- N / d1 ^ 2) - 1) == c * h / (d1 + h)).
  { rewrite Hq. unfold c. field. repeat split; first [assumption | lra]. }
  rewrite Hdiff.
  assert (Hch : Qabs (c * h) == A * Qabs h) by apply Qabs_Qmult.
  assert (HH0 : 0 <= Qabs h) by apply Qabs_nonneg.
  assert (Hmul : Qabs h * (2 * (A + 1)) < e * d1).
  { apply (Qmult_lt_compat_r _ _ (2 * (A + 1))) in Hh2; [| lra].
    unfold dd in Hh2.
    setoid_replace (e * d1 / (2 * (A + 1)) * (2 * (A + 1))) with (e * d1)
      in Hh2 by (field; lra).
    exact Hh2. }
  assert (Heh : 0 < e * (h + d1 * (1 # 2)))
    by (apply Qmult_lt_0_compat; lra).
  assert (HAH0 : 0 <= A * Qabs h) by (apply Qmult_le_0_compat; assumption).
  assert (HAH : A * Qabs h < e * (d1 + h)) by lra.
  pose proof (Qle_Qabs (c * h)) as Hup.
  assert (Hlow : - Qabs (c * h) <= c * h).
  { pose proof (Qle_Qabs (- (c * h))) as H. rewrite Qabs_opp in H. lra. }
  rewrite Hch in Hup, Hlow.
  apply Qabs_Qlt_condition. split.
  - apply Qlt_shift_div_l; [exact Hdpos |]. lra.
  - apply Qlt_shift_div_r; [exact Hdpos |]. lra.
Qed.

Lemma margin_derivative_in_S (n : nat) (L V R : list Q) (Sm : list (list Q))
    (kappa eps : Q) (i j : nat) (dM_dR : list Q) (dM_dS : list (list Q)) :
  snapshot n L V R Sm -> (i < j < n)%nat ->
  calculate_marginal_gains L V R Sm kappa eps = Ok (dM_dR, dM_dS) ->
  is_derivative (fun s => margin_at L V R (set2 Sm i j s) kappa eps)
    (entry Sm i j) (entry dM_dS i j).
Proof.
  intros Hsnap Hij Hcalc.
  destruct (calculate_marginal_gains_ok n L V R Sm kappa eps Hsnap)
    as (dR & dS & Hcalc' & _ & _ & _ & HdS & _).
  rewrite Hcalc in Hcalc'. injection Hcalc' as <- <-.
  destruct (HdS i j Hij) as [Hd _].
  intros e He. exists 1. split; [reflexivity |]. intros h Hh _. cbv beta.
  pose proof (margin_at_set_S n L V R Sm kappa eps i j (entry Sm i j + h) h
                Hsnap Hij (Qeq_refl _)) as H1.
  assert (H0 : margin_at L V R (set2 Sm i j (entry Sm i j)) kappa eps
               - margin_at L V R Sm kappa eps
               == 0 * (kappa * nth i (gravities L V R eps) 0
                             * nth j (gravities L V R eps) 0 + 1)).
  { apply (margin_at_set_S n); [exact Hsnap | exact Hij | ring]. }
  rewrite Hd.
  set (a := margin_at L V R (set2 Sm i j (entry Sm i j + h)) kappa eps) in *.
  set (b := margin_at L V R (set2 Sm i j (entry Sm i j)) kappa eps) in *.
  set (M := margin_at L V R Sm kappa eps) in *.
  set (s := kappa * nth i (gravities L V R eps) 0
                  * nth j (gravities L V R eps) 0 + 1) in *.
  assert (Hq : (a - b) / h - s == 0).
  { setoid_replace (a - b) with ((a - M) - (b - M)) by ring.
    rewrite H1, H0. field. exact Hh. }
  rewrite Hq. exact He.
Qed.

Lemma margin_derivative_in_R (n : nat) (L V R : list Q) (Sm : list (list Q))
    (kappa eps : Q) (i : nat) (dM_dR : list Q) (dM_dS : list (list Q)) :
  snapshot n L V R Sm ->
  (forall a b, (a < n)%nat -> (b < n)%nat -> entry Sm a b == entry Sm b a) ->
  (i < n)%nat -> 0 < nth i R 0 + eps ->
  calculate_marginal_gains L V R Sm kappa eps = Ok (dM_dR, dM_dS) ->
  is_derivative (fun r => margin_at L V (update_at i r R) Sm kappa eps)
    (nth i R 0) (nth i dM_dR 0).
Proof.
  intros Hsnap Hsym Hi Hpos Hcalc.
  destruct (calculate_marginal_gains_ok n L V R Sm kappa eps Hsnap)
    as (dR & dS & Hcalc' & _ & HdR & _).
  rewrite Hcalc in Hcalc'. injection Hcalc' as <- <-.
  specialize (HdR i Hi).
  intros e He.
  destruct (secant_limit
              (interaction_spec n (gravities L V R eps) Sm kappa i)
              ((nth i L 0) ^ 2 * nth i V 0) (nth i R 0 + eps) e Hpos He)
    as (d & Hd & Hbound).
  exists d. split; [exact Hd |]. intros h Hh Habs. cbv beta.
  destruct (Hbound h
              (margin_at L V (update_at i (nth i R 0 + h) R) Sm kappa eps
               - margin_at L V (update_at i (nth i R 0) R) Sm kappa eps)
              Hh Habs) as [Hdpos Hb].
  rewrite HdR. apply Hb.
  assert (H0 : margin_at L V (update_at i (nth i R 0) R) Sm kappa eps
               - margin_at L V R Sm kappa eps
               == 0 * (interaction_spec n (gravities L V R eps) Sm kappa i
                       * ((- ((nth i L 0) ^ 2 * nth i V 0))
                          / ((nth i R 0 + eps) * (nth i R 0 + 0 + eps)))
                       - 1)).
  { apply (margin_at_update_R n); try assumption; [ring | lra | lra]. }
  assert (H1 : margin_at L V (update_at i (nth i R 0 + h) R) Sm kappa eps
               - margin_at L V R Sm kappa eps
               == h * (interaction_spec n (gravities L V R eps) Sm kappa i
                       * ((- ((nth i L 0) ^ 2 * nth i V 0))
                          / ((nth i R 0 + eps) * (nth i R 0 + h + eps)))
                       - 1)).
  { apply (margin_at_update_R n); try assumption; [reflexivity | lra | lra]. }
  set (a := margin_at L V (update_at i (nth i R 0 + h) R) Sm kappa eps) in *.
  set (b := margin_at L V (update_at i (nth i R 0) R) Sm kappa eps) in *.
  set (M := margin_at L V R Sm kappa eps) in *.
  setoid_replace (a - b) with ((a - M) - (b - M)) by ring.
  rewrite H1, H0. field. split; lra.
Qed.

(** C2. On every snapshot the sensitivity analyzer returns, for each node
    [i], [interaction_sum[i] * (-(L[i]^2 * V[i]) / (R[i] + eps)^2) - 1]
    with [interaction_sum[i] = kappa * sum over j <> i of S[i][j] * G[j]],
    and for each pair [i < j], [kappa * G[i] * G[j] + 1] (stored at
    [(i, j)] and at [(j, i)], the diagonal staying zero), where [G] is the
    gravity vector [L^2 * V / (R + eps)].  Where every [R[k] + eps] is
    positive these are gradients of the evaluator's margin as follows: the
    entry for a pair [i < j] is the derivative of the margin with respect to
    [S[i][j]], for every [S]; the entry for a node [i] is the derivative of
    the margin with respect to [R[i]] when [S] is symmetric. *)
Theorem calculate_marginal_gains_spec (n : nat) (L V R : list Q)
    (Sm : list (list Q)) (kappa eps : Q) :
  snapshot n L V R Sm ->
  exists dM_dR dM_dS Gv,
    calculate_marginal_gains L V R Sm kappa eps = Ok (dM_dR, dM_dS)
    /\ compute_individual_gravity L V R eps = Ok Gv
    /\ (forall i, (i < n)%nat ->
          nth i Gv 0 == (nth i L 0) ^ 2 * nth i V 0 / (nth i R 0 + eps))
    /\ length dM_dR = n
    /\ (forall i, (i < n)%nat ->
          nth i dM_dR 0 ==
          (kappa * Qsum (map (fun j => entry Sm i j * nth j Gv 0)
                             (filter (fun j => negb (i =? j)%nat) (seq 0 n))))
          * ((- ((nth i L 0) ^ 2 * nth i V 0)) / (nth i R 0 + eps) ^ 2) - 1)
    /\ shape2 n n dM_dS
    /\ (forall i j, (i < j < n)%nat ->
          entry dM_dS i j == kappa * nth i Gv 0 * nth j Gv 0 + 1
          /\ entry dM_dS j i == kappa * nth i Gv 0 * nth j Gv 0 + 1)
    /\ (forall i, entry dM_dS i i == 0)
    /\ ((forall k, (k < n)%nat -> 0 < nth k R 0 + eps) ->
        (forall i j, (i < j < n)%nat ->
           is_derivative
             (fun s => margin_at L V R (set2 Sm i j s) kappa eps)
             (entry Sm i j) (entry dM_dS i j))
        /\ ((forall a b, (a < n)%nat -> (b < n)%nat ->
               entry Sm a b == entry Sm b a) ->
            forall i, (i < n)%nat ->
              is_derivative
                (fun r => margin_at L V (update_at i r R) Sm kappa eps)
                (nth i R 0) (nth i dM_dR 0))).
Proof.
  intro Hsnap.
  destruct (calculate_marginal_gains_ok n L V R Sm kappa eps Hsnap)
    as (dR & dS & Hcalc & Hlen & HdR & Hshape & HdS & Hdiag).
  pose proof Hsnap as (HL & HV & HR & HS).
  exists dR, dS, (gravities L V R eps).
  split; [exact Hcalc |].
  split; [apply compute_individual_gravity_ok; congruence |].
  split.
  { intros i Hi. rewrite gravities_nth by lia. reflexivity. }
  split; [exact Hlen |].
  split.
  { intros i Hi. rewrite (HdR i Hi). reflexivity. }
  split; [exact Hshape |].
  split.
  { intros i j Hij. destruct (HdS i j Hij) as [H1 H2].
    rewrite H1, H2. split; reflexivity. }
  split.
  { intro i. rewrite Hdiag. reflexivity. }
  intro Hpos. split.
  - intros i j Hij.
    apply (margin_derivative_in_S n L V R Sm kappa eps i j dR dS);
      assumption.
  - intros Hsym i Hi.
    apply (margin_derivative_in_R n L V R Sm kappa eps i dR dS);
      try assumption.
    apply Hpos. exact Hi.
Qed.

Lemma example_sym_snapshot :
  snapshot 4 example_L example_V example_R example_S_sym.
Proof. unfold snapshot, shape2. repeat split; repeat constructor. Qed.

Lemma example_denominators (k : nat) :
  (k < 4)%nat -> 0 < nth k example_R 0 + default_eps.
Proof.
  intro Hk.
  do 4 (destruct k as [|k]; [vm_compute; reflexivity |]).
  exfalso; lia.
Qed.

Lemma calculate_marginal_gains_spec_witness :
  snapshot 4 example_L example_V example_R example_S_sym
  /\ exists dM_dR dM_dS,
       calculate_marginal_gains example_L example_V example_R example_S_sym
         default_kappa default_eps = Ok (dM_dR, dM_dS)
       /\ length dM_dR = 4%nat
       /\ shape2 4 4 dM_dS
       /\ is_derivative
            (fun s => margin_at example_L example_V example_R
                        (set2 example_S_sym 0 1 s) default_kappa default_eps)
            (entry example_S_sym 0 1) (entry dM_dS 0 1)
       /\ is_derivative
            (fun r => margin_at example_L example_V
                        (update_at 1 r example_R) example_S_sym
                        default_kappa default_eps)
            (nth 1 example_R 0) (nth 1 dM_dR 0).
Proof.
  split; [exact example_sym_snapshot |].
  destruct (calculate_marginal_gains_spec 4 example_L example_V example_R
              example_S_sym default_kappa default_eps example_sym_snapshot)
    as (dR & dS & Gv & Hcalc & _ & _ & Hlen & _ & Hshape & _ & _ & Hgrad).
  destruct (Hgrad example_denominators) as [HgS HgR].
  exists dR, dS. split; [exact Hcalc |]. split; [exact Hlen |].
  split; [exact Hshape |]. split.
  - apply HgS. lia.
  - apply (HgR example_S_sym_symmetric). lia.
Defined.

(** C2, the counterexample: on the example team as [__main__] builds it
    ([S[0][1] = 0.8] but [S[1][0] = 0.5]) the analyzer returns
    [dM_dR[1] = -1061027/27], while the derivative of the evaluator's margin
    with respect to [R[1]] is [-1521827/27]: the evaluator reads [S[0][1]],
    the analyzer's interaction sum reads [S[1][0]]. *)
Lemma calculate_marginal_gains_not_gradient :
  snapshot 4 example_L example_V example_R example_S
  /\ (forall k, (k < 4)%nat -> 0 < nth k example_R 0 + default_eps)
  /\ exists dM_dR dM_dS,
       calculate_marginal_gains example_L example_V example_R example_S
         default_kappa default_eps = Ok (dM_dR, dM_dS)
       /\ nth 1 dM_dR 0 == - (1061027 # 27)
       /\ is_derivative
            (fun r => margin_at example_L example_V
                        (update_at 1 r example_R) example_S
                        default_kappa default_eps)
            (nth 1 example_R 0) (- (1521827 # 27))
       /\ ~ is_derivative
              (fun r => margin_at example_L example_V
                          (update_at 1 r example_R) example_S
                          default_kappa default_eps)
              (nth 1 example_R 0) (nth 1 dM_dR 0).
Proof.
  split; [exact example_snapshot |].
  split; [exact example_denominators |].
  destruct (calculate_marginal_gains_ok 4 example_L example_V example_R
              example_S_sym default_kappa default_eps example_sym_snapshot)
    as (dRs & dSs & Hcs & _).
  pose proof (margin_derivative_in_R 4 example_L example_V example_R
                example_S_sym default_kappa default_eps 1 dRs dSs
                example_sym_snapshot example_S_sym_symmetric) as Hder.
  specialize (Hder ltac:(lia) (example_denominators 1 ltac:(lia)) Hcs).
  assert (HdRs : nth 1 dRs 0 == - (1521827 # 27)).
  { vm_compute in Hcs. injection Hcs as <- <-. vm_compute. reflexivity. }
  assert (Hder' : is_derivative
            (fun r => margin_at example_L example_V
                        (update_at 1 r example_R) example_S
                        default_kappa default_eps)
            (nth 1 example_R 0) (- (1521827 # 27))).
  { apply (is_derivative_ext
             (fun r => margin_at example_L example_V
                         (update_at 1 r example_R) example_S_sym
                         default_kappa default_eps)
             _ _ (nth 1 dRs 0)); [| exact HdRs | exact Hder].
    intro r. cbv beta.
    apply (margin_at_upper 4).
    - unfold snapshot, shape2. repeat split; repeat constructor.
    - unfold shape2. repeat split; repeat constructor.
    - intros i j Hij. symmetry. apply example_S_upper. exact Hij. }
  destruct (calculate_marginal_gains_ok 4 example_L example_V example_R
              example_S default_kappa default_eps example_snapshot)
    as (dR & dS & Hc & _).
  assert (HdR : nth 1 dR 0 == - (1061027 # 27)).
  { pose proof Hc as Hc'. vm_compute in Hc'. injection Hc' as <- <-.
    vm_compute. reflexivity. }
  exists dR, dS. split; [exact Hc |]. split; [exact HdR |].
  split; [exact Hder' |].
  intro Hbad.
  pose proof (is_derivative_unique _ _ _ _ Hder' Hbad) as Heq.
  rewrite HdR in Heq. vm_compute in Heq. discriminate Heq.
Qed.
